(** * use-base64: the Base64 transcoding core

    A shallow embedding of [src/encode.ts], [src/decode.ts] and
    [src/wrap.ts], and the properties of the encoder, the decoder and the
    line-wrap helper stated over it.

    Conventions of the embedding.
    - A JavaScript string is the list of its UTF-16 code units ([jsstring]).
    - A [Uint8Array] is a [list Z]; [is_bytes] says every element is in
      [0, 256).
    - Numbers are [Z].  Operands of the bit operators of the source stay
      below [2^24] on byte input, so the 32-bit conversion the operators
      perform is the identity there (see [triple_bound]).
    - An indexed read that is out of range gives [None] ([undefined]).
    - [while] and [for] loops are functions by well-founded recursion on the
      distance of the index to its bound.
    - [throw new Error(...)] is the [Err] result, with one constructor of
      [DecodeError] for each message of [decode.ts]. *)

From Stdlib Require Import ZArith List Lia Bool String Ascii.
From Equations Require Import Equations.
Import ListNotations.
Local Open Scope Z_scope.

(* ================================================================== *)
(** ** JavaScript values                                               *)
(* ================================================================== *)

Module JS.

(** A string: its UTF-16 code units. *)
Definition jsstring := list Z.

(** The code units of an ASCII literal. *)
Fixpoint str (s : string) : jsstring :=
  match s with
  | EmptyString => []
  | String c s' => Z.of_N (N_of_ascii c) :: str s'
  end.

(** [s.length] *)
Definition len {A} (s : list A) : Z := Z.of_nat (List.length s).

(** [s[i]]: [None] stands for [undefined]. *)
Definition at_ {A} (s : list A) (i : Z) : option A :=
  if i <? 0 then None else nth_error s (Z.to_nat i).

(** [ToInt32] of a byte read: [undefined] becomes 0 in a bit operation. *)
Definition num (o : option Z) : Z :=
  match o with Some v => v | None => 0 end.

(** [x ?? 0] *)
Definition orZero (o : option Z) : Z :=
  match o with Some v => v | None => 0 end.

(** [out += table[k]]: appending [undefined] appends its name. *)
Definition strOf (o : option Z) : jsstring :=
  match o with Some c => [c] | None => str "undefined" end.

(** Resolution of a relative index of [slice], for a string of length [n]. *)
Definition clampIndex (n k : Z) : Z :=
  if k <? 0 then Z.max (n + k) 0 else Z.min k n.

(** [s.slice(start, end)] *)
Definition slice {A} (s : list A) (start end_ : Z) : list A :=
  let from := clampIndex (len s) start in
  let to := clampIndex (len s) end_ in
  firstn (Z.to_nat (to - from)) (skipn (Z.to_nat from) s).

(** [s.slice(start)] *)
Definition sliceFrom {A} (s : list A) (start : Z) : list A :=
  slice s start (len s).

(** [c.repeat(n)] for a one-character string [c]. *)
Definition repeatChar (c : Z) (n : Z) : jsstring := repeat c (Z.to_nat n).

(** Equality of strings, [===] and [!==]. *)
Definition streq (s t : jsstring) : bool :=
  if list_eq_dec Z.eq_dec s t then true else false.

(** [s.endsWith(t)] *)
Definition endsWith (s t : jsstring) : bool :=
  (len t <=? len s) && streq (skipn (List.length s - List.length t) s) t.

(** [s.indexOf(c)] for a one-character string [c]; [-1] when absent. *)
Fixpoint indexOf_from (i : Z) (s : jsstring) (c : Z) : Z :=
  match s with
  | [] => -1
  | x :: s' => if x =? c then i else indexOf_from (i + 1) s' c
  end.
Definition indexOf (s : jsstring) (c : Z) : Z := indexOf_from 0 s c.

(** The characters the class [\s] of a regular expression matches:
    WhiteSpace and LineTerminator of ECMAScript. *)
Definition isWhitespace (c : Z) : bool :=
  ((9 <=? c) && (c <=? 13)) || (c =? 32) || (c =? 160) || (c =? 5760)
  || ((8192 <=? c) && (c <=? 8202)) || (c =? 8232) || (c =? 8233)
  || (c =? 8239) || (c =? 8287) || (c =? 12288) || (c =? 65279).

(** [s.replace(/\s+/g, "")] *)
Definition stripWhitespace (s : jsstring) : jsstring :=
  filter (fun c => negb (isWhitespace c)) s.

(** [s.replace(/\n/g, "")] *)
Definition removeLineBreaks (s : jsstring) : jsstring :=
  filter (fun c => negb (c =? 10)) s.

Fixpoint dropWhileEq (s : jsstring) : jsstring :=
  match s with
  | [] => []
  | c :: s' => if c =? 61 then dropWhileEq s' else s
  end.

(** [s.replace(/=+$/, "")]: the leftmost match of [=+$] is the whole
    trailing run of ['=']. *)
Definition stripTrailingEq (s : jsstring) : jsstring :=
  rev (dropWhileEq (rev s)).

(** [/[xy]/.test(s)] for a class of two characters. *)
Definition testClass2 (x y : Z) (s : jsstring) : bool :=
  existsb (fun c => (c =? x) || (c =? y)) s.

(** [arr[i] = v] on a typed array: a write out of range is ignored. *)
Fixpoint store_nat (l : list Z) (i : nat) (v : Z) : list Z :=
  match l, i with
  | [], _ => []
  | _ :: l', O => v :: l'
  | x :: l', S i' => x :: store_nat l' i' v
  end.
Definition store (l : list Z) (i : Z) (v : Z) : list Z :=
  if i <? 0 then l else store_nat l (Z.to_nat i) v.

(** The content of a [Uint8Array]. *)
Definition is_byte (b : Z) : Prop := 0 <= b < 256.
Definition is_bytes (bs : list Z) : Prop := Forall is_byte bs.

End JS.
Import JS.

(* ================================================================== *)
(** ** wrap.ts                                                         *)
(* ================================================================== *)

Definition LF : Z := 10.

(** The loop of [wrapAt]: [for (let i = 0; i < input.length; i += width)]. *)
Equations? wrapAt_loop (input : jsstring) (width : Z) (Hw : 0 < width)
    (i : Z) (out : jsstring) : jsstring by wf (Z.to_nat (len input - i)) lt :=
  wrapAt_loop input width Hw i out with Z_lt_dec i (len input) := {
    | left _ =>
        let out1 := out ++ slice input i (i + width) in
        let out2 := if i + width <? len input then out1 ++ [LF] else out1 in
        wrapAt_loop input width Hw (i + width) out2;
    | right _ => out }.
Proof. lia. Qed.

(** [wrapAt(input, width)]; [None] is an absent width.  [!width] holds for
    an absent width and for 0. *)
Definition wrapAt (input : jsstring) (width : option Z) : jsstring :=
  match width with
  | None => input
  | Some w =>
      match Z_lt_dec 0 w with
      | left Hw => wrapAt_loop input w Hw 0 []
      | right _ => input
      end
  end.

(* ================================================================== *)
(** ** encode.ts                                                       *)
(* ================================================================== *)

Inductive Base64Variant := standard | url.
Inductive PaddingOption := preserve | strip.

(** [Base64Options]; [normalize] concerns [encodeBase64] only, which
    turns a string into bytes before it calls the encoder of bytes.
    [wrap]: [None] is an absent field or [false]. *)
Record Base64Options := mkOptions {
  variant : option Base64Variant;
  padding : option PaddingOption;
  wrap : option Z
}.

Definition noOptions : Base64Options := mkOptions None None None.

Definition B64_STD : jsstring :=
  str "ABCDEFGHIJKLMNOPQRSTUVWXYZabcdefghijklmnopqrstuvwxyz0123456789+/".
Definition B64_URL : jsstring :=
  str "ABCDEFGHIJKLMNOPQRSTUVWXYZabcdefghijklmnopqrstuvwxyz0123456789-_".

Definition EQ : Z := 61.

(** [table[(triple >> k) & 63]] as a string to append. *)
Definition tableChar (table : jsstring) (triple k : Z) : jsstring :=
  strOf (at_ table (Z.land (Z.shiftr triple k) 63)).

(** One pass of the body of the loop of [encodeChunk], at index [i]: the
    four characters appended to [out]. *)
Definition chunkGroup (bytes : list Z) (table : jsstring) (i : Z)
  : jsstring :=
  let triple :=
    Z.lor (Z.lor (Z.shiftl (num (at_ bytes i)) 16)
                 (Z.shiftl (num (at_ bytes (i + 1))) 8))
          (num (at_ bytes (i + 2))) in
  tableChar table triple 18 ++ tableChar table triple 12
  ++ tableChar table triple 6 ++ tableChar table triple 0.

(** The loop of [encodeChunk]: [for (let i = start; i < end; i += 3)]. *)
Equations? encodeChunk_loop (bytes : list Z) (end_ : Z) (table : jsstring)
    (i : Z) (out : jsstring) : jsstring by wf (Z.to_nat (end_ - i)) lt :=
  encodeChunk_loop bytes end_ table i out with Z_lt_dec i end_ := {
    | left _ =>
        encodeChunk_loop bytes end_ table (i + 3)
          (out ++ chunkGroup bytes table i);
    | right _ => out }.
Proof. lia. Qed.

Definition encodeChunk (bytes : list Z) (start end_ : Z) (table : jsstring)
  : jsstring :=
  encodeChunk_loop bytes end_ table start [].

Definition chunkSize : Z := 32768. (* 0x8000 *)

(** The loop over the complete 3-byte groups:
    [while (i + 3 <= len)].  Returns the final [i] and [output]. *)
Equations? encodeGroups_loop (bytes : list Z) (table : jsstring)
    (i : Z) (output : jsstring) : Z * jsstring
    by wf (Z.to_nat (len bytes - i)) lt :=
  encodeGroups_loop bytes table i output with Z_le_dec (i + 3) (len bytes) := {
    | left _ =>
        let end_ := Z.min (i + chunkSize - chunkSize mod 3)
                          (len bytes - len bytes mod 3) in
        encodeGroups_loop bytes table end_
          (output ++ encodeChunk bytes i end_ table);
    | right _ => (i, output) }.
Proof.
  subst end_. change (chunkSize - chunkSize mod 3) with 32766.
  pose proof (Z.mod_pos_bound (len bytes) 3 ltac:(lia)).
  change (chunkSize mod 3) with 2. unfold chunkSize. lia.
Qed.

(** [encodeBase64FromBytes(bytes, options)] *)
Definition encodeBase64FromBytes (bytes : list Z) (options : Base64Options)
  : jsstring :=
  let table :=
    match variant options with Some url => B64_URL | _ => B64_STD end in
  let '(i, output) := encodeGroups_loop bytes table 0 [] in
  let rem := len bytes - i in
  let output :=
    if 0 <? rem then
      let a := num (at_ bytes i) in
      let b := if rem =? 2 then num (at_ bytes (i + 1)) else 0 in
      let triple := Z.lor (Z.shiftl a 16) (Z.shiftl b 8) in
      let output := output ++ tableChar table triple 18 in
      let output := output ++ tableChar table triple 12 in
      if rem =? 2 then
        let output := output ++ tableChar table triple 6 in
        output ++ [EQ]
      else
        output ++ [EQ; EQ]
    else output in
  let output :=
    match padding options with
    | Some strip => stripTrailingEq output
    | _ => output
    end in
  match wrap options with
  | Some w => if w =? 0 then output else wrapAt output (Some w)
  | None => output
  end.

(* ================================================================== *)
(** ** decode.ts                                                       *)
(* ================================================================== *)

Definition B64_STD_ALPH : jsstring := B64_STD.
Definition B64_URL_ALPH : jsstring := B64_URL.

(** [Record<string, number>] with one-character keys: the bindings, the
    latest first. *)
Definition LookupTable := list (Z * Z).

(** [table[c]] *)
Fixpoint table_get (table : LookupTable) (c : Z) : option Z :=
  match table with
  | [] => None
  | (k, v) :: table' => if k =? c then Some v else table_get table' c
  end.

(** [table[c] = i] *)
Definition table_set (table : LookupTable) (c i : Z) : LookupTable :=
  (c, i) :: table.

(** The loop of [createLookupTable], over the characters from index [i] on. *)
Fixpoint createLookupTable_from (i : Z) (rest : jsstring)
    (table : LookupTable) : LookupTable :=
  match rest with
  | [] => table
  | c :: rest' => createLookupTable_from (i + 1) rest' (table_set table c i)
  end.

Definition createLookupTable (alphabet : jsstring) : LookupTable :=
  createLookupTable_from 0 alphabet [].

Definition B64_STD_LOOKUP : LookupTable := createLookupTable B64_STD_ALPH.
Definition B64_URL_LOOKUP : LookupTable := createLookupTable B64_URL_ALPH.

(** [lookup[padded[i]]]; the key of an [undefined] character is not a
    character of any alphabet. *)
Definition lookupAt (lookup : LookupTable) (padded : jsstring) (i : Z)
  : option Z :=
  match at_ padded i with
  | Some c => table_get lookup c
  | None => None
  end.

(** [padded[i] === "=" ? 0 : lookup[padded[i]]] *)
Definition lookupPadAt (lookup : LookupTable) (padded : jsstring) (i : Z)
  : option Z :=
  match at_ padded i with
  | Some c => if c =? EQ then Some 0 else table_get lookup c
  | None => None
  end.

(** One pass of the body of the loop of [encodeBytesToBase64Raw], from
    index [i]: the four characters appended to [out]. *)
Definition rawGroup (bytes : list Z) (alphabet : jsstring) (i : Z)
  : jsstring :=
  let a := orZero (at_ bytes i) in
  let b := orZero (at_ bytes (i + 1)) in
  let c := orZero (at_ bytes (i + 2)) in
  let triplet := Z.lor (Z.lor (Z.shiftl a 16) (Z.shiftl b 8)) c in
  let s0 := Z.land (Z.shiftr triplet 18) 63 in
  let s1 := Z.land (Z.shiftr triplet 12) 63 in
  let s2 := Z.land (Z.shiftr triplet 6) 63 in
  let s3 := Z.land triplet 63 in
  strOf (at_ alphabet s0) ++ strOf (at_ alphabet s1)
  ++ strOf (at_ alphabet s2) ++ strOf (at_ alphabet s3).

(** The loop of [encodeBytesToBase64Raw]: [while (i < bytes.length)], the
    index advancing by the three [i++] of the body. *)
Equations? encodeRaw_loop (bytes : list Z) (alphabet : jsstring)
    (i : Z) (out : jsstring) : jsstring by wf (Z.to_nat (len bytes - i)) lt :=
  encodeRaw_loop bytes alphabet i out with Z_lt_dec i (len bytes) := {
    | left _ =>
        encodeRaw_loop bytes alphabet (i + 3)
          (out ++ rawGroup bytes alphabet i);
    | right _ => out }.
Proof. lia. Qed.

(** [encodeBytesToBase64Raw(bytes, alphabet)] *)
Definition encodeBytesToBase64Raw (bytes : list Z) (alphabet : jsstring)
  : jsstring :=
  let out := encodeRaw_loop bytes alphabet 0 [] in
  let mod_ := len bytes mod 3 in
  if mod_ =? 1 then slice out 0 (-2) ++ [EQ; EQ]
  else if mod_ =? 2 then slice out 0 (-1) ++ [EQ]
  else out.

(** The errors [decodeBase64ToBytes] throws, one for each message. *)
Inductive DecodeError :=
| MixedAlphabet          (* "Mixed Base64 alphabets (standard and URL-safe)" *)
| InvalidLength          (* "Invalid Base64 string length" *)
| InvalidPadding         (* "Invalid Base64 padding" *)
| InvalidCharacter (position : Z)
                         (* "Invalid Base64 character at position ${i}" *)
| NonCanonical.
    (* "Invalid Base64 input (non-canonical without padding)" *)

Inductive Result (A : Type) :=
| Ok (a : A)
| Err (e : DecodeError).
Arguments Ok {A} a.
Arguments Err {A} e.

(** [if (out < outputLen) output[out++] = v] on the pair [(out, output)]. *)
Definition emit (outputLen : Z) (st : Z * list Z) (v : Z) : Z * list Z :=
  let '(out, output) := st in
  if out <? outputLen then (out + 1, store output out v) else (out, output).

(** The four 6-bit values of the group at [i], when every character of it
    is accepted. *)
Definition groupValues (lookup : LookupTable) (padded : jsstring) (i : Z)
  : option (Z * Z * Z * Z) :=
  match lookupAt lookup padded i, lookupAt lookup padded (i + 1),
        lookupPadAt lookup padded (i + 2), lookupPadAt lookup padded (i + 3)
  with
  | Some a, Some b, Some c, Some d => Some (a, b, c, d)
  | _, _, _, _ => None
  end.

(** The three guarded writes of one pass of the decoding loop. *)
Definition emitTriple (outputLen : Z) (st : Z * list Z)
    (v : Z * Z * Z * Z) : Z * list Z :=
  let '(a, b, c, d) := v in
  let triple :=
    Z.lor (Z.lor (Z.lor (Z.shiftl a 18) (Z.shiftl b 12)) (Z.shiftl c 6)) d in
  let st := emit outputLen st (Z.land (Z.shiftr triple 16) 255) in
  let st := emit outputLen st (Z.land (Z.shiftr triple 8) 255) in
  emit outputLen st (Z.land triple 255).

(** The decoding loop: [for (let i = 0; i < len; i += 4)], on the state
    [(out, output)]. *)
Equations? decode_loop (lookup : LookupTable) (padded : jsstring)
    (len_ outputLen : Z) (i : Z) (st : Z * list Z) : Result (list Z)
    by wf (Z.to_nat (len_ - i)) lt :=
  decode_loop lookup padded len_ outputLen i st with Z_lt_dec i len_ := {
    | left _ with groupValues lookup padded i := {
        | None => Err (InvalidCharacter i);
        | Some v =>
            decode_loop lookup padded len_ outputLen (i + 4)
              (emitTriple outputLen st v) };
    | right _ => Ok (snd st) }.
Proof. lia. Qed.

(** [DecodeOptions]: only [loose] concerns [decodeBase64ToBytes]; an absent
    [loose] is [false]. *)
Record DecodeOptions := mkDecodeOptions { loose : bool }.

Definition strictMode : DecodeOptions := mkDecodeOptions false.
Definition looseMode : DecodeOptions := mkDecodeOptions true.

(** [/^(=|==)$/.test(tail)] *)
Definition isPaddingTail (tail : jsstring) : bool :=
  streq tail [EQ] || streq tail [EQ; EQ].

(** The part of [decodeBase64ToBytes] from the allocation of [output] on. *)
Definition decodePadded (lookup : LookupTable) (alph : jsstring)
    (cleaned padded : jsstring) (opts : DecodeOptions)
    (verifyCanonical : bool) : Result (list Z) :=
  let len_ := len padded in
  let outputLen :=
    (len_ / 4) * 3
    - (if endsWith padded [EQ; EQ] then 2
       else if endsWith padded [EQ] then 1 else 0) in
  let output := repeat 0 (Z.to_nat outputLen) in
  match decode_loop lookup padded len_ outputLen 0 (0, output) with
  | Err e => Err e
  | Ok output =>
      if negb (loose opts) && verifyCanonical then
        let reenc := stripTrailingEq (encodeBytesToBase64Raw output alph) in
        if negb (streq reenc cleaned) then Err NonCanonical else Ok output
      else Ok output
  end.

(** The part of [decodeBase64ToBytes] after the alphabet is selected:
    the handling of the length and of the padding. *)
Definition decodeCleaned (lookup : LookupTable) (alph : jsstring)
    (cleaned : jsstring) (opts : DecodeOptions) : Result (list Z) :=
  let padded := cleaned in
  let mod_ := len padded mod 4 in
  if loose opts then
    if mod_ =? 1 then Err InvalidLength
    else
      let padded :=
        if negb (mod_ =? 0) then padded ++ repeatChar EQ (4 - mod_)
        else padded in
      decodePadded lookup alph cleaned padded opts false
  else
    if mod_ =? 1 then Err InvalidLength
    else if (mod_ =? 2) || (mod_ =? 3) then
      decodePadded lookup alph cleaned
        (padded ++ repeatChar EQ (4 - mod_)) opts true
    else
      let eqIdx := indexOf padded EQ in
      if negb (eqIdx =? -1)
         && negb (isPaddingTail (sliceFrom padded eqIdx))
      then Err InvalidPadding
      else decodePadded lookup alph cleaned padded opts false.

(** [decodeBase64ToBytes(input, opts)] *)
Definition decodeBase64ToBytes (input : jsstring) (opts : DecodeOptions)
  : Result (list Z) :=
  match input with
  | [] => Ok []
  | _ =>
      let cleaned := stripWhitespace input in
      let hasUrlChars := testClass2 45 95 cleaned in   (* /[-_]/ *)
      let hasStdChars := testClass2 43 47 cleaned in   (* /[+/]/ *)
      if hasUrlChars && hasStdChars then Err MixedAlphabet
      else
        let isUrl := hasUrlChars in
        let lookup := if isUrl then B64_URL_LOOKUP else B64_STD_LOOKUP in
        let alph := if isUrl then B64_URL_ALPH else B64_STD_ALPH in
        decodeCleaned lookup alph cleaned opts
  end.

(* ================================================================== *)
(** ** Reference definitions                                           *)
(* ================================================================== *)

(** The 24-bit number of three bytes, and its 6-bit field at bit [k]. *)
Definition triple3 (a b c : Z) : Z :=
  Z.lor (Z.lor (Z.shiftl a 16) (Z.shiftl b 8)) c.
Definition sextet (t k : Z) : Z := Z.land (Z.shiftr t k) 63.

(** The character of a 64-character table at an index in range. *)
Definition tchar (table : jsstring) (s : Z) : Z := nth (Z.to_nat s) table 0.

(** The four characters of a 3-byte group. *)
Definition group4 (table : jsstring) (a b c : Z) : jsstring :=
  let t := triple3 a b c in
  [tchar table (sextet t 18); tchar table (sextet t 12);
   tchar table (sextet t 6); tchar table (sextet t 0)].

(** Complete groups only: what the loops over whole groups produce. *)
Fixpoint encodeFull (table : jsstring) (bs : list Z) : jsstring :=
  match bs with
  | a :: b :: c :: r => group4 table a b c ++ encodeFull table r
  | _ => []
  end.

(** Every group with the missing bytes of the last one read as 0: what the
    loop of [encodeBytesToBase64Raw] produces. *)
Fixpoint encodeZeroFilled (table : jsstring) (bs : list Z) : jsstring :=
  match bs with
  | [] => []
  | [a] => group4 table a 0 0
  | [a; b] => group4 table a b 0
  | a :: b :: c :: r => group4 table a b c ++ encodeZeroFilled table r
  end.

(** The characters that carry data: the encoding without its padding. *)
Fixpoint encodeBody (table : jsstring) (bs : list Z) : jsstring :=
  match bs with
  | [] => []
  | [a] => firstn 2 (group4 table a 0 0)
  | [a; b] => firstn 3 (group4 table a b 0)
  | a :: b :: c :: r => group4 table a b c ++ encodeBody table r
  end.

(** The number of ['='] that pad the encoding of [n] bytes. *)
Definition padCount (n : nat) : nat :=
  match (n mod 3)%nat with
  | 1%nat => 2%nat
  | 2%nat => 1%nat
  | _ => 0%nat
  end.

(** The padded reference encoding. *)
Definition encodeRef (table : jsstring) (bs : list Z) : jsstring :=
  encodeBody table bs ++ repeat EQ (padCount (List.length bs)).

(** The table a variant selects. *)
Definition tableOf (v : option Base64Variant) : jsstring :=
  match v with Some url => B64_URL | _ => B64_STD end.

(** [bytes.slice(i, j)] on natural indices. *)
Definition sub {A} (l : list A) (i j : nat) : list A :=
  firstn (j - i) (skipn i l).

(** [(a << 18) | (b << 12) | (c << 6) | d] of the decoder. *)
Definition untriple (a b c d : Z) : Z :=
  Z.lor (Z.lor (Z.lor (Z.shiftl a 18) (Z.shiftl b 12)) (Z.shiftl c 6)) d.

(** The value of a character at position 3 or 4 of a group. *)
Definition padValue (lookup : LookupTable) (c : Z) : option Z :=
  if c =? EQ then Some 0 else table_get lookup c.

(** The four values of a group of four characters. *)
Definition valuesOf (lookup : LookupTable) (ca cb cc cd : Z)
  : option (Z * Z * Z * Z) :=
  match table_get lookup ca, table_get lookup cb,
        padValue lookup cc, padValue lookup cd with
  | Some a, Some b, Some c, Some d => Some (a, b, c, d)
  | _, _, _, _ => None
  end.

(** The three bytes of four values. *)
Definition tripleBytes (v : Z * Z * Z * Z) : list Z :=
  let '(a, b, c, d) := v in
  let t := untriple a b c d in
  [Z.land (Z.shiftr t 16) 255; Z.land (Z.shiftr t 8) 255; Z.land t 255].

(** The bytes of all groups of a text whose groups start at index [i], or
    the error of the first group that has a character without a value. *)
Fixpoint decodeGroups (lookup : LookupTable) (rest : jsstring) (i : Z)
  : Result (list Z) :=
  match rest with
  | ca :: cb :: cc :: cd :: rest' =>
      match valuesOf lookup ca cb cc cd with
      | None => Err (InvalidCharacter i)
      | Some v =>
          match decodeGroups lookup rest' (i + 4) with
          | Ok bs => Ok (tripleBytes v ++ bs)
          | Err e => Err e
          end
      end
  | _ => Ok []
  end.

(** The state of the decoding loop after the bytes [w] are written. *)
Definition stateOf (outputLen : nat) (w : list Z) : Z * list Z :=
  (len w, w ++ repeat 0 (outputLen - List.length w)).

(** [t'] is [t] with whitespace characters inserted anywhere. *)
Inductive InsertWs : jsstring -> jsstring -> Prop :=
| InsertWs_nil : InsertWs [] []
| InsertWs_keep c t t' : InsertWs t t' -> InsertWs (c :: t) (c :: t')
| InsertWs_ws w t t' :
    isWhitespace w = true -> InsertWs t t' -> InsertWs t (w :: t').

(** The least [q] with [a <= q * b], for [0 < b]. *)
Definition ceilDiv (a b : Z) : Z := (a + b - 1) / b.

(** The alphabet the decoder selects for a cleaned text. *)
Definition isUrlText (cleaned : jsstring) : bool := testClass2 45 95 cleaned.
Definition isStdText (cleaned : jsstring) : bool := testClass2 43 47 cleaned.
Definition alphOf (cleaned : jsstring) : jsstring :=
  if isUrlText cleaned then B64_URL_ALPH else B64_STD_ALPH.
Definition lookupOf (cleaned : jsstring) : LookupTable :=
  if isUrlText cleaned then B64_URL_LOOKUP else B64_STD_LOOKUP.

(** The length of the output the decoder allocates for a padded text. *)
Definition outputLenOf (padded : jsstring) : Z :=
  (len padded / 4) * 3
  - (if endsWith padded [EQ; EQ] then 2
     else if endsWith padded [EQ] then 1 else 0).

(** The bytes the decoding loop leaves in an output of length [n], given
    the bytes of all groups. *)
Definition outputOf (n : nat) (bs : list Z) : list Z :=
  firstn n bs ++ repeat 0 (n - List.length (firstn n bs)).

(* ================================================================== *)
(** ** env.ts, and the string entry points of encode.ts and decode.ts  *)
(* ================================================================== *)

Inductive UnicodeNormalization := NFC | NFD | NFKC | NFKD.

(** [OutputFormat]: ["string"] and ["bytes"]. *)
Inductive OutputFormat := output_string | output_bytes.

(** What the modules use of the hosting environment: [TextEncoder] and
    [TextDecoder] when they are defined, [Buffer] when [hasBuffer] holds
    (its encoding and its decoding of UTF-8), and [String.prototype.normalize]. *)
Record Environment := mkEnvironment {
  textEncoder : option (jsstring -> list Z);
  textDecoder : option (list Z -> jsstring);
  buffer : option ((jsstring -> list Z) * (list Z -> jsstring));
  normalizeString : UnicodeNormalization -> jsstring -> jsstring
}.

(** What a call throws: an error of [decodeBase64ToBytes], or the error of
    [utf8Encode] or of [utf8Decode]. *)
Inductive Thrown :=
| DecodeFailure (e : DecodeError)
| NoUtf8Encoder  (* "No UTF-8 encoder available in this environment" *)
| NoUtf8Decoder. (* "No UTF-8 decoder available in this environment" *)

Inductive Outcome (A : Type) :=
| Returned (a : A)
| Threw (e : Thrown).
Arguments Returned {A} a.
Arguments Threw {A} e.

(** [utf8Encode(input, normalize)] *)
Definition utf8Encode (env : Environment) (input : jsstring)
    (normalize : option UnicodeNormalization) : Outcome (list Z) :=
  let s :=
    match normalize with
    | Some form => normalizeString env form input
    | None => input
    end in
  match textEncoder env with
  | Some encode => Returned (encode s)
  | None =>
      match buffer env with
      | Some (from, _) => Returned (from s)
      | None => Threw NoUtf8Encoder
      end
  end.

(** [utf8Decode(bytes)] *)
Definition utf8Decode (env : Environment) (bytes : list Z)
  : Outcome jsstring :=
  match textDecoder env with
  | Some decode => Returned (decode bytes)
  | None =>
      match buffer env with
      | Some (_, toString) => Returned (toString bytes)
      | None => Threw NoUtf8Decoder
      end
  end.

(** [encodeBase64(input, options)]; [normalize] is the field of the
    options that [Base64Options] leaves out. *)
Definition encodeBase64 (env : Environment) (input : jsstring)
    (normalize : option UnicodeNormalization) (options : Base64Options)
  : Outcome jsstring :=
  match utf8Encode env input normalize with
  | Returned bytes => Returned (encodeBase64FromBytes bytes options)
  | Threw e => Threw e
  end.

(** [string | Uint8Array] *)
Inductive Decoded :=
| DecodedString (s : jsstring)
| DecodedBytes (b : list Z).

(** [decodeBase64(input, options)]; [output] and [normalize] are the fields
    of the options that [DecodeOptions] leaves out. *)
Definition decodeBase64 (env : Environment) (input : jsstring)
    (output : option OutputFormat) (normalize : option UnicodeNormalization)
    (options : DecodeOptions) : Outcome Decoded :=
  match decodeBase64ToBytes input options with
  | Err e => Threw (DecodeFailure e)
  | Ok bytes =>
      match output with
      | Some output_bytes => Returned (DecodedBytes bytes)
      | _ =>
          match utf8Decode env bytes with
          | Threw e => Threw e
          | Returned text =>
              Returned (DecodedString
                          (match normalize with
                           | Some form => normalizeString env form text
                           | None => text
                           end))
          end
      end
  end.

(* ================================================================== *)
(** ** hook.ts and decode-hook.ts                                      *)
(* ================================================================== *)

(** Each hook is [useMemo(compute, deps)]: below, its callback and its
    dependency array. *)

(** [input ?? ""]; [None] is [null] or [undefined]. *)
Definition safeInput (input : option jsstring) : jsstring :=
  match input with Some s => s | None => [] end.

(** [useBase64]: the dependency array. *)
Definition useBase64_deps (input : option jsstring)
    (normalize : option UnicodeNormalization) (options : Base64Options) :=
  (safeInput input, variant options, padding options, wrap options,
   normalize).

(** [useBase64]: the callback. *)
Definition useBase64_compute (env : Environment) (input : option jsstring)
    (normalize : option UnicodeNormalization) (options : Base64Options)
  : Outcome jsstring :=
  encodeBase64 env (safeInput input) normalize options.

(** [options?.output === "bytes" ? new Uint8Array(0) : ""] *)
Definition emptyResult (output : option OutputFormat) : Decoded :=
  match output with
  | Some output_bytes => DecodedBytes []
  | _ => DecodedString []
  end.

(** [useBase64Decode] and [useBase64DecodeSafe]: the dependency array. *)
Definition useBase64Decode_deps (input : option jsstring)
    (output : option OutputFormat) (normalize : option UnicodeNormalization)
    (options : DecodeOptions) :=
  (safeInput input, output, normalize).

(** [useBase64Decode]: the callback. *)
Definition useBase64Decode_compute (env : Environment)
    (input : option jsstring) (output : option OutputFormat)
    (normalize : option UnicodeNormalization) (options : DecodeOptions)
  : Decoded :=
  match decodeBase64 env (safeInput input) output normalize options with
  | Returned d => d
  | Threw _ => emptyResult output
  end.

(** [useBase64DecodeBytes]: the callback; its dependency array is
    [[safeInput]]. *)
Definition useBase64DecodeBytes_compute (input : option jsstring) : list Z :=
  match decodeBase64ToBytes (safeInput input) strictMode with
  | Ok bytes => bytes
  | Err _ => []
  end.

(** The object [useBase64DecodeSafe] returns; [error] is the thrown error,
    which stands for its message. *)
Record SafeResult := mkSafeResult {
  data : Decoded;
  error : option Thrown;
  isValid : bool
}.

(** [useBase64DecodeSafe]: the callback. *)
Definition useBase64DecodeSafe_compute (env : Environment)
    (input : option jsstring) (output : option OutputFormat)
    (normalize : option UnicodeNormalization) (options : DecodeOptions)
  : SafeResult :=
  match safeInput input with
  | [] => mkSafeResult (emptyResult output) None true
  | _ =>
      match decodeBase64 env (safeInput input) output normalize options with
      | Returned d => mkSafeResult d None true
      | Threw e => mkSafeResult (emptyResult output) (Some e) false
      end
  end.

(* ================================================================== *)
(** ** image.ts: the functions without a promise and without a DOM     *)
(* ================================================================== *)

(** [ImageOutputFormat]: ["dataUrl"] and ["base64"]. *)
Inductive ImageOutputFormat := format_dataUrl | format_base64.

Definition COMMA : Z := 44.

(** [s.substring(start)] *)
Definition substringFrom (s : jsstring) (start : Z) : jsstring :=
  skipn (Z.to_nat (Z.min (Z.max start 0) (len s))) s.

(** [imageDataToBase64(imageData, mimeType, options)]; an absent
    [mimeType] is ["image/png"]. *)
Definition imageDataToBase64 (imageData : list Z)
    (mimeType : option jsstring) (format : option ImageOutputFormat)
  : jsstring :=
  let mimeType :=
    match mimeType with Some m => m | None => str "image/png" end in
  let base64 := encodeBase64FromBytes imageData noOptions in
  match format with
  | Some format_base64 => base64
  | _ => str "data:" ++ mimeType ++ str ";base64," ++ base64
  end.

(** [canvasToBase64(canvas, options)]; of the canvas only its method
    [toDataURL] is used, and [Quality] is the type of the quality. *)
Definition canvasToBase64 {Quality : Type}
    (toDataURL : jsstring -> option Quality -> jsstring)
    (type : option jsstring) (quality : option Quality)
    (format : option ImageOutputFormat) : jsstring :=
  let type :=
    match type with
    | Some (c :: t) => c :: t
    | _ => str "image/png"
    end in
  let dataUrl := toDataURL type quality in
  match format with
  | Some format_base64 =>
      let base64Index := indexOf dataUrl COMMA + 1 in
      substringFrom dataUrl base64Index
  | _ => dataUrl
  end.

(* ================================================================== *)
(** ** More reference definitions                                      *)
(* ================================================================== *)

(** [s.replace(/\+/g, "-").replace(/\//g, "_")] on one character. *)
Definition toUrlChar (c : Z) : Z :=
  if c =? 43 then 45 else if c =? 47 then 95 else c.

(** The variant of the alphabet the decoder detects. *)
Definition variantOf (cleaned : jsstring) : Base64Variant :=
  if isUrlText cleaned then url else standard.

(** The text the decoding loop runs on. *)
Definition paddedOf (cleaned : jsstring) : jsstring :=
  if len cleaned mod 4 =? 0 then cleaned
  else cleaned ++ repeatChar EQ (4 - len cleaned mod 4).

(** The test of the strict mode on a text of whole groups: a ['='] is
    there and what starts at the first one is neither ["="] nor ["=="]. *)
Definition paddingMisplaced (padded : jsstring) : bool :=
  negb (indexOf padded EQ =? -1)
  && negb (isPaddingTail (sliceFrom padded (indexOf padded EQ))).

(* ================================================================== *)
(** ** Lists, indices and bits                                         *)
(* ================================================================== *)

Ltac zdm := Z.div_mod_to_equations; lia.

Lemma len_nonneg {A} (l : list A) : 0 <= len l.
Proof. unfold len. lia. Qed.

Lemma len_app {A} (l1 l2 : list A) : len (l1 ++ l2) = len l1 + len l2.
Proof. unfold len. rewrite length_app. lia. Qed.

Lemma len_cons {A} (x : A) (l : list A) : len (x :: l) = 1 + len l.
Proof. unfold len. simpl List.length. lia. Qed.

Lemma len_nil {A} : len (@nil A) = 0.
Proof. reflexivity. Qed.

Lemma at_app_r {A} (pre rest : list A) (k : Z) :
  0 <= k -> at_ (pre ++ rest) (len pre + k) = at_ rest k.
Proof.
  intros Hk. unfold at_, len.
  destruct (Z.ltb_spec (Z.of_nat (List.length pre) + k) 0); [lia|].
  destruct (Z.ltb_spec k 0); [lia|].
  rewrite nth_error_app2 by lia. f_equal. lia.
Qed.

Lemma at_app_0 {A} (pre rest : list A) :
  at_ (pre ++ rest) (len pre) = at_ rest 0.
Proof. rewrite <- (at_app_r pre rest 0) by lia. f_equal. lia. Qed.

Lemma at_in_range {A} (l : list A) (i : Z) (d : A) :
  0 <= i < len l -> at_ l i = Some (nth (Z.to_nat i) l d).
Proof.
  intros Hi. unfold at_, len in *.
  destruct (Z.ltb_spec i 0); [lia|].
  apply nth_error_nth'. lia.
Qed.

Lemma at_out_of_range {A} (l : list A) (i : Z) :
  len l <= i -> at_ l i = None.
Proof.
  intros Hi. unfold at_, len in *.
  destruct (Z.ltb_spec i 0); [reflexivity|].
  apply nth_error_None. lia.
Qed.

(** A bitwise or of a multiple of [2^k] and a number below [2^k] is their
    sum. *)
Lemma lor_add_disjoint x y k m :
  0 <= k -> m = 2 ^ k -> x mod m = 0 -> 0 <= y < m -> Z.lor x y = x + y.
Proof.
  intros Hk -> Hx Hy.
  assert (Z.land x y = 0) as Hdisj.
  { apply Z.bits_inj'. intros n Hn. rewrite Z.land_spec, Z.bits_0.
    destruct (Z_lt_dec n k).
    - rewrite <- (Z.mod_pow2_bits_low x k n) by lia.
      rewrite Hx, Z.bits_0. reflexivity.
    - rewrite <- (Z.mod_small y (2 ^ k)) by assumption.
      rewrite Z.mod_pow2_bits_high by lia. apply andb_false_r. }
  pose proof (Z.add_lor_land x y) as H. lia.
Qed.

Ltac side := first [reflexivity | lia | zdm].

Lemma triple3_val a b c :
  0 <= a -> 0 <= b < 256 -> 0 <= c < 256 ->
  triple3 a b c = a * 65536 + b * 256 + c.
Proof.
  intros. unfold triple3. rewrite !Z.shiftl_mul_pow2 by lia.
  change (2 ^ 16) with 65536. change (2 ^ 8) with 256.
  rewrite (lor_add_disjoint (a * 65536) (b * 256) 16 65536) by side.
  rewrite (lor_add_disjoint _ c 8 256) by side. lia.
Qed.

(** No operand of a bit operator of the encoder leaves the 32-bit range. *)
Lemma triple_bound a b c :
  is_byte a -> is_byte b -> is_byte c -> 0 <= triple3 a b c < 2 ^ 24.
Proof.
  unfold is_byte. intros. rewrite triple3_val by lia.
  change (2 ^ 24) with 16777216. lia.
Qed.

Lemma untriple_val a b c d :
  0 <= a -> 0 <= b < 64 -> 0 <= c < 64 -> 0 <= d < 64 ->
  untriple a b c d = a * 262144 + b * 4096 + c * 64 + d.
Proof.
  intros. unfold untriple. rewrite !Z.shiftl_mul_pow2 by lia.
  change (2 ^ 18) with 262144. change (2 ^ 12) with 4096.
  change (2 ^ 6) with 64.
  rewrite (lor_add_disjoint (a * 262144) (b * 4096) 18 262144) by side.
  rewrite (lor_add_disjoint _ (c * 64) 12 4096) by side.
  rewrite (lor_add_disjoint _ d 6 64) by side. lia.
Qed.

Lemma sextet_val t k : 0 <= k -> sextet t k = (t / 2 ^ k) mod 64.
Proof.
  intros. unfold sextet. rewrite Z.shiftr_div_pow2 by lia.
  change 63 with (Z.ones 6). rewrite Z.land_ones by lia. reflexivity.
Qed.

Lemma sextet_range t k : 0 <= k -> 0 <= sextet t k < 64.
Proof. intros. rewrite sextet_val by lia. apply Z.mod_pos_bound. lia. Qed.

Lemma sextet_0 t : Z.land t 63 = sextet t 0.
Proof. unfold sextet. rewrite Z.shiftr_0_r. reflexivity. Qed.

Lemma byte_val t k :
  0 <= k -> Z.land (Z.shiftr t k) 255 = (t / 2 ^ k) mod 256.
Proof.
  intros. rewrite Z.shiftr_div_pow2 by lia.
  change 255 with (Z.ones 8). rewrite Z.land_ones by lia. reflexivity.
Qed.

(** The decoder rebuilds the number the encoder split. *)
Lemma untriple_sextets t :
  0 <= t < 16777216 ->
  untriple (sextet t 18) (sextet t 12) (sextet t 6) (sextet t 0) = t.
Proof.
  intros. rewrite untriple_val by (try apply sextet_range; try lia;
                                    pose proof (sextet_range t 18); lia).
  rewrite !sextet_val by lia.
  change (2 ^ 18) with 262144. change (2 ^ 12) with 4096.
  change (2 ^ 6) with 64. change (2 ^ 0) with 1. zdm.
Qed.

Lemma bytes_of_triple a b c :
  is_byte a -> is_byte b -> is_byte c ->
  Z.land (Z.shiftr (triple3 a b c) 16) 255 = a
  /\ Z.land (Z.shiftr (triple3 a b c) 8) 255 = b
  /\ Z.land (triple3 a b c) 255 = c.
Proof.
  unfold is_byte. intros Ha Hb Hc.
  rewrite <- (Z.shiftr_0_r (triple3 a b c)) at 3.
  rewrite !byte_val by lia. rewrite triple3_val by lia.
  change (2 ^ 16) with 65536. change (2 ^ 8) with 256. change (2 ^ 0) with 1.
  repeat split; zdm.
Qed.

(** The low fields of a short tail are empty. *)
Lemma sextet_tail1 a :
  is_byte a ->
  sextet (triple3 a 0 0) 6 = 0 /\ sextet (triple3 a 0 0) 0 = 0.
Proof.
  unfold is_byte. intros. rewrite !sextet_val, triple3_val by lia.
  change (2 ^ 6) with 64. change (2 ^ 0) with 1. split; zdm.
Qed.

Lemma sextet_tail2 a b :
  is_byte a -> is_byte b -> sextet (triple3 a b 0) 0 = 0.
Proof.
  unfold is_byte. intros. rewrite !sextet_val, triple3_val by lia.
  change (2 ^ 0) with 1. zdm.
Qed.

(** Induction over a list three elements at a time. *)
Lemma list_ind3 {A} (P : list A -> Prop) :
  P [] -> (forall a, P [a]) -> (forall a b, P [a; b]) ->
  (forall a b c l, P l -> P (a :: b :: c :: l)) ->
  forall l, P l.
Proof.
  intros H0 H1 H2 H3. fix IH 1.
  intros [|a [|b [|c l]]];
    [exact H0 | apply H1 | apply H2 | apply H3, IH].
Qed.

Lemma triples_ind {A} (P : list A -> Prop) :
  P [] -> (forall a b c l, P l -> P (a :: b :: c :: l)) ->
  forall l, (List.length l mod 3 = 0)%nat -> P l.
Proof.
  intros H0 H3 l. induction l as [|a|a b|a b c l IH] using list_ind3;
    intros Hl; try discriminate; auto.
  apply H3, IH. simpl List.length in Hl.
  replace (S (S (S (List.length l)))) with (List.length l + 1 * 3)%nat in Hl
    by lia.
  rewrite Nat.Div0.mod_add in Hl. exact Hl.
Qed.

Lemma sub_split {A} (l : list A) (i j : nat) :
  (i <= j <= List.length l)%nat ->
  l = firstn i l ++ sub l i j ++ skipn j l.
Proof.
  intros H. unfold sub.
  rewrite <- (firstn_skipn i l) at 1. f_equal.
  rewrite <- (firstn_skipn (j - i) (skipn i l)) at 1. f_equal.
  rewrite skipn_skipn. f_equal. lia.
Qed.

Lemma sub_length {A} (l : list A) (i j : nat) :
  (i <= j <= List.length l)%nat -> List.length (sub l i j) = (j - i)%nat.
Proof.
  intros H. unfold sub. rewrite length_firstn, length_skipn. lia.
Qed.

Lemma firstn_plus {A} (a b : nat) (l : list A) :
  firstn (a + b) l = firstn a l ++ firstn b (skipn a l).
Proof.
  revert l. induction a as [|a IH]; intros [|x l]; simpl;
    rewrite ?firstn_nil; auto.
  rewrite IH. reflexivity.
Qed.

Lemma sub_app {A} (l : list A) (i j k : nat) :
  (i <= j <= k)%nat -> sub l i j ++ sub l j k = sub l i k.
Proof.
  intros H. unfold sub.
  replace (k - i)%nat with ((j - i) + (k - j))%nat by lia.
  rewrite firstn_plus, skipn_skipn.
  replace (j - i + i)%nat with j by lia. reflexivity.
Qed.

Lemma sub_empty {A} (l : list A) (i : nat) : sub l i i = [].
Proof. unfold sub. rewrite Nat.sub_diag. reflexivity. Qed.

Lemma sub_0 {A} (l : list A) (j : nat) : sub l 0 j = firstn j l.
Proof. unfold sub. rewrite Nat.sub_0_r. reflexivity. Qed.

(* ================================================================== *)
(** ** The encoder computes the reference encoding                     *)
(* ================================================================== *)

Section Encoder.

Variable table : jsstring.
Hypothesis table_len : len table = 64.

Lemma strOf_table s :
  0 <= s < 64 -> strOf (at_ table s) = [tchar table s].
Proof.
  intros Hs. rewrite (at_in_range table s 0) by lia. reflexivity.
Qed.

Lemma tableChar_sextet t k :
  0 <= k -> tableChar table t k = [tchar table (sextet t k)].
Proof.
  intros Hk. unfold tableChar. fold (sextet t k).
  apply strOf_table, sextet_range, Hk.
Qed.

Lemma chunkGroup_at pre a b c r :
  chunkGroup (pre ++ a :: b :: c :: r) table (len pre) = group4 table a b c.
Proof.
  unfold chunkGroup.
  rewrite at_app_0, !at_app_r by lia.
  cbn [at_ num Z.ltb Z.compare nth_error Z.to_nat Pos.to_nat Pos.iter_op
       Nat.add].
  rewrite !tableChar_sextet by lia. reflexivity.
Qed.

Lemma encodeFull_app A T :
  (List.length A mod 3 = 0)%nat ->
  encodeFull table (A ++ T) = encodeFull table A ++ encodeFull table T.
Proof.
  intros HA. pattern A. apply triples_ind; [reflexivity| |exact HA].
  clear A HA. intros a b c A IH.
  cbn [app encodeFull]. rewrite IH, app_assoc. reflexivity.
Qed.

Lemma encodeBody_app A T :
  (List.length A mod 3 = 0)%nat ->
  encodeBody table (A ++ T) = encodeFull table A ++ encodeBody table T.
Proof.
  intros HA. pattern A. apply triples_ind; [reflexivity| |exact HA].
  clear A HA. intros a b c A IH.
  cbn [app encodeFull encodeBody]. rewrite IH, app_assoc. reflexivity.
Qed.

Lemma encodeZeroFilled_app A T :
  (List.length A mod 3 = 0)%nat ->
  encodeZeroFilled table (A ++ T)
  = encodeFull table A ++ encodeZeroFilled table T.
Proof.
  intros HA. pattern A. apply triples_ind; [reflexivity| |exact HA].
  clear A HA. intros a b c A IH.
  cbn [app encodeFull encodeZeroFilled]. rewrite IH, app_assoc. reflexivity.
Qed.

Lemma encodeChunk_loop_spec (n : nat) :
  forall pre grp rest out,
    List.length grp = (3 * n)%nat ->
    encodeChunk_loop (pre ++ grp ++ rest) (len pre + len grp) table
      (len pre) out
    = out ++ encodeFull table grp.
Proof.
  induction n as [|n IH]; intros pre grp rest out Hlen.
  - destruct grp; [|discriminate]. rewrite encodeChunk_loop_equation_1.
    destruct (Z_lt_dec _ _) as [Hlt|Hge];
      [exfalso; rewrite len_nil in Hlt; lia|].
    cbn. rewrite app_nil_r. reflexivity.
  - destruct grp as [|a [|b [|c grp]]]; try (simpl in Hlen; lia).
    rewrite encodeChunk_loop_equation_1.
    destruct (Z_lt_dec _ _) as [Hlt|Hge];
      [|exfalso; rewrite !len_cons in Hge; pose proof (len_nonneg grp); lia].
    cbn [encodeChunk_loop_unfold_clause_1 app].
    rewrite chunkGroup_at.
    replace (pre ++ a :: b :: c :: grp ++ rest)
      with ((pre ++ [a; b; c]) ++ grp ++ rest)
      by (rewrite <- app_assoc; reflexivity).
    replace (len pre + 3) with (len (pre ++ [a; b; c]))
      by (rewrite len_app; reflexivity).
    replace (len pre + len (a :: b :: c :: grp))
      with (len (pre ++ [a; b; c]) + len grp)
      by (rewrite len_app, !len_cons, len_nil; lia).
    rewrite IH by (simpl in Hlen; lia).
    cbn [encodeFull]. rewrite <- app_assoc. reflexivity.
Qed.

(** [encodeChunk] on a range of whole groups. *)
Lemma encodeChunk_spec bytes (i j : nat) :
  (i <= j <= List.length bytes)%nat -> ((j - i) mod 3 = 0)%nat ->
  encodeChunk bytes (Z.of_nat i) (Z.of_nat j) table
  = encodeFull table (sub bytes i j).
Proof.
  intros Hij Hmod. unfold encodeChunk.
  pose proof (sub_split bytes i j Hij) as Hs.
  pose proof (sub_length bytes i j Hij) as Hl.
  assert (List.length (firstn i bytes) = i) as Hi
    by (rewrite length_firstn; lia).
  rewrite Hs at 1.
  replace (Z.of_nat i) with (len (firstn i bytes)) by (unfold len; lia).
  replace (Z.of_nat j) with (len (firstn i bytes) + len (sub bytes i j))
    by (unfold len; lia).
  rewrite (encodeChunk_loop_spec ((j - i) / 3)); [reflexivity|].
  rewrite Hl. pose proof (Nat.div_mod_eq (j - i) 3). lia.
Qed.

(** The batches of [chunkSize] bytes concatenate to the encoding of all
    whole groups. *)
Lemma encodeGroups_loop_spec bytes i output :
  0 <= i <= len bytes - len bytes mod 3 -> i mod 3 = 0 ->
  encodeGroups_loop bytes table i output
  = (len bytes - len bytes mod 3,
     output ++ encodeFull table
                 (sub bytes (Z.to_nat i)
                    (Z.to_nat (len bytes - len bytes mod 3)))).
Proof.
  funelim (encodeGroups_loop bytes table i output); intros Hi Hmod.
  - change (chunkSize - chunkSize mod 3) with 32766 in *.
    change (i + chunkSize - chunkSize mod 3) with (i + chunkSize - 2) in *.
    unfold chunkSize in *.
    set (L := len bytes - len bytes mod 3) in *.
    set (e := Z.min (i + 32768 - 2) L) in *.
    assert (L mod 3 = 0) as HL by (subst L; zdm).
    assert (i < e <= L /\ e mod 3 = 0) as [He He3].
    { subst e. destruct (Z.min_spec (i + 32768 - 2) L) as [[? ->]|[? ->]].
      - split; [|zdm]. subst L. zdm.
      - split; [|assumption]. subst L. zdm. }
    match goal with IH : _ -> _ -> encodeGroups_loop _ _ _ _ = _ |- _ =>
      rewrite IH by (assumption || lia) end.
    f_equal. rewrite <- app_assoc. f_equal.
    replace i with (Z.of_nat (Z.to_nat i)) at 1 by lia.
    replace e with (Z.of_nat (Z.to_nat e)) at 1 by lia.
    assert (L <= len bytes) by (subst L; zdm).
    rewrite encodeChunk_spec.
    + rewrite <- encodeFull_app.
      * rewrite sub_app by lia. reflexivity.
      * rewrite sub_length by (unfold len in *; lia).
        apply Nat2Z.inj. rewrite Nat2Z.inj_mod.
        rewrite Nat2Z.inj_sub by lia. rewrite !Z2Nat.id by lia.
        change (Z.of_nat 3) with 3. change (Z.of_nat 0) with 0. zdm.
    + unfold len in *. lia.
    + apply Nat2Z.inj. rewrite Nat2Z.inj_mod.
      rewrite Nat2Z.inj_sub by lia. rewrite !Z2Nat.id by lia.
      change (Z.of_nat 3) with 3. change (Z.of_nat 0) with 0. zdm.
  - assert (i = len bytes - len bytes mod 3) as <- by zdm.
    rewrite sub_empty, app_nil_r. reflexivity.
Qed.

Lemma padCount_add (n m : nat) :
  (n mod 3 = 0)%nat -> padCount (n + m) = padCount m.
Proof.
  intros Hn. unfold padCount.
  rewrite Nat.Div0.add_mod, Hn, Nat.add_0_l, Nat.Div0.mod_mod. reflexivity.
Qed.

Lemma encodeRef_app A T :
  (List.length A mod 3 = 0)%nat ->
  encodeRef table (A ++ T) = encodeFull table A ++ encodeRef table T.
Proof.
  intros HA. unfold encodeRef.
  rewrite encodeBody_app, length_app, padCount_add, app_assoc by assumption.
  reflexivity.
Qed.

(** The bytes split into the whole groups and a tail of at most two. *)
Lemma whole_groups_split (bytes : list Z) :
  let L := Z.to_nat (len bytes - len bytes mod 3) in
  bytes = firstn L bytes ++ skipn L bytes
  /\ (List.length (firstn L bytes) mod 3 = 0)%nat
  /\ len (firstn L bytes) = len bytes - len bytes mod 3
  /\ len (skipn L bytes) = len bytes mod 3.
Proof.
  intros L. subst L. unfold len.
  set (n := List.length bytes).
  assert (Z.to_nat (Z.of_nat n - Z.of_nat n mod 3) = (n - n mod 3)%nat) as ->.
  { change 3 with (Z.of_nat 3). rewrite <- Nat2Z.inj_mod.
    pose proof (Nat.Div0.mod_le n 3). lia. }
  pose proof (Nat.Div0.mod_le n 3) as Hle.
  rewrite length_firstn, length_skipn. fold n.
  rewrite Nat.min_l by lia.
  repeat split.
  - symmetry. apply firstn_skipn.
  - pose proof (Nat.div_mod_eq n 3) as E.
    replace (n - n mod 3)%nat with (0 + (n / 3) * 3)%nat by lia.
    rewrite Nat.Div0.mod_add. reflexivity.
  - change 3 with (Z.of_nat 3). rewrite <- Nat2Z.inj_mod. lia.
  - change 3 with (Z.of_nat 3). rewrite <- Nat2Z.inj_mod. lia.
Qed.

End Encoder.

Lemma B64_STD_len : len B64_STD = 64.
Proof. reflexivity. Qed.

Lemma B64_URL_len : len B64_URL = 64.
Proof. reflexivity. Qed.

Lemma tableOf_len v : len (tableOf v) = 64.
Proof. destruct v as [[|]|]; reflexivity. Qed.

(** What [encodeBase64FromBytes] returns before the [padding] and [wrap]
    options apply is the padded reference encoding. *)
Lemma encode_unwrapped bytes opts :
  wrap opts = None ->
  encodeBase64FromBytes bytes opts
  = match padding opts with
    | Some strip => stripTrailingEq (encodeRef (tableOf (variant opts)) bytes)
    | _ => encodeRef (tableOf (variant opts)) bytes
    end.
Proof.
  intros Hwrap. unfold encodeBase64FromBytes. rewrite Hwrap.
  fold (tableOf (variant opts)).
  pose proof (tableOf_len (variant opts)) as Htl.
  set (table := tableOf (variant opts)) in *.
  rewrite (encodeGroups_loop_spec table Htl)
    by (try reflexivity; pose proof (len_nonneg bytes); zdm).
  change (Z.to_nat 0) with 0%nat. rewrite sub_0. cbn [app].
  destruct (whole_groups_split bytes) as (Hsplit & HA & HlenA & HlenT).
  set (A := firstn _ bytes) in *. set (T := skipn _ bytes) in *.
  assert (encodeRef table bytes
          = encodeFull table A ++ encodeRef table T) as Href
    by (rewrite Hsplit at 1; apply encodeRef_app; assumption).
  rewrite <- HlenA.
  replace (len bytes - len A) with (len T) by lia.
  assert (at_ bytes (len A) = at_ T 0) as Hat0
    by (rewrite Hsplit at 1; apply at_app_0).
  assert (at_ bytes (len A + 1) = at_ T 1) as Hat1
    by (rewrite Hsplit at 1; apply at_app_r; lia).
  rewrite Hat0, Hat1, Href.
  assert (len T < 3) as HT3 by (rewrite HlenT; zdm).
  destruct T as [|a [|b [|c T]]];
    [ | | | exfalso; rewrite !len_cons in HT3; pose proof (len_nonneg T); lia ].
  - cbn. rewrite app_nil_r. reflexivity.
  - cbn [len List.length Z.of_nat Z.ltb Z.eqb Z.compare Pos.of_succ_nat
         Pos.compare Pos.compare_cont Pos.eqb Pos.succ at_ nth_error
         Z.to_nat num].
    rewrite !(tableChar_sextet table Htl) by lia.
    unfold encodeRef. cbn [encodeBody group4 firstn List.length padCount
                           Nat.modulo Nat.divmod fst snd Nat.sub repeat app].
    unfold triple3. rewrite Z.shiftl_0_l, !Z.lor_0_r, <- !app_assoc.
    reflexivity.
  - cbn [len List.length Z.of_nat Z.ltb Z.eqb Z.compare Pos.of_succ_nat
         Pos.compare Pos.compare_cont Pos.eqb Pos.succ at_ nth_error Z.to_nat
         Pos.to_nat Pos.iter_op Nat.add num].
    rewrite !(tableChar_sextet table Htl) by lia.
    unfold encodeRef. cbn [encodeBody group4 firstn List.length padCount
                           Nat.modulo Nat.divmod fst snd Nat.sub repeat app].
    unfold triple3. rewrite !Z.lor_0_r, <- !app_assoc.
    reflexivity.
Qed.

(* ================================================================== *)
(** ** The re-encoder of the decoder computes the reference encoding   *)
(* ================================================================== *)

Section RawEncoder.

Variable alphabet : jsstring.
Hypothesis alphabet_len : len alphabet = 64.

Lemma rawGroup_at pre rest :
  rawGroup (pre ++ rest) alphabet (len pre)
  = group4 alphabet (orZero (at_ rest 0)) (orZero (at_ rest 1))
      (orZero (at_ rest 2)).
Proof.
  unfold rawGroup. rewrite at_app_0, !at_app_r by lia.
  fold (triple3 (orZero (at_ rest 0)) (orZero (at_ rest 1))
          (orZero (at_ rest 2))).
  set (t := triple3 _ _ _). fold (sextet t 18).
  fold (sextet t 12). fold (sextet t 6). rewrite (sextet_0 t).
  rewrite !(strOf_table alphabet alphabet_len) by (apply sextet_range; lia).
  reflexivity.
Qed.

Lemma encodeRaw_loop_exit bytes i out :
  len bytes <= i -> encodeRaw_loop bytes alphabet i out = out.
Proof.
  intros Hi. rewrite encodeRaw_loop_equation_1.
  destruct (Z_lt_dec _ _); [exfalso; lia | reflexivity].
Qed.

Lemma encodeRaw_loop_step bytes i out :
  i < len bytes ->
  encodeRaw_loop bytes alphabet i out
  = encodeRaw_loop bytes alphabet (i + 3) (out ++ rawGroup bytes alphabet i).
Proof.
  intros Hi. rewrite encodeRaw_loop_equation_1.
  destruct (Z_lt_dec _ _); [reflexivity | exfalso; lia].
Qed.

Lemma encodeRaw_loop_spec rest :
  forall pre out,
    encodeRaw_loop (pre ++ rest) alphabet (len pre) out
    = out ++ encodeZeroFilled alphabet rest.
Proof.
  induction rest as [|a|a b|a b c rest IH] using list_ind3; intros pre out.
  - rewrite encodeRaw_loop_exit by (rewrite len_app, len_nil; lia).
    rewrite app_nil_r. reflexivity.
  - rewrite encodeRaw_loop_step by (rewrite len_app, len_cons, len_nil; lia).
    rewrite encodeRaw_loop_exit by (rewrite len_app, len_cons, len_nil; lia).
    rewrite rawGroup_at. reflexivity.
  - rewrite encodeRaw_loop_step
      by (rewrite len_app, !len_cons, len_nil; lia).
    rewrite encodeRaw_loop_exit
      by (rewrite len_app, !len_cons, len_nil; lia).
    rewrite rawGroup_at. reflexivity.
  - rewrite encodeRaw_loop_step
      by (rewrite len_app, !len_cons; pose proof (len_nonneg rest); lia).
    rewrite rawGroup_at.
    replace (pre ++ a :: b :: c :: rest) with ((pre ++ [a; b; c]) ++ rest)
      by (rewrite <- app_assoc; reflexivity).
    replace (len pre + 3) with (len (pre ++ [a; b; c]))
      by (rewrite len_app; reflexivity).
    rewrite IH, <- app_assoc. reflexivity.
Qed.

Lemma slice_0_neg {A} (s : list A) (k : Z) :
  0 < k <= len s ->
  slice s 0 (- k) = firstn (List.length s - Z.to_nat k) s.
Proof.
  intros Hk. unfold slice, clampIndex.
  destruct (Z.ltb_spec 0 0); [lia|].
  destruct (Z.ltb_spec (- k) 0); [|lia].
  rewrite Z.min_l by lia. rewrite Z.max_l by lia.
  cbn [Z.to_nat skipn]. f_equal. unfold len in *. lia.
Qed.

Lemma slice_drop_last {A} (X Y Z_ : list A) (k : Z) :
  k = len Z_ -> 0 < k ->
  slice (X ++ Y ++ Z_) 0 (- k) = X ++ Y.
Proof.
  intros -> Hk.
  rewrite slice_0_neg
    by (rewrite !len_app; pose proof (len_nonneg X);
        pose proof (len_nonneg Y); lia).
  rewrite app_assoc.
  replace (List.length ((X ++ Y) ++ Z_) - Z.to_nat (len Z_))%nat
    with (List.length (X ++ Y) + 0)%nat
    by (rewrite (length_app (X ++ Y)); unfold len; lia).
  rewrite firstn_app_2. cbn [firstn]. apply app_nil_r.
Qed.

Lemma slice_drop_2 {A} (X : list A) c0 c1 c2 c3 :
  slice (X ++ [c0; c1; c2; c3]) 0 (-2) = X ++ [c0; c1].
Proof. apply (slice_drop_last X [c0; c1] [c2; c3] 2); reflexivity || lia. Qed.

Lemma slice_drop_1 {A} (X : list A) c0 c1 c2 c3 :
  slice (X ++ [c0; c1; c2; c3]) 0 (-1) = X ++ [c0; c1; c2].
Proof. apply (slice_drop_last X [c0; c1; c2] [c3] 1); reflexivity || lia. Qed.

(** [encodeBytesToBase64Raw] is the padded reference encoding. *)
Lemma encodeBytesToBase64Raw_spec bytes :
  encodeBytesToBase64Raw bytes alphabet = encodeRef alphabet bytes.
Proof.
  unfold encodeBytesToBase64Raw.
  pose proof (encodeRaw_loop_spec bytes [] []) as Hloop.
  cbn [app] in Hloop. change (len []) with 0 in Hloop. rewrite Hloop.
  clear Hloop.
  destruct (whole_groups_split bytes) as (Hsplit & HA & HlenA & HlenT).
  set (A := firstn _ bytes) in *. set (T := skipn _ bytes) in *.
  rewrite <- HlenT. rewrite Hsplit.
  rewrite (encodeRef_app alphabet), encodeZeroFilled_app by assumption.
  assert (len T < 3) as HT3 by (rewrite HlenT; zdm).
  destruct T as [|a [|b [|c T]]];
    [ | | | exfalso; rewrite !len_cons in HT3; pose proof (len_nonneg T); lia ].
  - reflexivity.
  - change (len [a] =? 1) with true. cbv iota.
    unfold encodeRef. cbn [encodeZeroFilled encodeBody group4 firstn].
    unfold group4. rewrite slice_drop_2.
    rewrite <- app_assoc. reflexivity.
  - change (len [a; b] =? 1) with false. change (len [a; b] =? 2) with true.
    cbv iota.
    unfold encodeRef. cbn [encodeZeroFilled encodeBody group4 firstn].
    unfold group4. rewrite slice_drop_1.
    rewrite <- app_assoc. reflexivity.
Qed.

End RawEncoder.

(* ================================================================== *)
(** ** The characters of an encoding                                   *)
(* ================================================================== *)

Lemma tchar_In table s :
  len table = 64 -> 0 <= s < 64 -> In (tchar table s) table.
Proof.
  intros Hl Hs. unfold tchar. apply nth_In. unfold len in Hl. lia.
Qed.

Lemma group4_chars table a b c :
  len table = 64 -> Forall (fun x => In x table) (group4 table a b c).
Proof.
  intros Hl. unfold group4.
  repeat constructor; apply tchar_In; auto; apply sextet_range; lia.
Qed.

Lemma Forall_firstn {A} (P : A -> Prop) n l :
  Forall P l -> Forall P (firstn n l).
Proof.
  intros H. rewrite <- (firstn_skipn n l) in H.
  apply Forall_app in H. tauto.
Qed.

Lemma encodeBody_chars table bs :
  len table = 64 -> Forall (fun x => In x table) (encodeBody table bs).
Proof.
  intros Hl. induction bs as [|a|a b|a b c bs IH] using list_ind3;
    cbn [encodeBody].
  - constructor.
  - apply Forall_firstn, group4_chars, Hl.
  - apply Forall_firstn, group4_chars, Hl.
  - apply Forall_app. split; [apply group4_chars, Hl | exact IH].
Qed.

(** A property of every character of a table holds of every character of
    the body of an encoding with it. *)
Lemma encodeBody_forall table (P : Z -> bool) bs :
  len table = 64 -> forallb P table = true ->
  Forall (fun x => P x = true) (encodeBody table bs).
Proof.
  intros Hl HP. eapply Forall_impl; [|apply encodeBody_chars, Hl].
  intros x Hx. rewrite forallb_forall in HP. auto.
Qed.

Lemma tableOf_no_EQ v : forallb (fun c => negb (c =? EQ)) (tableOf v) = true.
Proof. destruct v as [[|]|]; reflexivity. Qed.

Lemma tableOf_no_ws v :
  forallb (fun c => negb (isWhitespace c)) (tableOf v) = true.
Proof. destruct v as [[|]|]; reflexivity. Qed.

Lemma encodeBody_no_EQ v bs :
  Forall (fun x => x <> EQ) (encodeBody (tableOf v) bs).
Proof.
  eapply Forall_impl;
    [|apply (encodeBody_forall _ _ bs (tableOf_len v) (tableOf_no_EQ v))].
  cbv beta. intros x Hx. apply negb_true_iff, Z.eqb_neq in Hx. exact Hx.
Qed.

Lemma dropWhileEq_repeat k l : dropWhileEq (repeat EQ k ++ l) = dropWhileEq l.
Proof. induction k as [|k IH]; [reflexivity|exact IH]. Qed.

Lemma dropWhileEq_id l :
  Forall (fun x => x <> EQ) l -> dropWhileEq l = l.
Proof.
  intros [|x l' Hx _]; [reflexivity|]. cbn.
  destruct (Z.eqb_spec x 61); [contradiction|reflexivity].
Qed.

Lemma rev_repeat {A} (x : A) k : rev (repeat x k) = repeat x k.
Proof.
  induction k as [|k IH]; [reflexivity|].
  cbn [repeat rev]. rewrite IH. symmetry. apply repeat_cons.
Qed.

(** Stripping the padding of a text whose body has no ['=']. *)
Lemma stripTrailingEq_body body k :
  Forall (fun x => x <> EQ) body ->
  stripTrailingEq (body ++ repeat EQ k) = body.
Proof.
  intros Hb. unfold stripTrailingEq.
  rewrite rev_app_distr, rev_repeat, dropWhileEq_repeat.
  rewrite dropWhileEq_id by (apply Forall_rev, Hb).
  apply rev_involutive.
Qed.

Lemma stripTrailingEq_encodeRef v bs :
  stripTrailingEq (encodeRef (tableOf v) bs) = encodeBody (tableOf v) bs.
Proof. apply stripTrailingEq_body, encodeBody_no_EQ. Qed.

(** The two results of the encoder without [wrap]. *)
Lemma encode_preserve bytes v p :
  p <> Some strip ->
  encodeBase64FromBytes bytes (mkOptions v p None)
  = encodeRef (tableOf v) bytes.
Proof.
  intros Hp. rewrite encode_unwrapped by reflexivity. cbn [padding variant].
  destruct p as [[|]|]; congruence.
Qed.

Lemma encode_strip bytes v :
  encodeBase64FromBytes bytes (mkOptions v (Some strip) None)
  = encodeBody (tableOf v) bytes.
Proof.
  rewrite encode_unwrapped by reflexivity. cbn [padding variant].
  apply stripTrailingEq_encodeRef.
Qed.

(** Lengths. *)
Lemma encodeBody_len table bs :
  len (encodeBody table bs) = ceilDiv (4 * len bs) 3.
Proof.
  unfold ceilDiv.
  induction bs as [|a|a b|a b c bs IH] using list_ind3; try reflexivity.
  cbn [encodeBody]. rewrite len_app, IH, !len_cons.
  change (len (group4 table a b c)) with 4. zdm.
Qed.

Lemma padCount_len (n : nat) :
  Z.of_nat (padCount n)
  = 4 * ceilDiv (Z.of_nat n) 3 - ceilDiv (4 * Z.of_nat n) 3.
Proof.
  unfold padCount, ceilDiv.
  pose proof (Nat.mod_upper_bound n 3 ltac:(lia)) as Hb.
  pose proof (Nat.div_mod_eq n 3) as Hd.
  destruct (n mod 3)%nat as [|[|[|k]]] eqn:E; try lia.
  - replace (Z.of_nat n) with (3 * Z.of_nat (n / 3)) by lia. zdm.
  - replace (Z.of_nat n) with (3 * Z.of_nat (n / 3) + 1) by lia. zdm.
  - replace (Z.of_nat n) with (3 * Z.of_nat (n / 3) + 2) by lia. zdm.
Qed.

Lemma encodeRef_len table bs :
  len (encodeRef table bs) = 4 * ceilDiv (len bs) 3.
Proof.
  unfold encodeRef. rewrite len_app, encodeBody_len.
  unfold len at 2. rewrite repeat_length, padCount_len. unfold len. lia.
Qed.

Lemma ceilDiv_spec a b :
  0 < b -> (ceilDiv a b - 1) * b < a <= ceilDiv a b * b.
Proof. intros Hb. unfold ceilDiv. zdm. Qed.

(* ================================================================== *)
(** ** The decoding loop                                               *)
(* ================================================================== *)

Lemma list_ind4 {A} (P : list A -> Prop) :
  P [] -> (forall a, P [a]) -> (forall a b, P [a; b]) ->
  (forall a b c, P [a; b; c]) ->
  (forall a b c d l, P l -> P (a :: b :: c :: d :: l)) ->
  forall l, P l.
Proof.
  intros H0 H1 H2 H3 H4. fix IH 1.
  intros [|a [|b [|c [|d l]]]];
    [exact H0 | apply H1 | apply H2 | apply H3 | apply H4, IH].
Qed.

Lemma quads_ind {A} (P : list A -> Prop) :
  P [] -> (forall a b c d l, P l -> P (a :: b :: c :: d :: l)) ->
  forall l, len l mod 4 = 0 -> P l.
Proof.
  intros H0 H4 l. induction l as [|a|a b|a b c|a b c d l IH] using list_ind4;
    intros Hl; try discriminate; auto.
  apply H4, IH. rewrite !len_cons in Hl. zdm.
Qed.

Section DecodeLoop.

Variable lookup : LookupTable.

Lemma groupValues_at pre ca cb cc cd rest :
  groupValues lookup (pre ++ ca :: cb :: cc :: cd :: rest) (len pre)
  = valuesOf lookup ca cb cc cd.
Proof.
  unfold groupValues, valuesOf, lookupAt, lookupPadAt, padValue.
  rewrite at_app_0, !at_app_r by lia. reflexivity.
Qed.

Lemma store_app w x l v : store (w ++ x :: l) (len w) v = w ++ v :: l.
Proof.
  unfold store, len. destruct (Z.ltb_spec (Z.of_nat (List.length w)) 0); [lia|].
  rewrite Nat2Z.id. clear. induction w as [|y w IH]; [reflexivity|].
  cbn. rewrite IH. reflexivity.
Qed.

Lemma firstn_app_firstn {A} n (l m : list A) :
  firstn n (firstn n l ++ m) = firstn n (l ++ m).
Proof.
  destruct (Nat.le_gt_cases (List.length l) n) as [Hle|Hgt].
  - rewrite (firstn_all2 l) by assumption. reflexivity.
  - rewrite !firstn_app, length_firstn, Nat.min_l by lia.
    rewrite firstn_firstn, Nat.min_id.
    replace (n - n)%nat with 0%nat by lia.
    replace (n - List.length l)%nat with 0%nat by lia.
    reflexivity.
Qed.

Lemma emit_stateOf n w v :
  (List.length w <= n)%nat ->
  emit (Z.of_nat n) (stateOf n w) v = stateOf n (firstn n (w ++ [v])).
Proof.
  intros Hw. unfold emit, stateOf.
  destruct (Z.ltb_spec (len w) (Z.of_nat n)) as [Hlt|Hge]; unfold len in *.
  - rewrite firstn_all2 by (rewrite length_app; simpl; lia).
    replace (n - List.length w)%nat with (S (n - List.length (w ++ [v])))
      by (rewrite length_app; simpl; lia).
    cbn [repeat]. fold (len w). rewrite store_app.
    rewrite <- app_assoc. f_equal. unfold len. rewrite length_app. simpl. lia.
  - assert (List.length w = n) as Hn by lia.
    assert (firstn n (w ++ [v]) = w) as ->; [|reflexivity].
    rewrite firstn_app, <- Hn, firstn_all, Nat.sub_diag, firstn_0.
    apply app_nil_r.
Qed.

Lemma firstn_le_n {A} n (l : list A) : (List.length (firstn n l) <= n)%nat.
Proof. apply firstn_le_length. Qed.

Lemma emitTriple_stateOf n w v :
  (List.length w <= n)%nat ->
  emitTriple (Z.of_nat n) (stateOf n w) v
  = stateOf n (firstn n (w ++ tripleBytes v)).
Proof.
  intros Hw. destruct v as [[[a b] c] d]. unfold emitTriple, tripleBytes.
  fold (untriple a b c d). set (t := untriple a b c d).
  rewrite emit_stateOf by assumption.
  rewrite emit_stateOf by apply firstn_le_n.
  rewrite emit_stateOf by apply firstn_le_n.
  rewrite firstn_app_firstn, <- app_assoc, firstn_app_firstn, <- app_assoc.
  reflexivity.
Qed.

Lemma decode_loop_exit padded len_ outputLen i st :
  len_ <= i -> decode_loop lookup padded len_ outputLen i st = Ok (snd st).
Proof.
  intros Hi. rewrite decode_loop_equation_1.
  destruct (Z_lt_dec _ _); [exfalso; lia | reflexivity].
Qed.

Lemma decode_loop_step padded len_ outputLen i st :
  i < len_ ->
  decode_loop lookup padded len_ outputLen i st
  = match groupValues lookup padded i with
    | None => Err (InvalidCharacter i)
    | Some v =>
        decode_loop lookup padded len_ outputLen (i + 4)
          (emitTriple outputLen st v)
    end.
Proof.
  intros Hi. rewrite decode_loop_equation_1.
  destruct (Z_lt_dec _ _); [|exfalso; lia].
  cbn. destruct (groupValues lookup padded i); reflexivity.
Qed.

(** The loop writes the first [n] bytes of all groups, or stops at the
    first group with a character that has no value. *)
Lemma decode_loop_spec (n : nat) rest :
  len rest mod 4 = 0 ->
  forall pre w,
    (List.length w <= n)%nat ->
    decode_loop lookup (pre ++ rest) (len (pre ++ rest)) (Z.of_nat n)
      (len pre) (stateOf n w)
    = match decodeGroups lookup rest (len pre) with
      | Ok bs => Ok (snd (stateOf n (firstn n (w ++ bs))))
      | Err e => Err e
      end.
Proof.
  intros Hrest. pattern rest. apply quads_ind; [| |exact Hrest]; clear.
  - intros pre w Hw. rewrite decode_loop_exit by (rewrite app_nil_r; lia).
    cbn [decodeGroups]. rewrite app_nil_r, firstn_all2 by assumption.
    reflexivity.
  - intros ca cb cc cd rest IH pre w Hw.
    rewrite decode_loop_step
      by (rewrite len_app, !len_cons; pose proof (len_nonneg rest); lia).
    rewrite groupValues_at. cbn [decodeGroups].
    destruct (valuesOf lookup ca cb cc cd) as [v|]; [|reflexivity].
    rewrite emitTriple_stateOf by assumption.
    replace (pre ++ ca :: cb :: cc :: cd :: rest)
      with ((pre ++ [ca; cb; cc; cd]) ++ rest)
      by (rewrite <- app_assoc; reflexivity).
    replace (len pre + 4) with (len (pre ++ [ca; cb; cc; cd]))
      by (rewrite len_app; reflexivity).
    rewrite IH by apply firstn_le_n.
    destruct (decodeGroups lookup rest _) as [bs|e]; [|reflexivity].
    rewrite firstn_app_firstn, <- app_assoc. reflexivity.
Qed.

Lemma decode_loop_whole (n : nat) padded :
  len padded mod 4 = 0 ->
  decode_loop lookup padded (len padded) (Z.of_nat n) 0
    (0, repeat 0 n)
  = match decodeGroups lookup padded 0 with
    | Ok bs => Ok (outputOf n bs)
    | Err e => Err e
    end.
Proof.
  intros Hp.
  pose proof (decode_loop_spec n padded Hp [] [] ltac:(simpl; lia)) as H.
  cbn [app] in H. change (len []) with 0 in H.
  unfold stateOf at 1 in H. cbn [app List.length] in H.
  rewrite Nat.sub_0_r in H. change (len []) with 0 in H.
  rewrite H. destruct (decodeGroups lookup padded 0); reflexivity.
Qed.

End DecodeLoop.

Lemma endsWith_len s t : endsWith s t = true -> len t <= len s.
Proof.
  unfold endsWith. intros H. apply andb_true_iff in H. destruct H as [H _].
  apply Z.leb_le in H. exact H.
Qed.

Lemma outputLenOf_nonneg padded :
  len padded mod 4 = 0 -> 0 <= outputLenOf padded.
Proof.
  intros Hp. unfold outputLenOf. pose proof (len_nonneg padded).
  destruct (endsWith padded [EQ; EQ]) eqn:E2.
  - apply endsWith_len in E2. change (len [EQ; EQ]) with 2 in E2. zdm.
  - destruct (endsWith padded [EQ]) eqn:E1.
    + apply endsWith_len in E1. change (len [EQ]) with 1 in E1. zdm.
    + zdm.
Qed.

(** [decodePadded] in terms of the groups of the padded text. *)
Lemma decodePadded_spec lookup alph cleaned padded opts verify :
  len padded mod 4 = 0 ->
  decodePadded lookup alph cleaned padded opts verify
  = match decodeGroups lookup padded 0 with
    | Err e => Err e
    | Ok bs =>
        let output := outputOf (Z.to_nat (outputLenOf padded)) bs in
        if negb (loose opts) && verify then
          if negb (streq (stripTrailingEq (encodeBytesToBase64Raw output alph))
                     cleaned)
          then Err NonCanonical else Ok output
        else Ok output
    end.
Proof.
  intros Hp. unfold decodePadded. fold (outputLenOf padded).
  pose proof (outputLenOf_nonneg padded Hp) as Hn.
  rewrite <- (Z2Nat.id (outputLenOf padded)) at 1 by assumption.
  rewrite decode_loop_whole by assumption.
  destruct (decodeGroups lookup padded 0); reflexivity.
Qed.

(* ================================================================== *)
(** ** The decoder, step by step                                       *)
(* ================================================================== *)

(** The decoder after the test for the empty input. *)
Lemma decode_nonempty input opts :
  input <> [] ->
  decodeBase64ToBytes input opts
  = let cleaned := stripWhitespace input in
    if isUrlText cleaned && isStdText cleaned then Err MixedAlphabet
    else decodeCleaned (lookupOf cleaned) (alphOf cleaned) cleaned opts.
Proof. destruct input; [congruence | reflexivity]. Qed.

Lemma len_repeatChar c k : 0 <= k -> len (repeatChar c k) = k.
Proof. intros. unfold repeatChar, len. rewrite repeat_length. lia. Qed.

(** The padded text has whole groups. *)
Lemma padded_len cleaned :
  len cleaned mod 4 <> 1 ->
  len (cleaned ++ repeatChar EQ (4 - len cleaned mod 4)) mod 4 = 0
  \/ len cleaned mod 4 = 0.
Proof.
  intros H. rewrite len_app, len_repeatChar by zdm. zdm.
Qed.

Lemma decodeCleaned_nil lookup alph opts :
  decodeCleaned lookup alph [] opts = Ok [].
Proof.
  unfold decodeCleaned. change (len [] mod 4) with 0.
  destruct (loose opts); cbn [Z.eqb negb orb andb indexOf indexOf_from];
    rewrite decodePadded_spec by reflexivity; cbn [decodeGroups];
    rewrite ?andb_false_r; reflexivity.
Qed.

(** The decoder sees its input through [stripWhitespace] only: the test for
    the empty input changes nothing, the empty cleaned text decodes to the
    empty buffer as well. *)
Lemma decode_cleaned input opts :
  decodeBase64ToBytes input opts
  = let cleaned := stripWhitespace input in
    if isUrlText cleaned && isStdText cleaned then Err MixedAlphabet
    else decodeCleaned (lookupOf cleaned) (alphOf cleaned) cleaned opts.
Proof.
  destruct input as [|c input]; [|apply decode_nonempty; discriminate].
  cbn. rewrite decodeCleaned_nil. reflexivity.
Qed.

(** With a length of 2 or 3 mod 4 both modes decode the same padded text;
    the strict mode adds the canonical check. *)
Lemma decodeCleaned_unpadded lookup alph cleaned opts :
  len cleaned mod 4 = 2 \/ len cleaned mod 4 = 3 ->
  decodeCleaned lookup alph cleaned opts
  = let padded := cleaned ++ repeatChar EQ (4 - len cleaned mod 4) in
    match decodeGroups lookup padded 0 with
    | Err e => Err e
    | Ok bs =>
        let output := outputOf (Z.to_nat (outputLenOf padded)) bs in
        if loose opts then Ok output
        else if streq (stripTrailingEq (encodeBytesToBase64Raw output alph))
                  cleaned
             then Ok output else Err NonCanonical
    end.
Proof.
  intros Hmod. unfold decodeCleaned.
  assert (len (cleaned ++ repeatChar EQ (4 - len cleaned mod 4)) mod 4 = 0)
    as Hp by (destruct (padded_len cleaned); lia).
  assert ((len cleaned mod 4 =? 1) = false) as -> by (apply Z.eqb_neq; lia).
  assert ((len cleaned mod 4 =? 0) = false) as -> by (apply Z.eqb_neq; lia).
  assert (((len cleaned mod 4 =? 2) || (len cleaned mod 4 =? 3)) = true)
    as -> by (apply orb_true_iff; rewrite !Z.eqb_eq; exact Hmod).
  cbn [negb]. destruct (loose opts) eqn:Hl;
    rewrite decodePadded_spec by assumption; rewrite Hl; cbn [negb andb];
    destruct (decodeGroups lookup _ 0); cbv zeta; try reflexivity.
  destruct (streq _ cleaned); reflexivity.
Qed.

(** The same, on the decoding loop of the source. *)
Lemma decodeCleaned_unpadded_loop lookup alph cleaned opts :
  len cleaned mod 4 = 2 \/ len cleaned mod 4 = 3 ->
  decodeCleaned lookup alph cleaned opts
  = let padded := cleaned ++ repeatChar EQ (4 - len cleaned mod 4) in
    let outputLen := outputLenOf padded in
    match decode_loop lookup padded (len padded) outputLen 0
            (0, repeat 0 (Z.to_nat outputLen)) with
    | Err e => Err e
    | Ok output =>
        if loose opts then Ok output
        else if streq (stripTrailingEq (encodeBytesToBase64Raw output alph))
                  cleaned
             then Ok output else Err NonCanonical
    end.
Proof.
  intros Hmod. unfold decodeCleaned, decodePadded.
  assert ((len cleaned mod 4 =? 1) = false) as -> by (apply Z.eqb_neq; lia).
  assert ((len cleaned mod 4 =? 0) = false) as -> by (apply Z.eqb_neq; lia).
  assert (((len cleaned mod 4 =? 2) || (len cleaned mod 4 =? 3)) = true)
    as -> by (apply orb_true_iff; rewrite !Z.eqb_eq; exact Hmod).
  cbn [negb]. cbv zeta.
  fold (outputLenOf (cleaned ++ repeatChar EQ (4 - len cleaned mod 4))).
  destruct (loose opts); cbn [negb andb];
    destruct (decode_loop lookup _ _ _ 0 _); try reflexivity.
  destruct (streq _ cleaned); reflexivity.
Qed.

Lemma streq_true s t : streq s t = true <-> s = t.
Proof.
  unfold streq. destruct (list_eq_dec Z.eq_dec s t); split; congruence.
Qed.

(** A character without a value stops the decoding of the groups. *)
Lemma decodeGroups_invalid lookup rest c :
  len rest mod 4 = 0 ->
  In c rest -> c <> EQ -> table_get lookup c = None ->
  forall i, exists p, decodeGroups lookup rest i = Err (InvalidCharacter p).
Proof.
  intros Hrest Hin Hc Hnone. revert Hin. pattern rest.
  apply quads_ind; [| |exact Hrest]; clear Hrest rest.
  - intros [].
  - intros ca cb cc cd rest IH Hin i. cbn [decodeGroups].
    destruct (valuesOf lookup ca cb cc cd) as [v|] eqn:Hv; [|eauto].
    assert (In c rest) as Hrest.
    { unfold valuesOf, padValue in Hv.
      destruct Hin as [<-|[<-|[<-|[<-|Hin]]]]; auto; exfalso.
      - rewrite Hnone in Hv. discriminate.
      - rewrite Hnone in Hv. destruct (table_get lookup ca); discriminate.
      - destruct (Z.eqb_spec cc EQ); [contradiction|].
        rewrite Hnone in Hv.
        destruct (table_get lookup ca), (table_get lookup cb); discriminate.
      - destruct (Z.eqb_spec cd EQ); [contradiction|].
        rewrite Hnone in Hv.
        destruct (table_get lookup ca), (table_get lookup cb),
          (if cc =? EQ then Some 0 else table_get lookup cc); discriminate. }
    destruct (IH Hrest (i + 4)) as [p ->]. eauto.
Qed.

Lemma stripWhitespace_InsertWs t t' :
  InsertWs t t' -> stripWhitespace t' = stripWhitespace t.
Proof.
  induction 1 as [|c t t' _ IH|w t t' Hw _ IH]; cbn [stripWhitespace filter].
  - reflexivity.
  - fold (stripWhitespace t') (stripWhitespace t). rewrite IH. reflexivity.
  - rewrite Hw. cbn [negb]. exact IH.
Qed.

(** The position of an invalid-character error is the index of a group. *)
Lemma decodeGroups_position lookup rest :
  forall i p,
    decodeGroups lookup rest i = Err (InvalidCharacter p) ->
    i <= p < i + len rest /\ (p - i) mod 4 = 0.
Proof.
  induction rest as [|a|a b|a b c|ca cb cc cd rest IH] using list_ind4;
    intros i p H; try discriminate.
  cbn [decodeGroups] in H. rewrite !len_cons.
  pose proof (len_nonneg rest) as Hn.
  destruct (valuesOf lookup ca cb cc cd).
  - destruct (decodeGroups lookup rest (i + 4)) as [bs|e] eqn:E;
      [discriminate|].
    injection H as ->. destruct (IH _ _ E) as [Hr Hm]. split; [lia|zdm].
  - injection H as <-. split; [lia|]. rewrite Z.sub_diag. reflexivity.
Qed.

(* ================================================================== *)
(** ** The line-wrap helper                                            *)
(* ================================================================== *)

Section Wrap.

Variable width : Z.
Hypothesis Hw : 0 < width.

Lemma slice_app_from {A} (pre rest : list A) :
  slice (pre ++ rest) (len pre) (len pre + width)
  = firstn (Z.to_nat width) rest.
Proof.
  unfold slice, clampIndex. rewrite len_app.
  pose proof (len_nonneg pre). pose proof (len_nonneg rest).
  destruct (Z.ltb_spec (len pre) 0); [lia|].
  destruct (Z.ltb_spec (len pre + width) 0); [lia|].
  rewrite (Z.min_l (len pre)) by lia.
  replace (Z.to_nat (len pre)) with (List.length pre + 0)%nat
    by (unfold len; lia).
  rewrite skipn_app, skipn_all2 by lia.
  replace (List.length pre + 0 - List.length pre)%nat with 0%nat by lia.
  cbn [skipn app].
  destruct (Z.min_spec (len pre + width) (len pre + len rest))
    as [[? ->]|[? ->]].
  - f_equal. lia.
  - replace (Z.to_nat (len pre + len rest - len pre))
      with (List.length rest) by (unfold len; lia).
    rewrite firstn_all, firstn_all2 by (unfold len in *; lia). reflexivity.
Qed.

Lemma wrapAt_loop_exit input i out :
  len input <= i -> wrapAt_loop input width Hw i out = out.
Proof.
  intros Hi. rewrite wrapAt_loop_equation_1.
  destruct (Z_lt_dec _ _); [exfalso; lia | reflexivity].
Qed.

Lemma wrapAt_loop_step input i out :
  i < len input ->
  wrapAt_loop input width Hw i out
  = wrapAt_loop input width Hw (i + width)
      (if i + width <? len input
       then (out ++ slice input i (i + width)) ++ [LF]
       else out ++ slice input i (i + width)).
Proof.
  intros Hi. rewrite wrapAt_loop_equation_1.
  destruct (Z_lt_dec _ _); [reflexivity | exfalso; lia].
Qed.

(** The loop from the index [len pre] on does to [out] what a fresh loop
    does on the rest of the input. *)
Lemma wrapAt_loop_shift (n : nat) :
  forall pre rest out,
    (List.length rest <= n)%nat ->
    wrapAt_loop (pre ++ rest) width Hw (len pre) out
    = out ++ wrapAt_loop rest width Hw 0 [].
Proof.
  induction n as [|n IH]; intros pre rest out Hn.
  - destruct rest; [|simpl in Hn; lia].
    rewrite !wrapAt_loop_exit by (rewrite ?app_nil_r, ?len_nil; lia).
    rewrite app_nil_r. reflexivity.
  - destruct (Z_lt_dec 0 (len rest)) as [Hpos|Hzero].
    2:{ destruct rest; [|rewrite len_cons in Hzero;
                          pose proof (len_nonneg rest); lia].
        rewrite !wrapAt_loop_exit by (rewrite ?app_nil_r, ?len_nil; lia).
        rewrite app_nil_r. reflexivity. }
    rewrite (wrapAt_loop_step (pre ++ rest)) by (rewrite len_app; lia).
    rewrite (wrapAt_loop_step rest) by lia.
    rewrite slice_app_from.
    pose proof (slice_app_from [] rest) as Hs. cbn [app] in Hs.
    change (len []) with 0 in Hs. rewrite Hs. clear Hs. cbn [app].
    rewrite len_app.
    destruct (Z.ltb_spec (len pre + width) (len pre + len rest)) as [Hlt|Hge];
      destruct (Z.ltb_spec (0 + width) (len rest)); try lia.
    + set (hd := firstn (Z.to_nat width) rest).
      set (tl := skipn (Z.to_nat width) rest).
      assert (rest = hd ++ tl) as Hrest
        by (symmetry; apply firstn_skipn).
      assert (len hd = width) as Hhd
        by (unfold hd, len in *; rewrite length_firstn; lia).
      assert (List.length tl <= n)%nat as Htl
        by (unfold tl, len in *; rewrite length_skipn; lia).
      clearbody hd tl. subst rest. rewrite app_assoc.
      replace (len pre + width) with (len (pre ++ hd))
        by (rewrite len_app; lia).
      rewrite IH by assumption.
      replace (0 + width) with (len hd) by lia.
      rewrite (IH hd tl) by assumption.
      rewrite <- !app_assoc. reflexivity.
    + rewrite !wrapAt_loop_exit by (rewrite ?len_app; lia). reflexivity.
Qed.

End Wrap.

(** The equations of [wrapAt] for a positive width. *)
Lemma wrapAt_short t w :
  0 < w -> len t <= w -> wrapAt t (Some w) = t.
Proof.
  intros Hw Hlen. unfold wrapAt. destruct (Z_lt_dec 0 w) as [H|]; [|lia].
  destruct (Z_lt_dec 0 (len t)) as [Hpos|Hzero].
  - rewrite wrapAt_loop_step by assumption.
    pose proof (slice_app_from w H [] t) as Hs. cbn [app] in Hs.
    change (len []) with 0 in Hs. rewrite Hs. cbn [app].
    destruct (Z.ltb_spec (0 + w) (len t)); [lia|].
    rewrite wrapAt_loop_exit by lia.
    apply firstn_all2. unfold len in *. lia.
  - rewrite wrapAt_loop_exit by lia.
    destruct t; [reflexivity|].
    rewrite len_cons in Hzero. pose proof (len_nonneg t). lia.
Qed.

Lemma wrapAt_long t w :
  0 < w -> w < len t ->
  wrapAt t (Some w)
  = firstn (Z.to_nat w) t ++ [LF] ++ wrapAt (skipn (Z.to_nat w) t) (Some w).
Proof.
  intros Hw Hlen. unfold wrapAt. destruct (Z_lt_dec 0 w) as [H|]; [|lia].
  rewrite wrapAt_loop_step by lia.
  pose proof (slice_app_from w H [] t) as Hs. cbn [app] in Hs.
  change (len []) with 0 in Hs. rewrite Hs. cbn [app].
  destruct (Z.ltb_spec (0 + w) (len t)); [|lia].
  set (hd := firstn (Z.to_nat w) t). set (tl := skipn (Z.to_nat w) t).
  assert (t = hd ++ tl) as Ht by (symmetry; apply firstn_skipn).
  assert (len hd = w) as Hhd
    by (unfold hd, len in *; rewrite length_firstn; lia).
  clearbody hd tl. subst t. replace (0 + w) with (len hd) by lia.
  rewrite (wrapAt_loop_shift w H (List.length tl)) by lia.
  rewrite <- app_assoc. reflexivity.
Qed.

Lemma removeLineBreaks_app s t :
  removeLineBreaks (s ++ t) = removeLineBreaks s ++ removeLineBreaks t.
Proof. apply filter_app. Qed.

(** Wrapping adds line breaks only. *)
Lemma removeLineBreaks_wrapAt w :
  0 < w -> forall (n : nat) t, (List.length t <= n)%nat ->
  removeLineBreaks (wrapAt t (Some w)) = removeLineBreaks t.
Proof.
  intros Hw. induction n as [|n IH]; intros t Hn.
  - rewrite wrapAt_short by (unfold len; lia). reflexivity.
  - destruct (Z_le_gt_dec (len t) w) as [Hle|Hgt].
    + rewrite wrapAt_short by assumption. reflexivity.
    + rewrite wrapAt_long by lia.
      rewrite !removeLineBreaks_app, IH
        by (rewrite length_skipn; unfold len in *; lia).
      change (removeLineBreaks [LF]) with (@nil Z). cbn [app].
      rewrite <- removeLineBreaks_app, firstn_skipn. reflexivity.
Qed.

Lemma removeLineBreaks_id t :
  ~ In LF t -> removeLineBreaks t = t.
Proof.
  intros Hno. induction t as [|c t IH]; [reflexivity|].
  cbn [removeLineBreaks filter]. fold (removeLineBreaks t).
  destruct (Z.eqb_spec c 10) as [->|_].
  - exfalso. apply Hno. left. reflexivity.
  - cbn [negb]. rewrite IH; [reflexivity|].
    intros Hin. apply Hno. right. exact Hin.
Qed.

(* ================================================================== *)
(** ** Decoding an encoding                                            *)
(* ================================================================== *)

Lemma endsWith_iff s t : endsWith s t = true <-> exists p, s = p ++ t.
Proof.
  unfold endsWith. rewrite andb_true_iff, Z.leb_le, streq_true. split.
  - intros [_ H].
    exists (firstn (List.length s - List.length t) s).
    pose proof (firstn_skipn (List.length s - List.length t) s) as E.
    rewrite H in E. symmetry. exact E.
  - intros [p ->]. split; [rewrite len_app; pose proof (len_nonneg p); lia|].
    rewrite length_app, Nat.add_sub, skipn_app, skipn_all, Nat.sub_diag.
    reflexivity.
Qed.

Lemma endsWith_false s t :
  (forall p, s <> p ++ t) -> endsWith s t = false.
Proof.
  intros H. destruct (endsWith s t) eqn:E; [|reflexivity].
  apply endsWith_iff in E. destruct E as [p E]. exfalso. exact (H p E).
Qed.

Lemma no_EQ_suffix body p r :
  Forall (fun x => x <> EQ) body -> body <> p ++ EQ :: r.
Proof.
  intros Hb E. rewrite E in Hb. apply Forall_elt in Hb. congruence.
Qed.

(** The number of trailing ['='] the decoder counts on a padded text. *)
Lemma pads_counted body (k : nat) :
  Forall (fun x => x <> EQ) body -> (k <= 2)%nat ->
  (if endsWith (body ++ repeat EQ k) [EQ; EQ] then 2
   else if endsWith (body ++ repeat EQ k) [EQ] then 1 else 0) = Z.of_nat k.
Proof.
  intros Hb Hk. destruct k as [|[|[|k]]]; [| | |lia]; cbn [repeat].
  - rewrite app_nil_r.
    rewrite !endsWith_false; [reflexivity| |];
      intros p; apply no_EQ_suffix; assumption.
  - rewrite endsWith_false.
    + assert (endsWith (body ++ [EQ]) [EQ] = true) as ->; [|reflexivity].
      apply endsWith_iff. eauto.
    + intros p E. change (p ++ [EQ; EQ]) with (p ++ [EQ] ++ [EQ]) in E.
      rewrite app_assoc in E. apply app_inj_tail in E. destruct E as [E _].
      revert E. apply no_EQ_suffix. assumption.
  - assert (endsWith (body ++ [EQ; EQ]) [EQ; EQ] = true) as ->;
      [|reflexivity].
    apply endsWith_iff. eauto.
Qed.

Lemma indexOf_from_absent body i :
  Forall (fun x => x <> EQ) body -> indexOf_from i body EQ = -1.
Proof.
  intros Hb. revert i. induction Hb as [|x body Hx _ IH]; intros i;
    [reflexivity|].
  cbn [indexOf_from]. destruct (Z.eqb_spec x EQ); [contradiction|apply IH].
Qed.

Lemma indexOf_from_first body r i :
  Forall (fun x => x <> EQ) body ->
  indexOf_from i (body ++ EQ :: r) EQ = i + len body.
Proof.
  intros Hb. revert i. induction Hb as [|x body Hx _ IH]; intros i.
  - cbn. lia.
  - cbn [indexOf_from app].
    destruct (Z.eqb_spec x EQ); [contradiction|].
    rewrite IH, len_cons. lia.
Qed.

Lemma sliceFrom_app {A} (body pads : list A) :
  sliceFrom (body ++ pads) (len body) = pads.
Proof.
  unfold sliceFrom, slice, clampIndex. rewrite len_app.
  pose proof (len_nonneg body). pose proof (len_nonneg pads).
  destruct (Z.ltb_spec (len body) 0); [lia|].
  destruct (Z.ltb_spec (len body + len pads) 0); [lia|].
  rewrite Z.min_id, (Z.min_l (len body)) by lia.
  replace (Z.to_nat (len body)) with (List.length body + 0)%nat
    by (unfold len; lia).
  rewrite skipn_app, skipn_all2 by lia.
  replace (List.length body + 0 - List.length body)%nat with 0%nat by lia.
  cbn [skipn app]. apply firstn_all2. unfold len. lia.
Qed.

(** The padding of a padded text passes the placement check of the strict
    mode. *)
Lemma padding_placement_ok body (k : nat) :
  Forall (fun x => x <> EQ) body -> (k <= 2)%nat ->
  negb (indexOf (body ++ repeat EQ k) EQ =? -1)
  && negb (isPaddingTail
             (sliceFrom (body ++ repeat EQ k)
                (indexOf (body ++ repeat EQ k) EQ))) = false.
Proof.
  intros Hb Hk. unfold indexOf.
  destruct k as [|[|[|k]]]; [| | |lia]; cbn [repeat].
  - rewrite app_nil_r, indexOf_from_absent by assumption. reflexivity.
  - rewrite indexOf_from_first by assumption. cbn [Z.add].
    rewrite sliceFrom_app. apply andb_false_r.
  - rewrite indexOf_from_first by assumption. cbn [Z.add].
    rewrite sliceFrom_app. apply andb_false_r.
Qed.

Lemma padCount_le n : (padCount n <= 2)%nat.
Proof.
  unfold padCount. destruct (n mod 3)%nat as [|[|[|k]]]; lia.
Qed.

Lemma padCount_step n : padCount (3 + n) = padCount n.
Proof.
  unfold padCount. replace (3 + n)%nat with (n + 1 * 3)%nat by lia.
  rewrite Nat.Div0.mod_add. reflexivity.
Qed.

Lemma encodeRef_step table a b c r :
  encodeRef table (a :: b :: c :: r)
  = group4 table a b c ++ encodeRef table r.
Proof.
  unfold encodeRef. cbn [encodeBody].
  change (List.length (a :: b :: c :: r)) with (3 + List.length r)%nat.
  rewrite padCount_step, app_assoc. reflexivity.
Qed.

Section RoundTrip.

Variable table : jsstring.
Variable lookup : LookupTable.
Hypothesis table_len : len table = 64.
Hypothesis lookup_table :
  forall s, 0 <= s < 64 -> table_get lookup (tchar table s) = Some s.
Hypothesis table_no_EQ : forall s, 0 <= s < 64 -> tchar table s <> EQ.

Lemma padValue_table s :
  0 <= s < 64 -> padValue lookup (tchar table s) = Some s.
Proof.
  intros Hs. unfold padValue.
  destruct (Z.eqb_spec (tchar table s) EQ) as [E|_];
    [exfalso; exact (table_no_EQ s Hs E) | apply lookup_table, Hs].
Qed.

Lemma tripleBytes_sextets a b c :
  is_byte a -> is_byte b -> is_byte c ->
  let t := triple3 a b c in
  tripleBytes (sextet t 18, sextet t 12, sextet t 6, sextet t 0) = [a; b; c].
Proof.
  intros Ha Hb Hc t. unfold tripleBytes.
  pose proof (triple_bound a b c Ha Hb Hc) as Ht. fold t in Ht.
  change (2 ^ 24) with 16777216 in Ht.
  rewrite untriple_sextets by assumption. subst t.
  destruct (bytes_of_triple a b c Ha Hb Hc) as (-> & -> & ->). reflexivity.
Qed.

Lemma zero_is_byte : is_byte 0.
Proof. unfold is_byte. lia. Qed.

Lemma tripleBytes_tail1 a :
  is_byte a ->
  tripleBytes (sextet (triple3 a 0 0) 18, sextet (triple3 a 0 0) 12, 0, 0)
  = [a; 0; 0].
Proof.
  intros Ha. destruct (sextet_tail1 a Ha) as [H6 H0].
  pose proof (tripleBytes_sextets a 0 0 Ha zero_is_byte zero_is_byte) as H.
  cbv zeta in H. rewrite H6, H0 in H. exact H.
Qed.

Lemma tripleBytes_tail2 a b :
  is_byte a -> is_byte b ->
  tripleBytes (sextet (triple3 a b 0) 18, sextet (triple3 a b 0) 12,
               sextet (triple3 a b 0) 6, 0)
  = [a; b; 0].
Proof.
  intros Ha Hb. pose proof (sextet_tail2 a b Ha Hb) as H0.
  pose proof (tripleBytes_sextets a b 0 Ha Hb zero_is_byte) as H.
  cbv zeta in H. rewrite H0 in H. exact H.
Qed.

(** The groups of a padded encoding decode to the bytes, followed by one
    zero byte for each ['=']. *)
Lemma decodeGroups_encodeRef bs :
  is_bytes bs ->
  forall i,
    decodeGroups lookup (encodeRef table bs) i
    = Ok (bs ++ repeat 0 (padCount (List.length bs))).
Proof.
  induction bs as [|a|a b|a b c bs IH] using list_ind3; intros Hbs i.
  - reflexivity.
  - apply Forall_inv in Hbs.
    unfold encodeRef.
    cbn [encodeBody group4 firstn List.length padCount Nat.modulo Nat.divmod
         fst snd Nat.sub repeat app decodeGroups].
    unfold valuesOf. rewrite !lookup_table by (apply sextet_range; lia).
    change (padValue lookup EQ) with (Some 0). cbv beta iota.
    rewrite tripleBytes_tail1 by assumption. reflexivity.
  - pose proof (Forall_inv Hbs) as Ha.
    pose proof (Forall_inv (Forall_inv_tail Hbs)) as Hb.
    unfold encodeRef.
    cbn [encodeBody group4 firstn List.length padCount Nat.modulo Nat.divmod
         fst snd Nat.sub repeat app decodeGroups].
    unfold valuesOf. rewrite !lookup_table by (apply sextet_range; lia).
    rewrite padValue_table by (apply sextet_range; lia).
    change (padValue lookup EQ) with (Some 0). cbv beta iota.
    rewrite tripleBytes_tail2 by assumption. reflexivity.
  - pose proof (Forall_inv Hbs) as Ha.
    pose proof (Forall_inv (Forall_inv_tail Hbs)) as Hb.
    pose proof (Forall_inv (Forall_inv_tail (Forall_inv_tail Hbs))) as Hc.
    pose proof (Forall_inv_tail (Forall_inv_tail (Forall_inv_tail Hbs)))
      as Hrest.
    rewrite encodeRef_step. unfold group4. cbn [app decodeGroups].
    unfold valuesOf. rewrite !lookup_table by (apply sextet_range; lia).
    rewrite !padValue_table by (apply sextet_range; lia).
    rewrite IH by assumption. cbv beta iota.
    rewrite (tripleBytes_sextets a b c) by assumption.
    change (List.length (a :: b :: c :: bs)) with (3 + List.length bs)%nat.
    rewrite padCount_step. reflexivity.
Qed.

Lemma body_no_EQ bs : Forall (fun x => x <> EQ) (encodeBody table bs).
Proof.
  eapply Forall_impl; [|apply encodeBody_chars, table_len].
  intros x Hx. apply (In_nth _ _ 0) in Hx. destruct Hx as (n & Hn & <-).
  unfold len in table_len.
  replace n with (Z.to_nat (Z.of_nat n)) by lia.
  apply (table_no_EQ (Z.of_nat n)). lia.
Qed.

Lemma three_ceil_pad (n : nat) :
  3 * ceilDiv (Z.of_nat n) 3 - Z.of_nat (padCount n) = Z.of_nat n.
Proof.
  unfold padCount, ceilDiv.
  pose proof (Nat.mod_upper_bound n 3 ltac:(lia)) as Hb.
  pose proof (Nat.div_mod_eq n 3) as Hd.
  destruct (n mod 3)%nat as [|[|[|k]]] eqn:E; try lia.
  - replace (Z.of_nat n) with (3 * Z.of_nat (n / 3)) by lia. zdm.
  - replace (Z.of_nat n) with (3 * Z.of_nat (n / 3) + 1) by lia. zdm.
  - replace (Z.of_nat n) with (3 * Z.of_nat (n / 3) + 2) by lia. zdm.
Qed.

(** The decoder allocates as many bytes as were encoded. *)
Lemma outputLenOf_encodeRef bs : outputLenOf (encodeRef table bs) = len bs.
Proof.
  unfold outputLenOf. rewrite encodeRef_len. unfold encodeRef.
  rewrite pads_counted by (apply body_no_EQ || apply padCount_le).
  pose proof (three_ceil_pad (List.length bs)). unfold len. zdm.
Qed.

Lemma outputOf_exact bs junk :
  outputOf (List.length bs) (bs ++ junk) = bs.
Proof.
  unfold outputOf.
  rewrite firstn_app, firstn_all, Nat.sub_diag, firstn_0, app_nil_r.
  rewrite Nat.sub_diag. apply app_nil_r.
Qed.

Lemma encodeRef_mod4 bs : len (encodeRef table bs) mod 4 = 0.
Proof. rewrite encodeRef_len. zdm. Qed.

(** Decoding the padded encoding, from the selection of the alphabet on. *)
Lemma decodePadded_encodeRef bs cleaned opts :
  is_bytes bs ->
  decodePadded lookup table cleaned (encodeRef table bs) opts false = Ok bs.
Proof.
  intros Hbs. rewrite decodePadded_spec by apply encodeRef_mod4.
  rewrite decodeGroups_encodeRef by assumption. cbv zeta.
  rewrite andb_false_r, outputLenOf_encodeRef. unfold len.
  rewrite Nat2Z.id, outputOf_exact. reflexivity.
Qed.

Lemma decodeCleaned_padded bs opts :
  is_bytes bs ->
  decodeCleaned lookup table (encodeRef table bs) opts = Ok bs.
Proof.
  intros Hbs. unfold decodeCleaned. rewrite encodeRef_mod4.
  cbn [Z.eqb negb orb].
  destruct (loose opts); [apply decodePadded_encodeRef, Hbs|].
  unfold encodeRef at 1 2 3.
  rewrite padding_placement_ok by (apply body_no_EQ || apply padCount_le).
  apply decodePadded_encodeRef, Hbs.
Qed.

Lemma body_mod4 bs :
  len (encodeBody table bs) mod 4
  = (4 - Z.of_nat (padCount (List.length bs))) mod 4.
Proof.
  pose proof (encodeRef_len table bs) as H. unfold encodeRef in H.
  rewrite len_app in H. unfold len at 2 in H. rewrite repeat_length in H.
  pose proof (padCount_le (List.length bs)). zdm.
Qed.

Lemma decodeCleaned_stripped bs opts :
  is_bytes bs ->
  decodeCleaned lookup table (encodeBody table bs) opts = Ok bs.
Proof.
  intros Hbs.
  pose proof (body_mod4 bs) as Hmod.
  pose proof (padCount_le (List.length bs)) as Hle.
  destruct (padCount (List.length bs)) as [|k] eqn:Hk.
  - pose proof (decodeCleaned_padded bs opts Hbs) as H.
    unfold encodeRef in H. rewrite Hk in H. cbn [repeat] in H.
    rewrite app_nil_r in H. exact H.
  - assert (len (encodeBody table bs) mod 4 = 4 - Z.of_nat (S k)) as Hm
      by (rewrite Hmod; zdm).
    rewrite decodeCleaned_unpadded by lia. cbv zeta.
    rewrite Hm.
    replace (4 - (4 - Z.of_nat (S k))) with (Z.of_nat (S k)) by lia.
    unfold repeatChar. rewrite Nat2Z.id, <- Hk.
    fold (encodeRef table bs).
    rewrite decodeGroups_encodeRef by assumption.
    rewrite outputLenOf_encodeRef. unfold len. rewrite Nat2Z.id.
    rewrite outputOf_exact.
    rewrite (encodeBytesToBase64Raw_spec table table_len).
    unfold encodeRef. rewrite stripTrailingEq_body by apply body_no_EQ.
    assert (streq (encodeBody table bs) (encodeBody table bs) = true) as ->
      by (apply streq_true; reflexivity).
    destruct (loose opts); reflexivity.
Qed.

End RoundTrip.

(* ================================================================== *)
(** ** The two alphabets                                               *)
(* ================================================================== *)

(** A decidable property of the 64 values, checked on each. *)
Lemma below_64 (P : Z -> bool) :
  forallb P (map Z.of_nat (seq 0 64)) = true ->
  forall s, 0 <= s < 64 -> P s = true.
Proof.
  intros H s Hs. rewrite forallb_forall in H. apply H.
  apply in_map_iff. exists (Z.to_nat s). split; [lia|].
  apply in_seq. lia.
Qed.

Lemma STD_lookup_table s :
  0 <= s < 64 -> table_get B64_STD_LOOKUP (tchar B64_STD s) = Some s.
Proof.
  intros Hs.
  pose proof (below_64
    (fun s => match table_get B64_STD_LOOKUP (tchar B64_STD s) with
              | Some v => v =? s | None => false end)
    ltac:(vm_compute; reflexivity) s Hs) as H. cbv beta in H.
  destruct (table_get B64_STD_LOOKUP (tchar B64_STD s)); [|discriminate].
  apply Z.eqb_eq in H. congruence.
Qed.

Lemma URL_lookup_table s :
  0 <= s < 64 -> table_get B64_URL_LOOKUP (tchar B64_URL s) = Some s.
Proof.
  intros Hs.
  pose proof (below_64
    (fun s => match table_get B64_URL_LOOKUP (tchar B64_URL s) with
              | Some v => v =? s | None => false end)
    ltac:(vm_compute; reflexivity) s Hs) as H. cbv beta in H.
  destruct (table_get B64_URL_LOOKUP (tchar B64_URL s)); [|discriminate].
  apply Z.eqb_eq in H. congruence.
Qed.

Lemma STD_no_EQ s : 0 <= s < 64 -> tchar B64_STD s <> EQ.
Proof.
  intros Hs.
  pose proof (below_64 (fun s => negb (tchar B64_STD s =? EQ))
    ltac:(vm_compute; reflexivity) s Hs) as H. cbv beta in H.
  apply negb_true_iff, Z.eqb_neq in H. exact H.
Qed.

Lemma URL_no_EQ s : 0 <= s < 64 -> tchar B64_URL s <> EQ.
Proof.
  intros Hs.
  pose proof (below_64 (fun s => negb (tchar B64_URL s =? EQ))
    ltac:(vm_compute; reflexivity) s Hs) as H. cbv beta in H.
  apply negb_true_iff, Z.eqb_neq in H. exact H.
Qed.

(** The two alphabets differ in the characters ['-'] and ['_'] only. *)
Lemma tchar_url_std s :
  0 <= s < 64 ->
  (tchar B64_URL s =? 45) || (tchar B64_URL s =? 95) = false ->
  tchar B64_URL s = tchar B64_STD s.
Proof.
  intros Hs Hc.
  pose proof (below_64
    (fun s => (tchar B64_URL s =? 45) || (tchar B64_URL s =? 95)
              || (tchar B64_URL s =? tchar B64_STD s))
    ltac:(vm_compute; reflexivity) s Hs) as H. cbv beta in H.
  rewrite Hc in H. apply Z.eqb_eq in H. exact H.
Qed.

Lemma existsb_false_Forall {A} (f : A -> bool) l :
  Forall (fun x => negb (f x) = true) l -> existsb f l = false.
Proof.
  induction 1 as [|x l Hx _ IH]; [reflexivity|].
  cbn [existsb]. apply negb_true_iff in Hx. rewrite Hx, IH. reflexivity.
Qed.

Lemma filter_id {A} (f : A -> bool) l :
  Forall (fun x => f x = true) l -> filter f l = l.
Proof.
  induction 1 as [|x l Hx _ IH]; [reflexivity|].
  cbn [filter]. rewrite Hx, IH. reflexivity.
Qed.

Lemma Forall_repeat {A} (P : A -> Prop) x k : P x -> Forall P (repeat x k).
Proof. intros Hx. induction k; constructor; auto. Qed.

(** A property of the characters of a table and of ['='] holds of every
    character of an encoding, padded or not. *)
Lemma encoding_forall v (P : Z -> bool) bs k :
  forallb P (tableOf v) = true -> P EQ = true ->
  Forall (fun x => P x = true) (encodeBody (tableOf v) bs ++ repeat EQ k).
Proof.
  intros Ht He. apply Forall_app. split.
  - apply encodeBody_forall; [apply tableOf_len | exact Ht].
  - apply Forall_repeat, He.
Qed.

(** An encoding has no whitespace. *)
Lemma stripWhitespace_encoding v bs k :
  stripWhitespace (encodeBody (tableOf v) bs ++ repeat EQ k)
  = encodeBody (tableOf v) bs ++ repeat EQ k.
Proof.
  apply filter_id, (encoding_forall v (fun c => negb (isWhitespace c)));
    [apply tableOf_no_ws | reflexivity].
Qed.

(** Alphabet exclusivity. *)
Lemma std_encoding_not_url bs k :
  isUrlText (encodeBody B64_STD bs ++ repeat EQ k) = false.
Proof.
  apply existsb_false_Forall.
  apply (encoding_forall None
           (fun c => negb ((c =? 45) || (c =? 95)))); reflexivity.
Qed.

Lemma url_encoding_not_std bs k :
  isStdText (encodeBody B64_URL bs ++ repeat EQ k) = false.
Proof.
  apply existsb_false_Forall.
  apply (encoding_forall (Some url)
           (fun c => negb ((c =? 43) || (c =? 47)))); reflexivity.
Qed.

Lemma isUrlText_app s t : isUrlText (s ++ t) = isUrlText s || isUrlText t.
Proof. apply existsb_app. Qed.

Lemma isUrlText_cons c s :
  isUrlText (c :: s) = ((c =? 45) || (c =? 95)) || isUrlText s.
Proof. reflexivity. Qed.

(** A URL-safe encoding without ['-'] and ['_'] is the standard encoding. *)
Lemma encodeBody_url_as_std bs :
  isUrlText (encodeBody B64_URL bs) = false ->
  encodeBody B64_URL bs = encodeBody B64_STD bs.
Proof.
  induction bs as [|a|a b|a b c bs IH] using list_ind3;
    cbn [encodeBody]; unfold group4; cbn [firstn app]; intros H;
    rewrite ?isUrlText_cons in H;
    repeat match type of H with
           | _ || _ = false =>
               apply orb_false_iff in H;
               let H1 := fresh "Hc" in destruct H as [H1 H]
           end;
    repeat match goal with
           | Hc : (tchar B64_URL ?s =? 45) || _ = false |- _ =>
               rewrite (tchar_url_std s) by
                 (assumption || (apply sextet_range; lia));
               clear Hc
           end;
    try reflexivity.
  rewrite IH by assumption. reflexivity.
Qed.

(** A table with the lookup table the decoder builds from it. *)
Lemma matched_tables v :
  let table := tableOf v in
  let lookup :=
    match v with Some url => B64_URL_LOOKUP | _ => B64_STD_LOOKUP end in
  len table = 64
  /\ (forall s, 0 <= s < 64 -> table_get lookup (tchar table s) = Some s)
  /\ (forall s, 0 <= s < 64 -> tchar table s <> EQ).
Proof.
  destruct v as [[|]|]; cbv zeta; cbn [tableOf];
    auto using B64_STD_len, B64_URL_len, STD_lookup_table, URL_lookup_table,
      STD_no_EQ, URL_no_EQ.
Qed.

(** The decoder on an encoding with [k] characters of padding, given what
    it does once the alphabet of the encoding is selected. *)
Lemma decode_detects v bs k dopts :
  (forall v',
     decodeCleaned
       (match v' with Some url => B64_URL_LOOKUP | _ => B64_STD_LOOKUP end)
       (tableOf v') (encodeBody (tableOf v') bs ++ repeat EQ k) dopts
     = Ok bs) ->
  decodeBase64ToBytes (encodeBody (tableOf v) bs ++ repeat EQ k) dopts
  = Ok bs.
Proof.
  intros Hdec. rewrite decode_cleaned. cbv zeta.
  rewrite stripWhitespace_encoding. unfold lookupOf, alphOf.
  assert (tableOf v = B64_STD \/ tableOf v = B64_URL) as [Ht|Ht]
    by (destruct v as [[|]|]; auto).
  - rewrite Ht, std_encoding_not_url. cbn [andb].
    exact (Hdec None).
  - rewrite Ht, url_encoding_not_std, andb_false_r.
    destruct (isUrlText (encodeBody B64_URL bs ++ repeat EQ k)) eqn:E.
    + exact (Hdec (Some url)).
    + rewrite isUrlText_app in E. apply orb_false_iff in E.
      rewrite encodeBody_url_as_std by tauto. exact (Hdec None).
Qed.

Lemma decode_padded_encoding v bs dopts :
  is_bytes bs ->
  decodeBase64ToBytes (encodeRef (tableOf v) bs) dopts = Ok bs.
Proof.
  intros Hbs. unfold encodeRef. apply decode_detects. intros v'.
  destruct (matched_tables v') as (Hl & Hlk & Hne).
  apply (decodeCleaned_padded _ _ Hl Hlk Hne bs dopts Hbs).
Qed.

Lemma decode_stripped_encoding v bs dopts :
  is_bytes bs ->
  decodeBase64ToBytes (encodeBody (tableOf v) bs) dopts = Ok bs.
Proof.
  intros Hbs.
  rewrite <- (app_nil_r (encodeBody (tableOf v) bs)).
  change (@nil Z) with (repeat EQ 0).
  apply decode_detects. intros v'. cbn [repeat]. rewrite app_nil_r.
  destruct (matched_tables v') as (Hl & Hlk & Hne).
  apply (decodeCleaned_stripped _ _ Hl Hlk Hne bs dopts Hbs).
Qed.

(* ================================================================== *)
(** ** Evaluations on concrete inputs                                  *)
(* ================================================================== *)

Example encode_hello :
  encodeBase64FromBytes [104; 101; 108; 108; 111] noOptions = str "aGVsbG8=".
Proof. vm_compute. reflexivity. Qed.

Example encode_hello_strip :
  encodeBase64FromBytes [104; 101; 108; 108; 111]
    (mkOptions None (Some strip) None) = str "aGVsbG8".
Proof. vm_compute. reflexivity. Qed.

Example encode_url :
  encodeBase64FromBytes [251; 255; 190] (mkOptions (Some url) None None)
  = str "-_--".
Proof. vm_compute. reflexivity. Qed.

Example wrap_ex :
  wrapAt (str "abcdefgh") (Some 4) = str "abcd" ++ [LF] ++ str "efgh".
Proof. vm_compute. reflexivity. Qed.

Example decode_hello :
  decodeBase64ToBytes (str "aGVsbG8=") strictMode
  = Ok [104; 101; 108; 108; 111].
Proof. vm_compute. reflexivity. Qed.

Example decode_hello_unpadded :
  decodeBase64ToBytes (str "aGVsbG8") strictMode
  = Ok [104; 101; 108; 108; 111].
Proof. vm_compute. reflexivity. Qed.

Example decode_too_much_padding :
  decodeBase64ToBytes (str "YQ===") strictMode = Err InvalidLength.
Proof. vm_compute. reflexivity. Qed.

Example decode_bangs :
  decodeBase64ToBytes (str "!!!") strictMode = Err (InvalidCharacter 0).
Proof. vm_compute. reflexivity. Qed.

Example decode_url_text :
  decodeBase64ToBytes (str "-_--") strictMode = Ok [251; 255; 190].
Proof. vm_compute. reflexivity. Qed.

(* ================================================================== *)
(** ** Properties of the encoder                                       *)
(* ================================================================== *)

(** The 6-bit fields of three bytes, in arithmetic. *)
Lemma sextets_of_bytes a b c :
  is_byte a -> is_byte b -> is_byte c ->
  sextet (triple3 a b c) 18 = a / 4
  /\ sextet (triple3 a b c) 12 = a mod 4 * 16 + b / 16
  /\ sextet (triple3 a b c) 6 = b mod 16 * 4 + c / 64
  /\ sextet (triple3 a b c) 0 = c mod 64.
Proof.
  unfold is_byte. intros. rewrite !sextet_val, triple3_val by lia.
  change (2 ^ 18) with 262144. change (2 ^ 12) with 4096.
  change (2 ^ 6) with 64. change (2 ^ 0) with 1.
  repeat split; zdm.
Qed.

Lemma encodeBody_whole table bs :
  len bs mod 3 = 0 -> encodeBody table bs = encodeFull table bs.
Proof.
  intros H. rewrite <- (app_nil_r bs) at 1.
  rewrite encodeBody_app; [apply app_nil_r|].
  apply Nat2Z.inj. rewrite Nat2Z.inj_mod. exact H.
Qed.

Lemma padCount_whole (bs : list Z) :
  len bs mod 3 = 0 -> padCount (List.length bs) = 0%nat.
Proof.
  intros H. unfold padCount.
  assert ((List.length bs mod 3)%nat = 0%nat) as ->; [|reflexivity].
  apply Nat2Z.inj. rewrite Nat2Z.inj_mod. exact H.
Qed.

Lemma encodeFull_no_EQ table l :
  (forall s, 0 <= s < 64 -> tchar table s <> EQ) ->
  ~ In EQ (encodeFull table l).
Proof.
  intros Hne.
  assert (Forall (fun x => x <> EQ) (encodeFull table l)) as HF.
  { induction l as [|a|a b|a b c l IH] using list_ind3;
      [constructor | constructor | constructor | ].
    change (encodeFull table (a :: b :: c :: l))
      with (group4 table a b c ++ encodeFull table l).
    apply Forall_app. split; [|exact IH].
    unfold group4. repeat constructor; apply Hne, sextet_range; lia. }
  intros Hin. rewrite Forall_forall in HF. exact (HF EQ Hin eq_refl).
Qed.

Lemma encodeRef_whole table bs :
  len bs mod 3 = 0 -> encodeRef table bs = encodeFull table bs.
Proof.
  intros H. unfold encodeRef.
  rewrite padCount_whole, encodeBody_whole by assumption. apply app_nil_r.
Qed.

Lemma len_mod3_nat (bs : list Z) :
  len bs mod 3 = 0 -> (List.length bs mod 3 = 0)%nat.
Proof. intros H. apply Nat2Z.inj. rewrite Nat2Z.inj_mod. exact H. Qed.

(** C3. With the padding preserved, the encoding of a buffer of length
    0 mod 3 has no ['='] and four characters for each group of three bytes,
    and three more bytes add their four characters to it; for a length of
    1 mod 3 the encoding is that of the complete groups, the two characters
    of the last byte and ["=="]; for a length of 2 mod 3 that of the
    complete groups, the three characters of the last two bytes and ["="].
    And ["a"], ["ab"], ["abc"] encode to ["YQ=="], ["YWI="], ["YWJj"]. *)
Theorem encode_tail_padding :
  (forall v p bs,
     p <> Some strip -> is_bytes bs ->
     let table := tableOf v in
     let enc b := encodeBase64FromBytes b (mkOptions v p None) in
     (len bs mod 3 = 0 ->
      ~ In EQ (enc bs) /\ len (enc bs) = 4 * (len bs / 3)
      /\ forall a b c,
           is_byte a -> is_byte b -> is_byte c ->
           enc (bs ++ [a; b; c])
           = enc bs ++ [tchar table (a / 4);
                        tchar table (a mod 4 * 16 + b / 16);
                        tchar table (b mod 16 * 4 + c / 64);
                        tchar table (c mod 64)])
     /\ (len bs mod 3 = 1 ->
         exists pre a,
           bs = pre ++ [a] /\ len pre mod 3 = 0
           /\ enc bs = enc pre
                       ++ [tchar table (a / 4); tchar table (a mod 4 * 16)]
                       ++ [EQ; EQ]
           /\ tchar table (a / 4) <> EQ
           /\ tchar table (a mod 4 * 16) <> EQ)
     /\ (len bs mod 3 = 2 ->
         exists pre a b,
           bs = pre ++ [a; b] /\ len pre mod 3 = 0
           /\ enc bs = enc pre
                       ++ [tchar table (a / 4);
                           tchar table (a mod 4 * 16 + b / 16);
                           tchar table (b mod 16 * 4)]
                       ++ [EQ]
           /\ tchar table (a / 4) <> EQ
           /\ tchar table (a mod 4 * 16 + b / 16) <> EQ
           /\ tchar table (b mod 16 * 4) <> EQ))
  /\ encodeBase64FromBytes [97] noOptions = str "YQ=="
  /\ encodeBase64FromBytes [97; 98] noOptions = str "YWI="
  /\ encodeBase64FromBytes [97; 98; 99] noOptions = str "YWJj".
Proof.
  split; [|repeat split; vm_compute; reflexivity].
  intros v p bs Hp Hbs table enc.
  assert (forall b, enc b = encodeRef table b) as Henc
    by (intros b; subst enc; cbv beta; apply encode_preserve, Hp).
  destruct (matched_tables v) as (Hl & _ & Hne). fold table in Hl, Hne.
  destruct (whole_groups_split bs) as (Hsplit & HA & HlenA & HlenT).
  set (A := firstn _ bs) in *. set (T := skipn _ bs) in *.
  assert (len A mod 3 = 0) as HA3
    by (unfold len; change 3 with (Z.of_nat 3);
        rewrite <- Nat2Z.inj_mod, HA; reflexivity).
  assert (is_bytes T) as HT
    by (unfold is_bytes in *; rewrite Hsplit in Hbs;
        apply Forall_app in Hbs; tauto).
  split; [|split].
  - intros Hmod. rewrite !Henc, encodeRef_whole by assumption.
    split; [apply encodeFull_no_EQ, Hne|]. split.
    + rewrite <- encodeRef_whole, encodeRef_len by assumption.
      unfold ceilDiv. zdm.
    + intros a b c Ha Hb Hc. rewrite Henc.
      rewrite encodeRef_app by (apply len_mod3_nat, Hmod).
      destruct (sextets_of_bytes a b c Ha Hb Hc) as (E18 & E12 & E6 & E0).
      unfold encodeRef. cbn [encodeBody group4 List.length padCount
        Nat.modulo Nat.divmod fst snd Nat.sub repeat app].
      rewrite E18, E12, E6, E0. reflexivity.
  - intros Hmod. rewrite Hmod in HlenT.
    destruct T as [|a [|b T]]; try discriminate;
      [|exfalso; rewrite !len_cons in HlenT; pose proof (len_nonneg T); lia].
    exists A, a. apply Forall_inv in HT.
    destruct (sextets_of_bytes a 0 0 HT zero_is_byte zero_is_byte)
      as (E18 & E12 & _).
    change (0 / 16) with 0 in E12. rewrite Z.add_0_r in E12.
    pose proof (sextet_range (triple3 a 0 0) 18 ltac:(lia)) as R18.
    pose proof (sextet_range (triple3 a 0 0) 12 ltac:(lia)) as R12.
    rewrite E18 in R18. rewrite E12 in R12.
    repeat split; auto.
    rewrite !Henc, (encodeRef_whole table A) by assumption.
    rewrite Hsplit at 1. rewrite encodeRef_app by assumption.
    unfold encodeRef. cbn [encodeBody group4 firstn List.length padCount
      Nat.modulo Nat.divmod fst snd Nat.sub repeat app].
    rewrite E18, E12. reflexivity.
  - intros Hmod. rewrite Hmod in HlenT.
    destruct T as [|a [|b [|c T]]]; try discriminate;
      [|exfalso; rewrite !len_cons in HlenT; pose proof (len_nonneg T); lia].
    exists A, a, b.
    pose proof (Forall_inv HT) as Ha.
    pose proof (Forall_inv (Forall_inv_tail HT)) as Hb.
    destruct (sextets_of_bytes a b 0 Ha Hb zero_is_byte)
      as (E18 & E12 & E6 & _).
    change (0 / 64) with 0 in E6. rewrite Z.add_0_r in E6.
    pose proof (sextet_range (triple3 a b 0) 18 ltac:(lia)) as R18.
    pose proof (sextet_range (triple3 a b 0) 12 ltac:(lia)) as R12.
    pose proof (sextet_range (triple3 a b 0) 6 ltac:(lia)) as R6.
    rewrite E18 in R18. rewrite E12 in R12. rewrite E6 in R6.
    repeat split; auto.
    rewrite !Henc, (encodeRef_whole table A) by assumption.
    rewrite Hsplit at 1. rewrite encodeRef_app by assumption.
    unfold encodeRef. cbn [encodeBody group4 firstn List.length padCount
      Nat.modulo Nat.divmod fst snd Nat.sub repeat app].
    rewrite E18, E12, E6. reflexivity.
Qed.

Lemma encode_tail_padding_witness :
  is_bytes [104; 101; 108; 108; 111]
  /\ exists pre a b,
       [104; 101; 108; 108; 111] = pre ++ [a; b]
       /\ encodeBase64FromBytes [104; 101; 108; 108; 111] noOptions
          = encodeBase64FromBytes pre noOptions
            ++ [tchar B64_STD (a / 4); tchar B64_STD (a mod 4 * 16 + b / 16);
                tchar B64_STD (b mod 16 * 4)]
            ++ [EQ].
Proof.
  assert (is_bytes [104; 101; 108; 108; 111]) as Hb
    by (repeat constructor; unfold is_byte; lia).
  split; [exact Hb|].
  destruct (proj1 encode_tail_padding None None [104; 101; 108; 108; 111]
              ltac:(discriminate) Hb) as (_ & _ & H2).
  destruct (H2 eq_refl) as (pre & a & b & E & _ & Hout & _).
  exists pre, a, b. split; [exact E | exact Hout].
Defined.

(** C9. The encoder, which works in batches of [chunkSize] bytes, returns
    with the default options the string the re-encoder of the decoder
    returns with the standard alphabet. *)
Theorem encode_batches_equal_raw (bs : list Z) :
  encodeBase64FromBytes bs noOptions
  = encodeBytesToBase64Raw bs B64_STD_ALPH
  /\ encodeBase64FromBytes bs
       (mkOptions (Some standard) (Some preserve) None)
     = encodeBytesToBase64Raw bs B64_STD_ALPH.
Proof.
  unfold noOptions. rewrite !encode_preserve by discriminate.
  rewrite (encodeBytesToBase64Raw_spec B64_STD_ALPH B64_STD_len).
  split; reflexivity.
Qed.

(** C10. With the padding preserved the encoding of [n] bytes has
    [4 * ceil(n / 3)] characters, with the padding stripped
    [ceil(4 * n / 3)], and the stripped encoding does not end in ['=']. *)
Theorem encode_length (bs : list Z) (v : option Base64Variant) :
  len (encodeBase64FromBytes bs (mkOptions v None None))
  = 4 * ceilDiv (len bs) 3
  /\ len (encodeBase64FromBytes bs (mkOptions v (Some preserve) None))
     = 4 * ceilDiv (len bs) 3
  /\ len (encodeBase64FromBytes bs (mkOptions v (Some strip) None))
     = ceilDiv (4 * len bs) 3
  /\ endsWith (encodeBase64FromBytes bs (mkOptions v (Some strip) None)) [EQ]
     = false.
Proof.
  rewrite !encode_preserve by discriminate. rewrite encode_strip.
  rewrite encodeRef_len, encodeBody_len. repeat split.
  apply endsWith_false. intros p. apply no_EQ_suffix, encodeBody_no_EQ.
Qed.

(** C1. Decoding the encoding of a byte buffer, for each variant and each
    choice of padding, without wrapping, gives the buffer back. *)
Theorem decode_encode_roundtrip bs v p dopts :
  is_bytes bs ->
  decodeBase64ToBytes (encodeBase64FromBytes bs (mkOptions v p None)) dopts
  = Ok bs.
Proof.
  intros Hbs. rewrite encode_unwrapped by reflexivity.
  cbn [padding variant].
  destruct p as [[|]|];
    rewrite ?stripTrailingEq_encodeRef;
    auto using decode_padded_encoding, decode_stripped_encoding.
Qed.

Lemma decode_encode_roundtrip_witness :
  is_bytes [0; 1; 255; 128; 64]
  /\ decodeBase64ToBytes
       (encodeBase64FromBytes [0; 1; 255; 128; 64]
          (mkOptions (Some url) (Some strip) None)) strictMode
     = Ok [0; 1; 255; 128; 64].
Proof.
  assert (is_bytes [0; 1; 255; 128; 64]) as Hb
    by (repeat constructor; unfold is_byte; lia).
  split; [exact Hb | exact (decode_encode_roundtrip _ _ _ _ Hb)].
Defined.

(* ================================================================== *)
(** ** Properties of the decoder                                       *)
(* ================================================================== *)



(** C4, as the code has it.  An input whose cleaned length is 1 mod 4 fails
    in both modes: with the mixed-alphabet error when it has characters of
    both alphabets, with the length error otherwise; ["Y"] fails with the
    length error in both modes. *)
Theorem length_1_mod_4_fails :
  (forall input opts,
     let cleaned := stripWhitespace input in
     len cleaned mod 4 = 1 ->
     decodeBase64ToBytes input opts
     = if isUrlText cleaned && isStdText cleaned
       then Err MixedAlphabet else Err InvalidLength)
  /\ decodeBase64ToBytes (str "Y") strictMode = Err InvalidLength
  /\ decodeBase64ToBytes (str "Y") looseMode = Err InvalidLength.
Proof.
  split; [|split; vm_compute; reflexivity].
  intros input opts cleaned Hmod. rewrite decode_cleaned. cbv zeta.
  fold cleaned. destruct (isUrlText cleaned && isStdText cleaned);
    [reflexivity|].
  unfold decodeCleaned. rewrite Hmod. destruct (loose opts); reflexivity.
Qed.

Lemma length_1_mod_4_fails_witness :
  len (stripWhitespace (str "YWJjZ")) mod 4 = 1
  /\ decodeBase64ToBytes (str "YWJjZ") looseMode = Err InvalidLength.
Proof.
  split; [reflexivity|].
  exact (proj1 length_1_mod_4_fails (str "YWJjZ") looseMode eq_refl).
Defined.

(** C4, as stated, fails: an input of cleaned length 5 that has ['+'] and
    ['-'] fails with the mixed-alphabet error, not with the length error. *)
Lemma length_error_preempted :
  str "+-AAA" <> []
  /\ len (stripWhitespace (str "+-AAA")) mod 4 = 1
  /\ decodeBase64ToBytes (str "+-AAA") strictMode = Err MixedAlphabet
  /\ decodeBase64ToBytes (str "+-AAA") looseMode = Err MixedAlphabet
  /\ decodeBase64ToBytes (str "+-AAA") strictMode <> Err InvalidLength
  /\ decodeBase64ToBytes (str "+-AAA") looseMode <> Err InvalidLength.
Proof.
  repeat split; try (vm_compute; reflexivity); vm_compute; discriminate.
Qed.

(** C5. An input whose cleaned text has a character of [-_] and a character
    of [+/] fails with the mixed-alphabet error in both modes; without a
    character of either class the standard alphabet is selected. *)
Theorem mixed_alphabet_rejected input opts :
  let cleaned := stripWhitespace input in
  (isUrlText cleaned = true -> isStdText cleaned = true ->
   decodeBase64ToBytes input opts = Err MixedAlphabet)
  /\ (isUrlText cleaned = false -> isStdText cleaned = false ->
      lookupOf cleaned = B64_STD_LOOKUP /\ alphOf cleaned = B64_STD_ALPH
      /\ decodeBase64ToBytes input opts
         = decodeCleaned B64_STD_LOOKUP B64_STD_ALPH cleaned opts).
Proof.
  intros cleaned. rewrite decode_cleaned. cbv zeta. fold cleaned.
  unfold lookupOf, alphOf. split; intros -> ->; auto.
Qed.

Lemma mixed_alphabet_rejected_witness :
  isUrlText (stripWhitespace (str "ab+-")) = true
  /\ isStdText (stripWhitespace (str "ab+-")) = true
  /\ decodeBase64ToBytes (str "ab+-") strictMode = Err MixedAlphabet
  /\ decodeBase64ToBytes (str "ab+-") looseMode = Err MixedAlphabet.
Proof.
  split; [reflexivity|]. split; [reflexivity|]. split.
  - exact (proj1 (mixed_alphabet_rejected (str "ab+-") strictMode)
             eq_refl eq_refl).
  - exact (proj1 (mixed_alphabet_rejected (str "ab+-") looseMode)
             eq_refl eq_refl).
Defined.

(** C6, as the code has it.  When the cleaned input passes the tests for
    mixed alphabets, for the length and, in the strict mode with a length
    of 0 mod 4, for the placement of the padding, and has a character other
    than ['='] that the lookup table of the selected alphabet lacks, the
    decoder fails with the invalid-character error, which carries a
    position. *)
Theorem invalid_character_rejected input opts c :
  let cleaned := stripWhitespace input in
  isUrlText cleaned && isStdText cleaned = false ->
  len cleaned mod 4 <> 1 ->
  (loose opts = false -> len cleaned mod 4 = 0 ->
   negb (indexOf cleaned EQ =? -1)
   && negb (isPaddingTail (sliceFrom cleaned (indexOf cleaned EQ))) = false) ->
  In c cleaned -> c <> EQ -> table_get (lookupOf cleaned) c = None ->
  exists position,
    decodeBase64ToBytes input opts = Err (InvalidCharacter position).
Proof.
  intros cleaned Hmixed Hlen Hpad Hin Hc Hnone.
  rewrite decode_cleaned. cbv zeta. fold cleaned. rewrite Hmixed.
  set (padded := cleaned ++ repeatChar EQ (4 - len cleaned mod 4)).
  assert (forall cl opts' verify,
            exists p, decodePadded (lookupOf cleaned) (alphOf cleaned) cl
                        padded opts' verify = Err (InvalidCharacter p))
    as Hpadded.
  { intros cl opts' verify.
    destruct (Z.eq_dec (len cleaned mod 4) 0) as [H0|H0].
    - assert (len padded mod 4 = 0) as Hp.
      { unfold padded. rewrite len_app, len_repeatChar by lia. zdm. }
      rewrite decodePadded_spec by assumption.
      destruct (decodeGroups_invalid (lookupOf cleaned) padded c Hp
                  ltac:(apply in_or_app; auto) Hc Hnone 0) as [p ->].
      eauto.
    - assert (len padded mod 4 = 0) as Hp
        by (destruct (padded_len cleaned Hlen); [assumption|lia]).
      rewrite decodePadded_spec by assumption.
      destruct (decodeGroups_invalid (lookupOf cleaned) padded c Hp
                  ltac:(apply in_or_app; auto) Hc Hnone 0) as [p ->].
      eauto. }
  assert (len cleaned mod 4 = 0 ->
          forall cl opts' verify,
            exists p, decodePadded (lookupOf cleaned) (alphOf cleaned) cl
                        cleaned opts' verify = Err (InvalidCharacter p))
    as Hcleaned.
  { intros H0 cl opts' verify.
    rewrite decodePadded_spec by assumption.
    destruct (decodeGroups_invalid (lookupOf cleaned) cleaned c H0
                Hin Hc Hnone 0) as [p ->].
    eauto. }
  unfold decodeCleaned. fold padded.
  assert ((len cleaned mod 4 =? 1) = false) as -> by (apply Z.eqb_neq; lia).
  destruct (Z.eqb_spec (len cleaned mod 4) 0) as [H0|H0].
  - assert ((len cleaned mod 4 =? 2) || (len cleaned mod 4 =? 3) = false)
      as -> by (rewrite H0; reflexivity).
    cbn [negb]. destruct (loose opts) eqn:Hl; [apply Hcleaned, H0|].
    rewrite (Hpad eq_refl H0). apply Hcleaned, H0.
  - assert ((len cleaned mod 4 =? 2) || (len cleaned mod 4 =? 3) = true)
      as -> by (apply orb_true_iff; rewrite !Z.eqb_eq; zdm).
    cbn [negb]. destruct (loose opts); apply Hpadded.
Qed.

Lemma invalid_character_rejected_witness :
  In 33 (stripWhitespace (str "AB!D"))
  /\ table_get (lookupOf (stripWhitespace (str "AB!D"))) 33 = None
  /\ len (stripWhitespace (str "AB!D")) mod 4 = 0
  /\ exists position,
       decodeBase64ToBytes (str "AB!D") strictMode
       = Err (InvalidCharacter position).
Proof.
  assert (In 33 (stripWhitespace (str "AB!D"))) as Hin
    by (vm_compute; tauto).
  split; [exact Hin|]. split; [reflexivity|]. split; [reflexivity|].
  refine (invalid_character_rejected (str "AB!D") strictMode 33
            eq_refl _ _ Hin _ eq_refl).
  - vm_compute. discriminate.
  - intros _ _. reflexivity.
  - vm_compute. discriminate.
Defined.

(** C6, as stated, fails.  In the strict mode the test for the placement of
    the padding comes before the decoding loop: ["!=AA"] has the character
    ['!'], which no alphabet has, and fails with the padding error.  And
    the position the invalid-character error carries is the index of the
    group, not of the character: in ["AB!D"] the character ['!'] is at index
    2 and the error carries 0. *)
Lemma invalid_character_claim_fails :
  (In 33 (stripWhitespace (str "!=AA"))
   /\ table_get (lookupOf (stripWhitespace (str "!=AA"))) 33 = None
   /\ decodeBase64ToBytes (str "!=AA") strictMode = Err InvalidPadding)
  /\ (at_ (str "AB!D") 2 = Some 33
      /\ table_get (lookupOf (stripWhitespace (str "AB!D"))) 33 = None
      /\ (forall i c, at_ (str "AB!D") i = Some c -> i <> 2 ->
          table_get (lookupOf (stripWhitespace (str "AB!D"))) c <> None)
      /\ decodeBase64ToBytes (str "AB!D") strictMode
         = Err (InvalidCharacter 0)
      /\ decodeBase64ToBytes (str "AB!D") looseMode
         = Err (InvalidCharacter 0)).
Proof.
  split.
  - repeat split; try (vm_compute; reflexivity). vm_compute. tauto.
  - repeat split; try (vm_compute; reflexivity).
    intros i c Hat Hi.
    assert (i = 0 \/ i = 1 \/ i = 3) as [->|[->| ->]].
    { unfold at_ in Hat. destruct (Z.ltb_spec i 0); [discriminate|].
      assert (Z.to_nat i < List.length (str "AB!D"))%nat as Hlt
        by (apply nth_error_Some; rewrite Hat; discriminate).
      cbn in Hlt. lia. }
    all: vm_compute in Hat; injection Hat as <-; vm_compute; discriminate.
Qed.

(** C8. Whitespace inserted anywhere in an input changes neither whether the
    decoder fails, nor its error, nor the bytes it returns; ["aGVs\nbG8="]
    and ["aGVsbG8="] both decode to the bytes of ["hello"]. *)
Theorem whitespace_ignored :
  (forall t t' opts,
     InsertWs t t' ->
     decodeBase64ToBytes t' opts = decodeBase64ToBytes t opts)
  /\ decodeBase64ToBytes (str "aGVs" ++ [LF] ++ str "bG8=") strictMode
     = Ok [104; 101; 108; 108; 111]
  /\ decodeBase64ToBytes (str "aGVsbG8=") strictMode
     = Ok [104; 101; 108; 108; 111].
Proof.
  split; [|split; vm_compute; reflexivity].
  intros t t' opts H. rewrite !decode_cleaned. cbv zeta.
  rewrite (stripWhitespace_InsertWs t t' H). reflexivity.
Qed.

Lemma whitespace_ignored_witness :
  InsertWs (str "YWJj") ([32] ++ str "YW" ++ [9; 8232] ++ str "Jj" ++ [LF])
  /\ decodeBase64ToBytes
       ([32] ++ str "YW" ++ [9; 8232] ++ str "Jj" ++ [LF]) looseMode
     = decodeBase64ToBytes (str "YWJj") looseMode.
Proof.
  assert (InsertWs (str "YWJj")
            ([32] ++ str "YW" ++ [9; 8232] ++ str "Jj" ++ [LF])) as H.
  { cbn. apply InsertWs_ws; [reflexivity|]. do 2 apply InsertWs_keep.
    do 2 (apply InsertWs_ws; [reflexivity|]). do 2 apply InsertWs_keep.
    apply InsertWs_ws; [reflexivity|]. apply InsertWs_nil. }
  split; [exact H | exact (proj1 whitespace_ignored _ _ looseMode H)].
Defined.

(* ================================================================== *)
(** ** Properties of the line-wrap helper                              *)
(* ================================================================== *)

(** C7, as the code has it.  An absent, zero or negative width leaves the
    text unchanged.  For a positive width [w] a text of at most [w]
    characters is unchanged, and a longer one is its first [w] characters,
    a line break, and the wrapping of the rest.  Deleting the line breaks
    of the wrapped text gives the text without its own line breaks: the
    text itself when it has none. *)
Theorem wrapAt_spec (t : jsstring) :
  wrapAt t None = t
  /\ (forall w, w <= 0 -> wrapAt t (Some w) = t)
  /\ (forall w,
        0 < w ->
        (len t <= w -> wrapAt t (Some w) = t)
        /\ (w < len t ->
            wrapAt t (Some w)
            = firstn (Z.to_nat w) t ++ [LF]
              ++ wrapAt (skipn (Z.to_nat w) t) (Some w))
        /\ removeLineBreaks (wrapAt t (Some w)) = removeLineBreaks t
        /\ (~ In LF t -> removeLineBreaks (wrapAt t (Some w)) = t)).
Proof.
  split; [reflexivity|]. split.
  - intros w Hw. unfold wrapAt. destruct (Z_lt_dec 0 w); [lia|reflexivity].
  - intros w Hw.
    assert (removeLineBreaks (wrapAt t (Some w)) = removeLineBreaks t) as Hr
      by (apply (removeLineBreaks_wrapAt w Hw (List.length t)); lia).
    repeat split.
    + apply wrapAt_short, Hw.
    + apply wrapAt_long, Hw.
    + exact Hr.
    + intros Hno. rewrite Hr. apply removeLineBreaks_id, Hno.
Qed.

Lemma wrapAt_spec_witness :
  wrapAt (str "abcdefgh") (Some 4)
  = str "abcd" ++ [LF] ++ wrapAt (str "efgh") (Some 4)
  /\ wrapAt (str "efgh") (Some 4) = str "efgh"
  /\ removeLineBreaks (wrapAt (str "abcdefgh") (Some 4)) = str "abcdefgh"
  /\ wrapAt (str "abcdefgh") (Some (-3)) = str "abcdefgh".
Proof.
  destruct (wrapAt_spec (str "abcdefgh")) as (_ & Hneg & Hpos).
  destruct (Hpos 4 ltac:(lia)) as (_ & Hlong & _ & Hrm).
  destruct (wrapAt_spec (str "efgh")) as (_ & _ & Hpos').
  destruct (Hpos' 4 ltac:(lia)) as (Hshort & _).
  split; [exact (Hlong ltac:(vm_compute; reflexivity))|].
  split; [exact (Hshort ltac:(vm_compute; discriminate))|].
  split; [apply Hrm; vm_compute; intuition discriminate|].
  apply Hneg. lia.
Defined.

(** C7, as stated, fails: a text with a line break of its own is not what
    deleting the line breaks of its wrapping gives. *)
Lemma wrapAt_linebreak_lost :
  wrapAt [LF] (Some 1) = [LF]
  /\ removeLineBreaks (wrapAt [LF] (Some 1)) = []
  /\ removeLineBreaks (wrapAt [LF] (Some 1)) <> [LF]
  /\ removeLineBreaks (wrapAt (str "a" ++ [LF] ++ str "b") (Some 2))
     <> str "a" ++ [LF] ++ str "b".
Proof.
  repeat split; try (vm_compute; reflexivity); vm_compute; discriminate.
Qed.

(* ================================================================== *)
(** ** More on the decoder                                             *)
(* ================================================================== *)

Lemma paddedOf_mod4 cleaned :
  len cleaned mod 4 <> 1 -> len (paddedOf cleaned) mod 4 = 0.
Proof.
  intros H. unfold paddedOf.
  destruct (Z.eqb_spec (len cleaned mod 4) 0); [assumption|].
  destruct (padded_len cleaned H); [assumption|contradiction].
Qed.

(** The decoder, from the selection of the alphabet on, by cases. *)
Lemma decodeCleaned_cases lookup alph cleaned opts :
  decodeCleaned lookup alph cleaned opts
  = if len cleaned mod 4 =? 1 then Err InvalidLength
    else if negb (loose opts) && (len cleaned mod 4 =? 0)
            && paddingMisplaced cleaned
    then Err InvalidPadding
    else
      match decodeGroups lookup (paddedOf cleaned) 0 with
      | Err e => Err e
      | Ok bs =>
          let output :=
            outputOf (Z.to_nat (outputLenOf (paddedOf cleaned))) bs in
          if negb (loose opts) && negb (len cleaned mod 4 =? 0)
             && negb (streq (stripTrailingEq
                               (encodeBytesToBase64Raw output alph)) cleaned)
          then Err NonCanonical else Ok output
      end.
Proof.
  destruct (Z.eqb_spec (len cleaned mod 4) 1) as [H1|H1].
  { unfold decodeCleaned. rewrite H1. destruct (loose opts); reflexivity. }
  pose proof (paddedOf_mod4 cleaned H1) as Hp.
  destruct (Z.eqb_spec (len cleaned mod 4) 0) as [H0|H0].
  - unfold decodeCleaned, paddedOf in *. rewrite H0 in *.
    cbn [Z.eqb negb orb andb] in *. fold (paddingMisplaced cleaned).
    destruct (loose opts) eqn:Hl; cbn [negb andb].
    + rewrite decodePadded_spec by assumption. rewrite Hl.
      destruct (decodeGroups lookup cleaned 0); reflexivity.
    + destruct (paddingMisplaced cleaned); [reflexivity|].
      rewrite decodePadded_spec by assumption. rewrite Hl.
      destruct (decodeGroups lookup cleaned 0); reflexivity.
  - assert (len cleaned mod 4 = 2 \/ len cleaned mod 4 = 3) as Hmod by zdm.
    rewrite decodeCleaned_unpadded by assumption. cbv zeta.
    unfold paddedOf in *.
    destruct (Z.eqb_spec (len cleaned mod 4) 0); [contradiction|].
    rewrite andb_false_r. cbn [andb negb].
    destruct (decodeGroups lookup _ 0); [|reflexivity].
    destruct (loose opts); cbn [negb andb]; [reflexivity|].
    destruct (streq _ cleaned); reflexivity.
Qed.

Lemma land_255_byte x : is_byte (Z.land x 255).
Proof.
  unfold is_byte. change 255 with (Z.ones 8). rewrite Z.land_ones by lia.
  apply Z.mod_pos_bound. reflexivity.
Qed.

Lemma tripleBytes_bytes v : is_bytes (tripleBytes v).
Proof.
  destruct v as [[[a b] c] d]. unfold tripleBytes.
  repeat constructor; apply land_255_byte.
Qed.

(** The groups decode to bytes, three for each group. *)
Lemma decodeGroups_bytes lookup rest :
  len rest mod 4 = 0 ->
  forall i bs,
    decodeGroups lookup rest i = Ok bs ->
    is_bytes bs /\ len bs = 3 * (len rest / 4).
Proof.
  intros Hrest. pattern rest. apply quads_ind; [| |exact Hrest]; clear.
  - intros i bs H. injection H as <-. split; [constructor|reflexivity].
  - intros ca cb cc cd rest IH i bs H. cbn [decodeGroups] in H.
    destruct (valuesOf lookup ca cb cc cd) as [v|]; [|discriminate].
    destruct (decodeGroups lookup rest (i + 4)) as [bs'|] eqn:E;
      [|discriminate].
    injection H as <-. destruct (IH _ _ E) as [Hb Hl]. split.
    + apply Forall_app. split; [apply tripleBytes_bytes | exact Hb].
    + rewrite len_app, Hl, !len_cons.
      destruct v as [[[a b] c] d]. change (len (tripleBytes (a, b, c, d)))
        with 3. pose proof (len_nonneg rest). zdm.
Qed.

Lemma outputOf_len n bs : len (outputOf n bs) = Z.of_nat n.
Proof.
  unfold outputOf, len. rewrite length_app, repeat_length.
  pose proof (firstn_le_length n bs). lia.
Qed.

Lemma outputOf_bytes n bs : is_bytes bs -> is_bytes (outputOf n bs).
Proof.
  intros H. unfold outputOf. apply Forall_app. split.
  - apply Forall_firstn, H.
  - apply Forall_repeat, zero_is_byte.
Qed.

(** What a successful call returns. *)
Lemma decode_success input opts B :
  decodeBase64ToBytes input opts = Ok B ->
  let cleaned := stripWhitespace input in
  len cleaned mod 4 <> 1
  /\ exists bs,
       decodeGroups (lookupOf cleaned) (paddedOf cleaned) 0 = Ok bs
       /\ B = outputOf (Z.to_nat (outputLenOf (paddedOf cleaned))) bs.
Proof.
  rewrite decode_cleaned. cbv zeta. intros H.
  set (cleaned := stripWhitespace input) in *.
  destruct (isUrlText cleaned && isStdText cleaned); [discriminate|].
  rewrite decodeCleaned_cases in H.
  destruct (Z.eqb_spec (len cleaned mod 4) 1); [discriminate|].
  split; [assumption|].
  destruct (negb (loose opts) && (len cleaned mod 4 =? 0)
            && paddingMisplaced cleaned); [discriminate|].
  destruct (decodeGroups (lookupOf cleaned) (paddedOf cleaned) 0) as [bs|];
    [|discriminate].
  exists bs. split; [reflexivity|]. cbv zeta in H.
  destruct (negb (loose opts) && negb (len cleaned mod 4 =? 0) && _);
    [discriminate|]. injection H as <-. reflexivity.
Qed.

(** X1. Whatever the decoder returns is a buffer of bytes. *)
Theorem decode_returns_bytes input opts B :
  decodeBase64ToBytes input opts = Ok B -> is_bytes B.
Proof.
  intros H. destruct (decode_success input opts B H) as (Hm & bs & Hg & ->).
  apply outputOf_bytes.
  exact (proj1 (decodeGroups_bytes _ _ (paddedOf_mod4 _ Hm) _ _ Hg)).
Qed.

Lemma decode_returns_bytes_witness :
  decodeBase64ToBytes (str "//8=") strictMode = Ok [255; 255]
  /\ is_bytes [255; 255].
Proof.
  assert (decodeBase64ToBytes (str "//8=") strictMode = Ok [255; 255]) as H
    by (vm_compute; reflexivity).
  split; [exact H | exact (decode_returns_bytes _ _ _ H)].
Defined.

(** A text is its part without the trailing ['='], which does not end in
    ['='], followed by some ['=']. *)
Lemma dropWhileEq_split r :
  exists k, r = repeat EQ k ++ dropWhileEq r
            /\ forall q, dropWhileEq r <> EQ :: q.
Proof.
  induction r as [|c r (k & Hk & Hq)].
  - exists 0%nat. split; [reflexivity|discriminate].
  - cbn [dropWhileEq]. destruct (Z.eqb_spec c 61) as [->|Hc].
    + exists (S k). split; [cbn; f_equal; exact Hk | exact Hq].
    + exists 0%nat. split; [reflexivity|]. intros q E. injection E as E _.
      contradiction.
Qed.

Lemma stripTrailingEq_split s :
  exists k, s = stripTrailingEq s ++ repeat EQ k
            /\ forall p, stripTrailingEq s <> p ++ [EQ].
Proof.
  unfold stripTrailingEq.
  destruct (dropWhileEq_split (rev s)) as (k & Hk & Hq).
  exists k. split.
  - rewrite <- (rev_involutive s) at 1. rewrite Hk at 1.
    rewrite rev_app_distr, rev_repeat. reflexivity.
  - intros p E. apply (f_equal (@rev Z)) in E.
    rewrite rev_involutive, rev_app_distr in E. exact (Hq _ E).
Qed.

Lemma stripTrailingEq_app_repeat s j :
  stripTrailingEq (s ++ repeat EQ j) = stripTrailingEq s.
Proof.
  unfold stripTrailingEq.
  rewrite rev_app_distr, rev_repeat, dropWhileEq_repeat. reflexivity.
Qed.

Lemma pads_counted_end body (k : nat) :
  (forall p, body <> p ++ [EQ]) -> (k <= 2)%nat ->
  (if endsWith (body ++ repeat EQ k) [EQ; EQ] then 2
   else if endsWith (body ++ repeat EQ k) [EQ] then 1 else 0) = Z.of_nat k.
Proof.
  intros Hb Hk. destruct k as [|[|[|k]]]; [| | |lia]; cbn [repeat].
  - rewrite app_nil_r.
    rewrite !endsWith_false; [reflexivity|exact Hb|].
    intros p E. apply (Hb (p ++ [EQ])). rewrite <- app_assoc. exact E.
  - rewrite endsWith_false.
    + assert (endsWith (body ++ [EQ]) [EQ] = true) as ->; [|reflexivity].
      apply endsWith_iff. eauto.
    + intros p E. change (p ++ [EQ; EQ]) with (p ++ [EQ] ++ [EQ]) in E.
      rewrite app_assoc in E. apply app_inj_tail in E. destruct E as [E _].
      exact (Hb _ E).
  - assert (endsWith (body ++ [EQ; EQ]) [EQ; EQ] = true) as ->;
      [|reflexivity].
    apply endsWith_iff. eauto.
Qed.

(** The second character of the last group of a text that decodes has a
    value. *)
Lemma decodeGroups_last_group lookup l a b c d :
  len l mod 4 = 0 ->
  forall i bs,
    decodeGroups lookup (l ++ [a; b; c; d]) i = Ok bs ->
    table_get lookup b <> None.
Proof.
  intros Hl. pattern l. apply quads_ind; [| |exact Hl]; clear Hl l.
  - intros i bs H. cbn [app decodeGroups] in H. unfold valuesOf in H.
    intros Hb. rewrite Hb in H.
    destruct (table_get lookup a); discriminate.
  - intros ca cb cc cd l IH i bs H. cbn [app decodeGroups] in H.
    destruct (valuesOf lookup ca cb cc cd); [|discriminate].
    destruct (decodeGroups lookup (l ++ [a; b; c; d]) (i + 4)) eqn:E;
      [|discriminate].
    exact (IH _ _ E).
Qed.

Lemma lookupOf_EQ cleaned : table_get (lookupOf cleaned) EQ = None.
Proof. unfold lookupOf. destruct (isUrlText cleaned); reflexivity. Qed.

(** A text that decodes ends with at most two ['=']. *)
Lemma decodeGroups_pads cleaned body (k : nat) i bs :
  len (body ++ repeat EQ k) mod 4 = 0 ->
  decodeGroups (lookupOf cleaned) (body ++ repeat EQ k) i = Ok bs ->
  (k <= 2)%nat.
Proof.
  intros Hlen H.
  destruct (Nat.le_gt_cases k 2) as [|Hk]; [assumption|exfalso].
  rewrite len_app in Hlen. unfold len at 2 in Hlen.
  rewrite repeat_length in Hlen.
  assert (exists l a, body ++ repeat EQ k = l ++ [a; EQ; EQ; EQ]
                      /\ len l mod 4 = 0) as (l & a & E & Hl).
  { destruct k as [|[|[|k]]]; try lia.
    replace (S (S (S k))) with (k + 3)%nat by lia.
    rewrite repeat_app. cbn [repeat].
    destruct k as [|k].
    - cbn [repeat app].
      destruct (exists_last (l := body)) as (l & a & ->).
      { intros ->. cbn in Hlen. discriminate. }
      exists l, a. rewrite <- app_assoc. split; [reflexivity|].
      rewrite len_app in Hlen. change (len [a]) with 1 in Hlen. zdm.
    - exists (body ++ repeat EQ k), EQ. split.
      + replace (S k) with (k + 1)%nat by lia.
        rewrite repeat_app, <- !app_assoc. reflexivity.
      + rewrite len_app. unfold len at 2. rewrite repeat_length. zdm. }
  rewrite E in H.
  exact (decodeGroups_last_group _ _ _ _ _ _ Hl _ _ H (lookupOf_EQ cleaned)).
Qed.

(** X2. The number of bytes the decoder returns is three quarters, rounded
    down, of the number of characters of the cleaned input without its
    trailing ['=']. *)
Theorem decode_length input opts B :
  decodeBase64ToBytes input opts = Ok B ->
  len B = 3 * len (stripTrailingEq (stripWhitespace input)) / 4.
Proof.
  intros H. destruct (decode_success input opts B H) as (Hm & bs & Hg & ->).
  set (cleaned := stripWhitespace input) in *.
  pose proof (paddedOf_mod4 cleaned Hm) as Hp.
  rewrite outputOf_len, Z2Nat.id by (apply outputLenOf_nonneg, Hp).
  assert (stripTrailingEq (paddedOf cleaned) = stripTrailingEq cleaned)
    as Hstrip.
  { unfold paddedOf, repeatChar.
    destruct (len cleaned mod 4 =? 0); [reflexivity|].
    apply stripTrailingEq_app_repeat. }
  destruct (stripTrailingEq_split (paddedOf cleaned)) as (k & Hk & Hend).
  rewrite Hstrip in Hk, Hend.
  unfold outputLenOf. rewrite Hk in Hp, Hg |- *.
  pose proof (decodeGroups_pads cleaned _ k 0 bs Hp Hg) as Hk2.
  rewrite pads_counted_end by assumption.
  rewrite len_app in Hp |- *. unfold len at 2 in Hp. unfold len at 2.
  rewrite repeat_length in *.
  pose proof (len_nonneg (stripTrailingEq cleaned)). zdm.
Qed.

Lemma decode_length_witness :
  decodeBase64ToBytes (str "aGVsbG8") looseMode
  = Ok [104; 101; 108; 108; 111]
  /\ len [104; 101; 108; 108; 111]
     = 3 * len (stripTrailingEq (stripWhitespace (str "aGVsbG8"))) / 4.
Proof.
  assert (decodeBase64ToBytes (str "aGVsbG8") looseMode
          = Ok [104; 101; 108; 108; 111]) as H by (vm_compute; reflexivity).
  split; [exact H | exact (decode_length _ _ _ H)].
Defined.

Lemma at_cons4 {A} (a b c d : A) l j :
  0 <= j -> at_ (a :: b :: c :: d :: l) (4 + j) = at_ l j.
Proof.
  intros Hj. exact (at_app_r [a; b; c; d] l j Hj).
Qed.

(** The group an invalid-character error points at has a character that
    the loop does not accept, and the groups before it decode. *)
Lemma decodeGroups_error lookup rest :
  forall i p,
    decodeGroups lookup rest i = Err (InvalidCharacter p) ->
    i <= p < i + len rest /\ (p - i) mod 4 = 0
    /\ (exists k c,
          0 <= k < 4 /\ at_ rest (p - i + k) = Some c
          /\ table_get lookup c = None /\ (c <> EQ \/ k < 2))
    /\ exists bs,
         decodeGroups lookup (firstn (Z.to_nat (p - i)) rest) i = Ok bs.
Proof.
  induction rest as [|a|a b|a b c|ca cb cc cd rest IH] using list_ind4;
    intros i p H; try discriminate.
  cbn [decodeGroups] in H. rewrite !len_cons.
  pose proof (len_nonneg rest) as Hn.
  destruct (valuesOf lookup ca cb cc cd) eqn:Hv.
  - destruct (decodeGroups lookup rest (i + 4)) as [bs|e] eqn:E;
      [discriminate|].
    injection H as ->.
    destruct (IH _ _ E) as (Hr & Hm & (k & c & Hk & Hat & Hc) & bs & Hbs).
    split; [lia|]. split; [zdm|]. split.
    + exists k, c. split; [exact Hk|]. split; [|exact Hc].
      replace (p - i + k) with (4 + (p - (i + 4) + k)) by lia.
      rewrite at_cons4 by lia. exact Hat.
    + replace (Z.to_nat (p - i)) with (4 + Z.to_nat (p - (i + 4)))%nat
        by lia.
      cbn [Nat.add firstn decodeGroups]. rewrite Hv, Hbs. eauto.
  - injection H as <-. split; [lia|]. rewrite Z.sub_diag.
    split; [reflexivity|]. split; [|exists []; reflexivity].
    unfold valuesOf, padValue in Hv.
    destruct (table_get lookup ca) eqn:Ea;
      [|exists 0, ca; repeat split; auto; lia].
    destruct (table_get lookup cb) eqn:Eb;
      [|exists 1, cb; repeat split; auto; lia].
    destruct (Z.eqb_spec cc EQ) as [Hcc|Hcc].
    + destruct (Z.eqb_spec cd EQ) as [Hcd|Hcd]; [discriminate|].
      destruct (table_get lookup cd) eqn:Ed; [discriminate|].
      exists 3, cd. repeat split; auto; lia.
    + destruct (table_get lookup cc) eqn:Ec.
      * destruct (Z.eqb_spec cd EQ) as [Hcd|Hcd]; [discriminate|].
        destruct (table_get lookup cd) eqn:Ed; [discriminate|].
        exists 3, cd. repeat split; auto; lia.
      * exists 2, cc. repeat split; auto; lia.
Qed.

Lemma decodeGroups_error_kind lookup rest :
  forall i e, decodeGroups lookup rest i = Err e ->
              exists p, e = InvalidCharacter p.
Proof.
  induction rest as [|a|a b|a b c|ca cb cc cd rest IH] using list_ind4;
    intros i e H; try discriminate.
  cbn [decodeGroups] in H.
  destruct (valuesOf lookup ca cb cc cd).
  - destruct (decodeGroups lookup rest (i + 4)) as [bs|e'] eqn:E;
      [discriminate|]. injection H as <-. eauto.
  - injection H as <-. eauto.
Qed.

(** X3. The position of an invalid-character error is the index, in the
    cleaned input padded to whole groups, of the first group of four that
    has a character without a value in the lookup table, other than a
    ['='] at the third or fourth place: a multiple of 4, not in general the
    index of the character. *)
Theorem invalid_character_position input opts p :
  decodeBase64ToBytes input opts = Err (InvalidCharacter p) ->
  let cleaned := stripWhitespace input in
  let padded := paddedOf cleaned in
  p mod 4 = 0 /\ 0 <= p < len padded
  /\ (exists k c,
        0 <= k < 4 /\ at_ padded (p + k) = Some c
        /\ table_get (lookupOf cleaned) c = None /\ (c <> EQ \/ k < 2))
  /\ exists bs, decodeGroups (lookupOf cleaned)
                  (firstn (Z.to_nat p) padded) 0 = Ok bs.
Proof.
  rewrite decode_cleaned. cbv zeta. intros H.
  set (cleaned := stripWhitespace input) in *.
  destruct (isUrlText cleaned && isStdText cleaned); [discriminate|].
  rewrite decodeCleaned_cases in H.
  destruct (len cleaned mod 4 =? 1); [discriminate|].
  destruct (negb (loose opts) && (len cleaned mod 4 =? 0)
            && paddingMisplaced cleaned); [discriminate|].
  destruct (decodeGroups (lookupOf cleaned) (paddedOf cleaned) 0) as [bs|e]
    eqn:Hg.
  { cbv zeta in H.
    destruct (negb (loose opts) && negb (len cleaned mod 4 =? 0) && _);
      discriminate. }
  injection H as ->.
  destruct (decodeGroups_error _ _ _ _ Hg) as (Hr & Hm & Hc & Hbs).
  rewrite Z.sub_0_r in *. split; [exact Hm|]. split; [lia|].
  split; assumption.
Qed.

Lemma invalid_character_position_witness :
  decodeBase64ToBytes (str "YWJjZGV%") strictMode = Err (InvalidCharacter 4)
  /\ at_ (paddedOf (stripWhitespace (str "YWJjZGV%"))) (4 + 3) = Some 37
  /\ 4 mod 4 = 0.
Proof.
  assert (decodeBase64ToBytes (str "YWJjZGV%") strictMode
          = Err (InvalidCharacter 4)) as H by (vm_compute; reflexivity).
  split; [exact H|]. split; [reflexivity|].
  exact (proj1 (invalid_character_position _ _ _ H)).
Defined.

Lemma indexOf_from_cases s :
  forall i,
    (Forall (fun x => x <> EQ) s /\ indexOf_from i s EQ = -1)
    \/ exists p q, s = p ++ EQ :: q /\ Forall (fun x => x <> EQ) p
                   /\ indexOf_from i s EQ = i + len p.
Proof.
  induction s as [|x s IH]; intros i.
  - left. split; [constructor|reflexivity].
  - cbn [indexOf_from]. destruct (Z.eqb_spec x EQ) as [->|Hx].
    + right. exists [], s. repeat split; [constructor|cbn; lia].
    + destruct (IH (i + 1)) as [[Hs Hi]|(p & q & -> & Hp & Hi)].
      * left. split; [constructor; assumption|exact Hi].
      * right. exists (x :: p), q. repeat split.
        -- constructor; assumption.
        -- rewrite Hi, len_cons. lia.
Qed.

Lemma isPaddingTail_cons q :
  isPaddingTail (EQ :: q) = false <-> q <> [] /\ q <> [EQ].
Proof.
  unfold isPaddingTail. rewrite orb_false_iff. split.
  - intros [H1 H2]. split; intros ->.
    + assert (streq [EQ] [EQ] = true) by (apply streq_true; reflexivity).
      congruence.
    + assert (streq [EQ; EQ] [EQ; EQ] = true)
        by (apply streq_true; reflexivity).
      congruence.
  - intros [H1 H2]. split.
    + destruct (streq (EQ :: q) [EQ]) eqn:E; [|reflexivity].
      apply streq_true in E. injection E as E. contradiction.
    + destruct (streq (EQ :: q) [EQ; EQ]) eqn:E; [|reflexivity].
      apply streq_true in E. injection E as E. contradiction.
Qed.

(** The padding is misplaced when something other than ["="] and ["=="]
    starts at the first ['=']. *)
Lemma paddingMisplaced_iff s :
  paddingMisplaced s = true
  <-> exists p q, s = p ++ EQ :: q /\ ~ In EQ p /\ q <> [] /\ q <> [EQ].
Proof.
  unfold paddingMisplaced, indexOf. split.
  - intros H. apply andb_true_iff in H. destruct H as [H1 H2].
    apply negb_true_iff in H1, H2. apply Z.eqb_neq in H1.
    destruct (indexOf_from_cases s 0) as [[_ Hi]|(p & q & -> & Hp & Hi)];
      [contradiction|].
    rewrite Hi, Z.add_0_l, sliceFrom_app in H2.
    apply isPaddingTail_cons in H2. exists p, q.
    repeat split; try tauto.
    intros Hin. rewrite Forall_forall in Hp. exact (Hp _ Hin eq_refl).
  - intros (p & q & -> & Hp & Hq).
    assert (Forall (fun x => x <> EQ) p) as HF
      by (apply Forall_forall; intros x Hx ->; contradiction).
    rewrite indexOf_from_first by assumption. rewrite Z.add_0_l.
    rewrite sliceFrom_app. apply andb_true_iff. split.
    + apply negb_true_iff, Z.eqb_neq. pose proof (len_nonneg p). lia.
    + apply negb_true_iff, isPaddingTail_cons. exact Hq.
Qed.

(** X4. The situation of each error.  The mixed-alphabet error: the cleaned
    input has characters of both classes.  The length error: it has not,
    and its length is 1 mod 4.  The padding error: it has not, the mode is
    strict, the length is 0 mod 4 and something other than ["="] and ["=="]
    starts at the first ['=']. The non-canonical error: only in the strict
    mode with a length of 2 or 3 mod 4. *)
Theorem decode_error_situations input opts :
  let cleaned := stripWhitespace input in
  let mixed := isUrlText cleaned && isStdText cleaned in
  (decodeBase64ToBytes input opts = Err MixedAlphabet <-> mixed = true)
  /\ (decodeBase64ToBytes input opts = Err InvalidLength
      <-> mixed = false /\ len cleaned mod 4 = 1)
  /\ (decodeBase64ToBytes input opts = Err InvalidPadding
      <-> mixed = false /\ loose opts = false /\ len cleaned mod 4 = 0
          /\ exists p q, cleaned = p ++ EQ :: q /\ ~ In EQ p
                         /\ q <> [] /\ q <> [EQ])
  /\ (decodeBase64ToBytes input opts = Err NonCanonical ->
      mixed = false /\ loose opts = false
      /\ (len cleaned mod 4 = 2 \/ len cleaned mod 4 = 3)).
Proof.
  intros cleaned mixed. rewrite decode_cleaned. cbv zeta.
  fold cleaned. fold mixed. rewrite <- paddingMisplaced_iff.
  destruct mixed.
  { repeat split; try discriminate; try tauto; intros H; exfalso;
      intuition discriminate. }
  rewrite decodeCleaned_cases.
  pose proof (Z.mod_pos_bound (len cleaned) 4 ltac:(lia)) as Hb.
  destruct (Z.eqb_spec (len cleaned mod 4) 1) as [H1|H1].
  { repeat split; try discriminate; try tauto; intros H; exfalso;
      intuition (discriminate || lia). }
  destruct (Z.eqb_spec (len cleaned mod 4) 0) as [H0|H0];
    destruct (loose opts); destruct (paddingMisplaced cleaned);
    cbn [negb andb];
    try (repeat split; try discriminate; try tauto; intros H; exfalso;
         intuition (discriminate || lia));
    destruct (decodeGroups (lookupOf cleaned) (paddedOf cleaned) 0)
      as [bs|e] eqn:Hg; cbv zeta;
    try destruct (decodeGroups_error_kind _ _ _ _ Hg) as [p ->];
    try destruct (streq _ cleaned);
    cbn [negb];
    repeat split; try discriminate; try tauto; try lia;
    intros H; exfalso; intuition (discriminate || lia).
Qed.

Lemma decode_error_situations_witness :
  decodeBase64ToBytes (str "YQ=a") strictMode = Err InvalidPadding
  /\ decodeBase64ToBytes (str "YQ=a") looseMode <> Err InvalidPadding.
Proof.
  split.
  - apply (proj1 (proj2 (proj2 (decode_error_situations (str "YQ=a")
                                   strictMode)))).
    split; [reflexivity|]. split; [reflexivity|]. split; [reflexivity|].
    exists (str "YQ"), (str "a").
    split; [reflexivity|]. split; [|split; discriminate].
    vm_compute. intuition discriminate.
  - intros H.
    apply (proj1 (proj2 (proj2 (decode_error_situations (str "YQ=a")
                                  looseMode)))) in H.
    destruct H as (_ & H & _). discriminate.
Defined.

(** X5. The strict mode differs from the loose mode by two errors only: on
    every input it returns what the loose mode returns, or fails with the
    padding error (length 0 mod 4), or fails with the non-canonical error
    (length 2 or 3 mod 4) where the loose mode returns bytes.  So bytes
    that the strict mode returns, the loose mode returns too. *)
Theorem strict_refines_loose input :
  let cleaned := stripWhitespace input in
  (decodeBase64ToBytes input strictMode = decodeBase64ToBytes input looseMode
   \/ (decodeBase64ToBytes input strictMode = Err InvalidPadding
       /\ len cleaned mod 4 = 0)
   \/ (decodeBase64ToBytes input strictMode = Err NonCanonical
       /\ (len cleaned mod 4 = 2 \/ len cleaned mod 4 = 3)
       /\ exists B, decodeBase64ToBytes input looseMode = Ok B))
  /\ forall B,
       decodeBase64ToBytes input strictMode = Ok B ->
       decodeBase64ToBytes input looseMode = Ok B.
Proof.
  intros cleaned.
  assert (decodeBase64ToBytes input strictMode
          = decodeBase64ToBytes input looseMode
          \/ (decodeBase64ToBytes input strictMode = Err InvalidPadding
              /\ len cleaned mod 4 = 0)
          \/ (decodeBase64ToBytes input strictMode = Err NonCanonical
              /\ (len cleaned mod 4 = 2 \/ len cleaned mod 4 = 3)
              /\ exists B, decodeBase64ToBytes input looseMode = Ok B))
    as Hcases.
  { rewrite !decode_cleaned. cbv zeta. fold cleaned.
    destruct (isUrlText cleaned && isStdText cleaned); [auto|].
    rewrite !decodeCleaned_cases. cbn [loose strictMode looseMode negb andb].
    pose proof (Z.mod_pos_bound (len cleaned) 4 ltac:(lia)) as Hb.
    destruct (Z.eqb_spec (len cleaned mod 4) 1) as [H1|H1]; [auto|].
    destruct (Z.eqb_spec (len cleaned mod 4) 0) as [H0|H0]; cbn [negb andb].
    - destruct (paddingMisplaced cleaned); [auto|].
      destruct (decodeGroups _ _ 0); auto.
    - destruct (decodeGroups _ _ 0) as [bs|e]; [|auto]. cbv zeta.
      destruct (streq _ cleaned); cbn [negb]; [auto|].
      right. right. split; [reflexivity|]. split; [lia|eauto]. }
  split; [exact Hcases|].
  intros B HB.
  destruct Hcases as [E|[[E _]|[E _]]]; congruence.
Qed.

Lemma strict_refines_loose_witness :
  decodeBase64ToBytes (str "YWI") strictMode = Ok [97; 98]
  /\ decodeBase64ToBytes (str "YWI") looseMode = Ok [97; 98].
Proof.
  assert (decodeBase64ToBytes (str "YWI") strictMode = Ok [97; 98]) as H
    by (vm_compute; reflexivity).
  split; [exact H | exact (proj2 (strict_refines_loose _) _ H)].
Defined.

(** Groups of characters that have values decode, with up to two ['=']
    that pad the last one. *)
Lemma decodeGroups_total lookup body :
  Forall (fun c => table_get lookup c <> None) body ->
  forall (j : nat) i,
    (j <= 2)%nat -> len (body ++ repeat EQ j) mod 4 = 0 ->
    exists bs, decodeGroups lookup (body ++ repeat EQ j) i = Ok bs.
Proof.
  induction body as [|a|a b|a b c|ca cb cc cd body IH] using list_ind4;
    intros Hv j i Hj Hlen;
    rewrite len_app in Hlen; unfold len at 2 in Hlen;
    rewrite repeat_length in Hlen; rewrite ?len_cons, ?len_nil in Hlen.
  - assert (j = 0%nat) as -> by zdm. cbn. eauto.
  - exfalso. zdm.
  - assert (j = 2%nat) as -> by zdm. cbn [repeat app decodeGroups].
    inversion Hv as [|? ? Ha Hv']. inversion Hv' as [|? ? Hb _]. subst.
    unfold valuesOf. change (padValue lookup EQ) with (Some 0).
    destruct (table_get lookup a); [|contradiction].
    destruct (table_get lookup b); [|contradiction]. eauto.
  - assert (j = 1%nat) as -> by zdm. cbn [repeat app decodeGroups].
    inversion Hv as [|? ? Ha Hv']. inversion Hv' as [|? ? Hb Hv''].
    inversion Hv'' as [|? ? Hc _]. subst.
    unfold valuesOf, padValue. change (EQ =? EQ) with true.
    destruct (table_get lookup a); [|contradiction].
    destruct (table_get lookup b); [|contradiction].
    destruct (c =? EQ); [eauto|].
    destruct (table_get lookup c); [|contradiction]. eauto.
  - inversion Hv as [|? ? Ha Hv']. inversion Hv' as [|? ? Hb Hv''].
    inversion Hv'' as [|? ? Hc Hv3]. inversion Hv3 as [|? ? Hd Hrest].
    subst. cbn [app decodeGroups]. unfold valuesOf, padValue.
    destruct (table_get lookup ca); [|contradiction].
    destruct (table_get lookup cb); [|contradiction].
    assert (exists v, (if cc =? EQ then Some 0 else table_get lookup cc)
                      = Some v) as [vc ->]
      by (destruct (cc =? EQ); [eauto|];
          destruct (table_get lookup cc); [eauto|contradiction]).
    assert (exists v, (if cd =? EQ then Some 0 else table_get lookup cd)
                      = Some v) as [vd ->]
      by (destruct (cd =? EQ); [eauto|];
          destruct (table_get lookup cd); [eauto|contradiction]).
    destruct (IH Hrest j (i + 4) Hj) as [bs ->]; [|eauto].
    rewrite len_app. unfold len at 2. rewrite repeat_length.
    pose proof (len_nonneg body). zdm.
Qed.

Lemma table_value v c :
  In c (tableOf v) ->
  table_get (match v with Some url => B64_URL_LOOKUP | _ => B64_STD_LOOKUP end)
    c <> None.
Proof.
  intros Hin. destruct (matched_tables v) as (Hl & Hlk & _).
  apply (In_nth _ _ 0) in Hin. destruct Hin as (n & Hn & <-).
  unfold len in Hl. specialize (Hlk (Z.of_nat n) ltac:(lia)).
  unfold tchar in Hlk. rewrite Nat2Z.id in Hlk. congruence.
Qed.

Lemma url_char_std c :
  In c B64_URL -> (c =? 45) || (c =? 95) = false -> In c B64_STD.
Proof.
  intros Hin Hc.
  assert (forallb (fun c => (c =? 45) || (c =? 95)
                            || existsb (Z.eqb c) B64_STD) B64_URL = true)
    as H by (vm_compute; reflexivity).
  rewrite forallb_forall in H. specialize (H c Hin). rewrite Hc in H.
  apply existsb_exists in H. destruct H as (x & Hx & E).
  apply Z.eqb_eq in E. subst. exact Hx.
Qed.

(** The lookup table the decoder selects has a value for every character
    of a text in one alphabet. *)
Lemma one_alphabet_values v cleaned :
  Forall (fun c => In c (tableOf v)) cleaned ->
  isUrlText cleaned && isStdText cleaned = false
  /\ Forall (fun c => table_get (lookupOf cleaned) c <> None) cleaned.
Proof.
  intros Hall.
  assert (tableOf v = B64_STD \/ tableOf v = B64_URL) as [Ht|Ht]
    by (destruct v as [[|]|]; auto); rewrite Ht in Hall.
  - assert (isUrlText cleaned = false) as Hu.
    { apply existsb_false_Forall. eapply Forall_impl; [|exact Hall].
      cbv beta. intros c Hc.
      assert (forallb (fun c => negb ((c =? 45) || (c =? 95))) B64_STD
              = true) as H by reflexivity.
      rewrite forallb_forall in H. auto. }
    unfold lookupOf. rewrite Hu. split; [reflexivity|].
    eapply Forall_impl; [|exact Hall]. exact (table_value None).
  - assert (isStdText cleaned = false) as Hs.
    { apply existsb_false_Forall. eapply Forall_impl; [|exact Hall].
      cbv beta. intros c Hc.
      assert (forallb (fun c => negb ((c =? 43) || (c =? 47))) B64_URL
              = true) as H by reflexivity.
      rewrite forallb_forall in H. auto. }
    rewrite Hs, andb_false_r. split; [reflexivity|].
    unfold lookupOf. destruct (isUrlText cleaned) eqn:Hu.
    + eapply Forall_impl; [|exact Hall]. exact (table_value (Some url)).
    + unfold isUrlText, testClass2 in Hu.
      rewrite Forall_forall in Hall |- *. intros c Hc.
      apply (table_value None). apply url_char_std; [auto|].
      destruct ((c =? 45) || (c =? 95)) eqn:E; [|reflexivity].
      assert (existsb (fun c => (c =? 45) || (c =? 95)) cleaned = true)
        by (apply existsb_exists; eauto).
      congruence.
Qed.

(** X6. An input whose cleaned text has characters of one alphabet only, no
    ['='], and a length other than 1 mod 4 decodes in the loose mode; in
    the strict mode it decodes to the same bytes when its length is
    0 mod 4. *)
Theorem alphabet_text_decodes input v :
  let cleaned := stripWhitespace input in
  Forall (fun c => In c (tableOf v)) cleaned ->
  len cleaned mod 4 <> 1 ->
  exists B,
    decodeBase64ToBytes input looseMode = Ok B
    /\ (len cleaned mod 4 = 0 ->
        decodeBase64ToBytes input strictMode = Ok B).
Proof.
  intros cleaned Hall Hmod.
  destruct (one_alphabet_values v cleaned Hall) as [Hmixed Hvals].
  rewrite !decode_cleaned. cbv zeta. fold cleaned. rewrite Hmixed.
  rewrite !decodeCleaned_cases. cbn [loose strictMode looseMode negb andb].
  destruct (Z.eqb_spec (len cleaned mod 4) 1) as [|_]; [contradiction|].
  assert (exists j, (j <= 2)%nat /\ paddedOf cleaned = cleaned ++ repeat EQ j)
    as (j & Hj & Hp).
  { unfold paddedOf, repeatChar.
    destruct (Z.eqb_spec (len cleaned mod 4) 0).
    - exists 0%nat. split; [lia|]. cbn. rewrite app_nil_r. reflexivity.
    - exists (Z.to_nat (4 - len cleaned mod 4)). split; [zdm|reflexivity]. }
  pose proof (paddedOf_mod4 cleaned Hmod) as Hlen. rewrite Hp in Hlen.
  destruct (decodeGroups_total _ _ Hvals j 0 Hj Hlen) as [bs Hbs].
  rewrite Hp, Hbs. cbv zeta. eexists. split; [reflexivity|].
  intros H0. rewrite H0. cbn [Z.eqb negb andb].
  assert (paddingMisplaced cleaned = false) as ->; [|reflexivity].
  destruct (paddingMisplaced cleaned) eqn:E; [|reflexivity].
  apply paddingMisplaced_iff in E. destruct E as (p & q & E & _).
  rewrite Forall_forall in Hall.
  assert (In EQ (tableOf v)) as Hin
    by (apply Hall; rewrite E; apply in_or_app; right; left; reflexivity).
  pose proof (tableOf_no_EQ v) as Hno. rewrite forallb_forall in Hno.
  specialize (Hno _ Hin). discriminate.
Qed.

Lemma existsb_In (c : Z) l : existsb (Z.eqb c) l = true -> In c l.
Proof.
  intros H. apply existsb_exists in H. destruct H as (x & Hx & E).
  apply Z.eqb_eq in E. subst. exact Hx.
Qed.

Lemma alphabet_text_decodes_witness :
  Forall (fun c => In c (tableOf (Some url)))
    (stripWhitespace (str "a-_b"))
  /\ exists B,
       decodeBase64ToBytes (str "a-_b") looseMode = Ok B
       /\ decodeBase64ToBytes (str "a-_b") strictMode = Ok B.
Proof.
  assert (Forall (fun c => In c (tableOf (Some url)))
            (stripWhitespace (str "a-_b"))) as Hall.
  { apply Forall_forall. intros c Hc. apply existsb_In. revert c Hc.
    apply forallb_forall. reflexivity. }
  split; [exact Hall|].
  destruct (alphabet_text_decodes (str "a-_b") (Some url) Hall
              ltac:(vm_compute; discriminate)) as (B & Hl & Hs).
  exists B. split; [exact Hl | exact (Hs eq_refl)].
Defined.

(** X7. What the strict mode returns for an input without padding (length 2
    or 3 mod 4) encodes, with the detected variant and the padding
    stripped, to the cleaned input. *)
Theorem strict_unpadded_reencodes input B :
  let cleaned := stripWhitespace input in
  len cleaned mod 4 = 2 \/ len cleaned mod 4 = 3 ->
  decodeBase64ToBytes input strictMode = Ok B ->
  encodeBase64FromBytes B
    (mkOptions (Some (variantOf cleaned)) (Some strip) None)
  = cleaned.
Proof.
  intros cleaned Hmod. rewrite decode_cleaned. cbv zeta. fold cleaned.
  destruct (isUrlText cleaned && isStdText cleaned); [discriminate|].
  rewrite decodeCleaned_unpadded_loop by assumption. cbv zeta.
  destruct (decode_loop _ _ _ _ 0 _) as [out|]; [|discriminate].
  cbn [loose strictMode].
  destruct (streq _ cleaned) eqn:E; [|discriminate].
  intros H. injection H as <-. apply streq_true in E.
  assert (alphOf cleaned = tableOf (Some (variantOf cleaned))) as Ha
    by (unfold alphOf, variantOf; destruct (isUrlText cleaned); reflexivity).
  rewrite Ha in E.
  rewrite (encodeBytesToBase64Raw_spec _ (tableOf_len _)) in E.
  rewrite stripTrailingEq_encodeRef in E.
  rewrite encode_strip. exact E.
Qed.

Lemma strict_unpadded_reencodes_witness :
  len (stripWhitespace (str "-_8")) mod 4 = 3
  /\ decodeBase64ToBytes (str "-_8") strictMode = Ok [251; 255]
  /\ encodeBase64FromBytes [251; 255]
       (mkOptions (Some url) (Some strip) None) = str "-_8".
Proof.
  assert (decodeBase64ToBytes (str "-_8") strictMode = Ok [251; 255]) as H
    by (vm_compute; reflexivity).
  split; [reflexivity|]. split; [exact H|].
  exact (strict_unpadded_reencodes (str "-_8") _ (or_intror eq_refl) H).
Defined.

(** X8. An input of whitespace only, the empty input among them, decodes to
    the empty buffer in both modes. *)
Theorem whitespace_only_decodes_empty input opts :
  forallb isWhitespace input = true ->
  decodeBase64ToBytes input opts = Ok [].
Proof.
  intros H. rewrite decode_cleaned. cbv zeta.
  assert (stripWhitespace input = []) as ->.
  { induction input as [|c input IH]; [reflexivity|].
    cbn [forallb] in H. apply andb_true_iff in H. destruct H as [Hc H].
    cbn [stripWhitespace filter]. rewrite Hc. exact (IH H). }
  cbn. apply decodeCleaned_nil.
Qed.

Lemma whitespace_only_decodes_empty_witness :
  forallb isWhitespace [32; 10; 9; 13; 160; 8232] = true
  /\ decodeBase64ToBytes [32; 10; 9; 13; 160; 8232] strictMode = Ok [].
Proof.
  split; [reflexivity|].
  exact (whitespace_only_decodes_empty [32; 10; 9; 13; 160; 8232]
           strictMode eq_refl).
Defined.

(* ================================================================== *)
(** ** The lookup table                                                *)
(* ================================================================== *)

Lemma at_cons_succ {A} (x : A) l j :
  0 <= j -> at_ (x :: l) (j + 1) = at_ l j.
Proof.
  intros Hj. rewrite Z.add_comm. exact (at_app_r [x] l j Hj).
Qed.

Lemma at_In {A} (l : list A) i c : at_ l i = Some c -> In c l.
Proof.
  unfold at_. destruct (i <? 0); [discriminate|]. apply nth_error_In.
Qed.

Lemma at_nonneg {A} (l : list A) i c : at_ l i = Some c -> 0 <= i.
Proof.
  unfold at_. destruct (Z.ltb_spec i 0); [discriminate|lia].
Qed.

Lemma at_cons_inv {A} (x : A) l j c :
  at_ (x :: l) j = Some c -> (j = 0 /\ x = c) \/ (0 < j /\ at_ l (j - 1) = Some c).
Proof.
  intros H. pose proof (at_nonneg _ _ _ H) as Hj.
  destruct (Z.eq_dec j 0) as [->|Hne].
  - left. cbn in H. injection H as ->. auto.
  - right. split; [lia|].
    replace j with (j - 1 + 1) in H by lia.
    rewrite at_cons_succ in H by lia. exact H.
Qed.

(** The table after the loop of [createLookupTable]: a character of the
    rest of the alphabet has the index of its last occurrence, another one
    the value it had. *)
Lemma createLookupTable_from_get rest :
  forall i table c,
    (~ In c rest ->
     table_get (createLookupTable_from i rest table) c = table_get table c)
    /\ (In c rest ->
        exists j,
          table_get (createLookupTable_from i rest table) c = Some (i + j)
          /\ at_ rest j = Some c
          /\ forall j', at_ rest j' = Some c -> j' <= j).
Proof.
  induction rest as [|x rest IH]; intros i table c.
  - split; [reflexivity|intros []].
  - cbn [createLookupTable_from].
    destruct (IH (i + 1) (table_set table x i) c) as [IHout IHin].
    destruct (in_dec Z.eq_dec c rest) as [Hin|Hout].
    + split; [intros H; exfalso; apply H; right; exact Hin|]. intros _.
      destruct (IHin Hin) as (j & Hj & Hat & Hmax).
      pose proof (at_nonneg _ _ _ Hat) as Hj0.
      exists (j + 1). split; [rewrite Hj; f_equal; lia|].
      split; [rewrite at_cons_succ by lia; exact Hat|].
      intros j' Hj'. apply at_cons_inv in Hj'.
      destruct Hj' as [[-> _]|[_ Hj']]; [lia|].
      specialize (Hmax _ Hj'). lia.
    + rewrite (IHout Hout). cbn [table_set table_get]. split.
      * intros H. destruct (Z.eqb_spec x c) as [->|_]; [|reflexivity].
        exfalso. apply H. left. reflexivity.
      * intros [->|Hin]; [|contradiction].
        rewrite Z.eqb_refl. exists 0. split; [f_equal; lia|].
        split; [reflexivity|].
        intros j' Hj'. apply at_cons_inv in Hj'.
        destruct Hj' as [[-> _]|[_ Hj']]; [lia|].
        exfalso. apply Hout. exact (at_In _ _ _ Hj').
Qed.

(** X9. [createLookupTable] inverts the alphabet: a character outside the
    alphabet has no value, a value of a character is an index at which the
    alphabet has it, the last one, and so the index, when the alphabet has
    the character once. *)
Theorem createLookupTable_inverts alphabet c :
  (table_get (createLookupTable alphabet) c = None <-> ~ In c alphabet)
  /\ (forall i,
        table_get (createLookupTable alphabet) c = Some i ->
        at_ alphabet i = Some c
        /\ forall j, at_ alphabet j = Some c -> j <= i)
  /\ (NoDup alphabet ->
      forall i,
        at_ alphabet i = Some c ->
        table_get (createLookupTable alphabet) c = Some i).
Proof.
  unfold createLookupTable.
  destruct (createLookupTable_from_get alphabet 0 [] c) as [Hout Hin].
  assert (forall i,
            table_get (createLookupTable_from 0 alphabet []) c = Some i ->
            at_ alphabet i = Some c
            /\ forall j, at_ alphabet j = Some c -> j <= i) as Hsome.
  { intros i Hi. destruct (in_dec Z.eq_dec c alphabet) as [H|H].
    - destruct (Hin H) as (j & Hj & Hat & Hmax).
      rewrite Hj in Hi. injection Hi as <-. auto.
    - rewrite (Hout H) in Hi. discriminate. }
  split; [|split; [exact Hsome|]].
  - split.
    + intros Hn H. destruct (Hin H) as (j & Hj & _). congruence.
    + intros H. rewrite (Hout H). reflexivity.
  - intros Hnd i Hat. destruct (Hin (at_In _ _ _ Hat)) as (j & Hj & Hatj & _).
    rewrite Hj. f_equal. cbn.
    unfold at_ in Hat, Hatj.
    destruct (Z.ltb_spec i 0); [discriminate|].
    destruct (Z.ltb_spec j 0); [discriminate|].
    assert (Z.to_nat j = Z.to_nat i); [|lia].
    apply (proj1 (NoDup_nth_error alphabet) Hnd).
    + apply nth_error_Some. congruence.
    + congruence.
Qed.

Lemma createLookupTable_inverts_witness :
  NoDup (str "abc")
  /\ at_ (str "abc") 1 = Some 98
  /\ table_get (createLookupTable (str "abc")) 98 = Some 1.
Proof.
  assert (NoDup (str "abc")) as Hnd.
  { cbn. repeat constructor; cbn; intuition discriminate. }
  split; [exact Hnd|]. split; [reflexivity|].
  exact (proj2 (proj2 (createLookupTable_inverts (str "abc") 98))
           Hnd 1 eq_refl).
Defined.

(* ================================================================== *)
(** ** More on the encoder                                             *)
(* ================================================================== *)

(** The encoder in three steps: the padded encoding, the [padding] option,
    the [wrap] option. *)
Lemma encode_steps bytes opts :
  encodeBase64FromBytes bytes opts
  = let text :=
      match padding opts with
      | Some strip => encodeBody (tableOf (variant opts)) bytes
      | _ => encodeRef (tableOf (variant opts)) bytes
      end in
    match wrap opts with
    | Some w => if w =? 0 then text else wrapAt text (Some w)
    | None => text
    end.
Proof.
  pose proof (encode_unwrapped bytes
                (mkOptions (variant opts) (padding opts) None) eq_refl) as H.
  cbn [padding variant] in H.
  rewrite stripTrailingEq_encodeRef in H. cbv zeta. rewrite <- H.
  unfold encodeBase64FromBytes. cbn [variant padding wrap].
  destruct (encodeGroups_loop bytes _ 0 []) as [i output]. reflexivity.
Qed.

Lemma wrapAt_nonpositive t w : w <= 0 -> wrapAt t (Some w) = t.
Proof.
  intros Hw. unfold wrapAt. destruct (Z_lt_dec 0 w); [lia|reflexivity].
Qed.

(** The [wrap] option, for every width. *)
Lemma wrap_option_cases (text : jsstring) w :
  (if w =? 0 then text else wrapAt text (Some w)) = wrapAt text (Some w).
Proof.
  destruct (Z.eqb_spec w 0) as [->|_]; [|reflexivity].
  symmetry. apply wrapAt_nonpositive. lia.
Qed.

Lemma removeLineBreaks_wrapAt_any t w :
  removeLineBreaks (wrapAt t (Some w)) = removeLineBreaks t.
Proof.
  destruct (Z_lt_dec 0 w) as [Hw|Hw].
  - apply (removeLineBreaks_wrapAt w Hw (List.length t)). lia.
  - rewrite wrapAt_nonpositive by lia. reflexivity.
Qed.

(** A character of a wrapped text is one of the text, or a line break. *)
Lemma wrapAt_chars t w c :
  In c (wrapAt t (Some w)) -> In c t \/ (c = LF /\ 0 < w).
Proof.
  intros Hin. destruct (Z_lt_dec 0 w) as [Hw|Hw].
  - destruct (Z.eq_dec c LF) as [->|Hc]; [auto|]. left.
    assert (In c (removeLineBreaks (wrapAt t (Some w)))) as H.
    { apply filter_In. split; [exact Hin|].
      apply negb_true_iff, Z.eqb_neq. exact Hc. }
    rewrite removeLineBreaks_wrapAt_any in H. apply filter_In in H. tauto.
  - rewrite wrapAt_nonpositive in Hin by lia. auto.
Qed.

Lemma In_encodeRef table bs c :
  In c (encodeRef table bs) ->
  In c (encodeBody table bs) \/ (c = EQ /\ len bs mod 3 <> 0).
Proof.
  unfold encodeRef. intros H. apply in_app_or in H.
  destruct H as [H|H]; [auto|]. right.
  split; [exact (repeat_spec _ _ _ H)|].
  intros Hmod. rewrite padCount_whole in H by assumption. destruct H.
Qed.

(** X10. The characters of an encoding: characters of the table of the
    variant; ['='], if the padding is not stripped and the length of the
    buffer is not a multiple of 3; line breaks, if the wrap width is
    positive.  So the URL-safe variant gives no ['+'] and no ['/'], and the
    standard variant no ['-'] and no ['_']. *)
Theorem encode_characters bs opts c :
  In c (encodeBase64FromBytes bs opts) ->
  (In c (tableOf (variant opts))
   \/ (c = EQ /\ padding opts <> Some strip /\ len bs mod 3 <> 0)
   \/ (c = LF /\ exists w, wrap opts = Some w /\ 0 < w))
  /\ (variant opts = Some url -> c <> 43 /\ c <> 47)
  /\ (variant opts <> Some url -> c <> 45 /\ c <> 95).
Proof.
  intros Hin.
  assert (In c (tableOf (variant opts))
          \/ (c = EQ /\ padding opts <> Some strip /\ len bs mod 3 <> 0)
          \/ (c = LF /\ exists w, wrap opts = Some w /\ 0 < w)) as Hc.
  { rewrite encode_steps in Hin. cbv zeta in Hin.
    set (table := tableOf (variant opts)) in *.
    assert (forall text,
              In c (match wrap opts with
                    | Some w => if w =? 0 then text else wrapAt text (Some w)
                    | None => text
                    end) ->
              In c text \/ (c = LF /\ exists w, wrap opts = Some w /\ 0 < w))
      as Hwrap.
    { intros text H. destruct (wrap opts) as [w|]; [|auto].
      rewrite wrap_option_cases in H. apply wrapAt_chars in H.
      destruct H as [H|[H Hw]]; eauto. }
    apply Hwrap in Hin. destruct Hin as [Hin|Hin]; [|auto].
    pose proof (encodeBody_chars table bs (tableOf_len _)) as Hbody.
    rewrite Forall_forall in Hbody.
    destruct (padding opts) as [[|]|] eqn:Hp;
      try (apply In_encodeRef in Hin;
           destruct Hin as [Hin|[-> Hm]];
           [left; apply Hbody, Hin
           |right; left; repeat split; [discriminate|exact Hm]]).
    left. apply Hbody, Hin. }
  split; [exact Hc|].
  assert (forallb (fun c => negb ((c =? 43) || (c =? 47))) B64_URL = true)
    as Hurl by reflexivity.
  assert (forallb (fun c => negb ((c =? 45) || (c =? 95))) B64_STD = true)
    as Hstd by reflexivity.
  rewrite forallb_forall in Hurl, Hstd.
  split.
  - intros Hv. rewrite Hv in Hc. cbn [tableOf] in Hc.
    destruct Hc as [Ht|[[-> _]|[-> _]]];
      [|split; discriminate|split; discriminate].
    specialize (Hurl _ Ht). apply negb_true_iff, orb_false_iff in Hurl.
    rewrite !Z.eqb_neq in Hurl. exact Hurl.
  - intros Hv.
    assert (tableOf (variant opts) = B64_STD) as Ht
      by (destruct (variant opts) as [[|]|]; (reflexivity || congruence)).
    rewrite Ht in Hc.
    destruct Hc as [Hc|[[-> _]|[-> _]]];
      [|split; discriminate|split; discriminate].
    specialize (Hstd _ Hc). apply negb_true_iff, orb_false_iff in Hstd.
    rewrite !Z.eqb_neq in Hstd. exact Hstd.
Qed.

Lemma encode_characters_witness :
  In 45 (encodeBase64FromBytes [251; 255; 190]
           (mkOptions (Some url) None (Some 2)))
  /\ In 45 (tableOf (Some url)) /\ 45 <> 43 /\ 45 <> 47.
Proof.
  assert (In 45 (encodeBase64FromBytes [251; 255; 190]
                   (mkOptions (Some url) None (Some 2)))) as Hin
    by (apply existsb_In; vm_compute; reflexivity).
  split; [exact Hin|].
  destruct (encode_characters _ _ _ Hin) as (Hc & Hu & _).
  split; [|exact (Hu eq_refl)].
  apply existsb_In. reflexivity.
Defined.

Lemma tchar_toUrl s :
  0 <= s < 64 -> tchar B64_URL s = toUrlChar (tchar B64_STD s).
Proof.
  intros Hs.
  pose proof (below_64
    (fun s => tchar B64_URL s =? toUrlChar (tchar B64_STD s))
    ltac:(vm_compute; reflexivity) s Hs) as H.
  apply Z.eqb_eq in H. exact H.
Qed.

Lemma group4_toUrl a b c :
  group4 B64_URL a b c = map toUrlChar (group4 B64_STD a b c).
Proof.
  unfold group4. cbn [map].
  rewrite !tchar_toUrl by (apply sextet_range; lia). reflexivity.
Qed.

Lemma encodeBody_toUrl bs :
  encodeBody B64_URL bs = map toUrlChar (encodeBody B64_STD bs).
Proof.
  induction bs as [|a|a b|a b c bs IH] using list_ind3; cbn [encodeBody].
  - reflexivity.
  - rewrite group4_toUrl, firstn_map. reflexivity.
  - rewrite group4_toUrl, firstn_map. reflexivity.
  - rewrite group4_toUrl, IH, map_app. reflexivity.
Qed.

Lemma map_repeat_fixed {A} (f : A -> A) x k :
  f x = x -> map f (repeat x k) = repeat x k.
Proof.
  intros Hx. induction k as [|k IH]; [reflexivity|].
  cbn. rewrite Hx, IH. reflexivity.
Qed.

(** Wrapping does not look at the characters. *)
Lemma wrapAt_map (f : Z -> Z) w :
  f LF = LF ->
  forall (n : nat) t, (List.length t <= n)%nat ->
  wrapAt (map f t) (Some w) = map f (wrapAt t (Some w)).
Proof.
  intros Hf. destruct (Z_lt_dec 0 w) as [Hw|Hw].
  2:{ intros n t _. rewrite !wrapAt_nonpositive by lia. reflexivity. }
  induction n as [|n IH]; intros t Hn.
  - rewrite !wrapAt_short by (unfold len; rewrite ?length_map; lia).
    reflexivity.
  - destruct (Z_le_gt_dec (len t) w) as [Hle|Hgt].
    + rewrite !wrapAt_short
        by (unfold len in *; rewrite ?length_map; lia).
      reflexivity.
    + rewrite (wrapAt_long t) by lia.
      rewrite wrapAt_long by (unfold len in *; rewrite ?length_map; lia).
      rewrite !map_app, firstn_map, skipn_map. cbn [map]. rewrite Hf.
      rewrite IH by (rewrite length_skipn; unfold len in *; lia).
      reflexivity.
Qed.

(** X11. The encoding with the URL-safe variant is the encoding with the
    standard variant with ['-'] for each ['+'] and ['_'] for each ['/'],
    whatever the other options. *)
Theorem encode_url_from_standard bs p w :
  encodeBase64FromBytes bs (mkOptions (Some url) p w)
  = map toUrlChar (encodeBase64FromBytes bs (mkOptions (Some standard) p w))
  /\ encodeBase64FromBytes bs (mkOptions None p w)
     = encodeBase64FromBytes bs (mkOptions (Some standard) p w).
Proof.
  rewrite !encode_steps. cbn [variant padding wrap tableOf]. cbv zeta.
  split; [|reflexivity].
  assert (forall text,
            match w with
            | Some w0 =>
                if w0 =? 0 then map toUrlChar text
                else wrapAt (map toUrlChar text) (Some w0)
            | None => map toUrlChar text
            end
            = map toUrlChar
                match w with
                | Some w0 => if w0 =? 0 then text else wrapAt text (Some w0)
                | None => text
                end) as Hwrap.
  { intros text. destruct w as [w0|]; [|reflexivity].
    destruct (w0 =? 0); [reflexivity|].
    apply (wrapAt_map toUrlChar w0 eq_refl (List.length text)). lia. }
  rewrite <- Hwrap.
  assert (encodeRef B64_URL bs = map toUrlChar (encodeRef B64_STD bs))
    as Href.
  { unfold encodeRef.
    rewrite map_app, (map_repeat_fixed toUrlChar EQ) by reflexivity.
    rewrite encodeBody_toUrl. reflexivity. }
  destruct p as [[|]|]; rewrite ?Href, ?encodeBody_toUrl; reflexivity.
Qed.

Lemma stripWhitespace_app s t :
  stripWhitespace (s ++ t) = stripWhitespace s ++ stripWhitespace t.
Proof. apply filter_app. Qed.

(** The decoder does not see the wrapping. *)
Lemma stripWhitespace_wrapAt w :
  forall (n : nat) t, (List.length t <= n)%nat ->
  stripWhitespace (wrapAt t (Some w)) = stripWhitespace t.
Proof.
  destruct (Z_lt_dec 0 w) as [Hw|Hw].
  2:{ intros n t _. rewrite wrapAt_nonpositive by lia. reflexivity. }
  induction n as [|n IH]; intros t Hn.
  - rewrite wrapAt_short by (unfold len; lia). reflexivity.
  - destruct (Z_le_gt_dec (len t) w) as [Hle|Hgt].
    + rewrite wrapAt_short by assumption. reflexivity.
    + rewrite wrapAt_long by lia.
      rewrite !stripWhitespace_app, IH
        by (rewrite length_skipn; unfold len in *; lia).
      change (stripWhitespace [LF]) with (@nil Z). cbn [app].
      rewrite <- stripWhitespace_app, firstn_skipn. reflexivity.
Qed.

Lemma encoding_no_LF v bs k :
  ~ In LF (encodeBody (tableOf v) bs ++ repeat EQ k).
Proof.
  intros Hin.
  pose proof (encoding_forall v (fun c => negb (c =? 10)) bs k
                ltac:(destruct v as [[|]|]; reflexivity) eq_refl) as H.
  rewrite Forall_forall in H. specialize (H _ Hin). discriminate.
Qed.

(** The text before the [wrap] option applies. *)
Lemma encode_text_cases v p bs :
  exists k,
    match p with
    | Some strip => encodeBody (tableOf v) bs
    | _ => encodeRef (tableOf v) bs
    end = encodeBody (tableOf v) bs ++ repeat EQ k.
Proof.
  destruct p as [[|]|].
  - exists (padCount (List.length bs)). reflexivity.
  - exists 0%nat. cbn. rewrite app_nil_r. reflexivity.
  - exists (padCount (List.length bs)). reflexivity.
Qed.

(** X12. Deleting the line breaks of an encoding with the [wrap] option
    gives the encoding without it. *)
Theorem encode_wrap_invariant bs v p w :
  removeLineBreaks (encodeBase64FromBytes bs (mkOptions v p (Some w)))
  = encodeBase64FromBytes bs (mkOptions v p None).
Proof.
  rewrite !encode_steps. cbn [variant padding wrap]. cbv zeta.
  rewrite wrap_option_cases, removeLineBreaks_wrapAt_any.
  destruct (encode_text_cases v p bs) as [k ->].
  apply removeLineBreaks_id, encoding_no_LF.
Qed.

(** Decoding an encoding, whatever the options of the encoder. *)
Lemma decode_encode_any bs opts dopts :
  is_bytes bs ->
  decodeBase64ToBytes (encodeBase64FromBytes bs opts) dopts = Ok bs.
Proof.
  intros Hbs. rewrite encode_steps. cbv zeta.
  set (text := match padding opts with
               | Some strip => _ | _ => _ end).
  assert (decodeBase64ToBytes text dopts = Ok bs) as Htext.
  { subst text. destruct (padding opts) as [[|]|];
      auto using decode_padded_encoding, decode_stripped_encoding. }
  destruct (wrap opts) as [w|]; [|exact Htext].
  rewrite wrap_option_cases.
  rewrite decode_cleaned in Htext |- *. cbv zeta in Htext |- *.
  rewrite (stripWhitespace_wrapAt w (List.length text)) by lia.
  exact Htext.
Qed.

(** X13. The round trip holds with the [wrap] option too: the decoder
    strips the line breaks the encoder inserts. *)
Theorem decode_wrapped_encoding bs v p w dopts :
  is_bytes bs ->
  decodeBase64ToBytes
    (encodeBase64FromBytes bs (mkOptions v p (Some w))) dopts
  = Ok bs.
Proof. apply decode_encode_any. Qed.

Lemma decode_wrapped_encoding_witness :
  is_bytes [104; 101; 108; 108; 111; 33; 33]
  /\ In LF (encodeBase64FromBytes [104; 101; 108; 108; 111; 33; 33]
              (mkOptions None None (Some 4)))
  /\ decodeBase64ToBytes
       (encodeBase64FromBytes [104; 101; 108; 108; 111; 33; 33]
          (mkOptions None None (Some 4))) strictMode
     = Ok [104; 101; 108; 108; 111; 33; 33].
Proof.
  assert (is_bytes [104; 101; 108; 108; 111; 33; 33]) as Hb
    by (repeat constructor; unfold is_byte; lia).
  split; [exact Hb|]. split.
  - apply existsb_In. vm_compute. reflexivity.
  - exact (decode_wrapped_encoding _ None None 4 strictMode Hb).
Defined.

(** X14. The encoder is injective on buffers of bytes, for each choice of
    the options. *)
Theorem encode_injective bs bs' opts :
  is_bytes bs -> is_bytes bs' ->
  encodeBase64FromBytes bs opts = encodeBase64FromBytes bs' opts ->
  bs = bs'.
Proof.
  intros Hb Hb' E.
  pose proof (decode_encode_any bs opts strictMode Hb) as H.
  rewrite E, (decode_encode_any bs' opts strictMode Hb') in H.
  congruence.
Qed.

Lemma encode_injective_witness :
  is_bytes [1; 2] /\ is_bytes [1; 2; 0]
  /\ encodeBase64FromBytes [1; 2] (mkOptions None (Some strip) None)
     <> encodeBase64FromBytes [1; 2; 0] (mkOptions None (Some strip) None).
Proof.
  assert (is_bytes [1; 2]) as H1
    by (repeat constructor; unfold is_byte; lia).
  assert (is_bytes [1; 2; 0]) as H2
    by (repeat constructor; unfold is_byte; lia).
  split; [exact H1|]. split; [exact H2|].
  intros E. pose proof (encode_injective _ _ _ H1 H2 E). discriminate.
Defined.

(* ================================================================== *)
(** ** The batches of the encoder                                      *)
(* ================================================================== *)

Lemma encodeFull_len table l :
  (List.length l mod 3 = 0)%nat ->
  len (encodeFull table l) = 4 * (len l / 3).
Proof.
  intros Hl. pattern l. apply triples_ind; [reflexivity| |exact Hl].
  clear l Hl. intros a b c l IH. cbn [encodeFull].
  rewrite len_app, IH, !len_cons.
  change (len (group4 table a b c)) with 4.
  pose proof (len_nonneg l). zdm.
Qed.

(** X25. [encodeChunk] composes: on a range of whole groups within the
    buffer, cut at a whole number of groups, it returns the text of the
    first part followed by the text of the second, and four characters
    for every three bytes of the range.  This is what lets
    [encodeBase64FromBytes] encode in batches. *)
Theorem encodeChunk_compose bytes table i j k :
  len table = 64 ->
  0 <= i <= j -> j <= k <= len bytes ->
  (j - i) mod 3 = 0 -> (k - j) mod 3 = 0 ->
  encodeChunk bytes i k table
  = encodeChunk bytes i j table ++ encodeChunk bytes j k table
  /\ len (encodeChunk bytes i k table) = 4 * ((k - i) / 3).
Proof.
  intros Ht Hij Hjk Hm1 Hm2. unfold len in Hjk.
  rewrite <- (Z2Nat.id i), <- (Z2Nat.id j), <- (Z2Nat.id k) by lia.
  set (i' := Z.to_nat i). set (j' := Z.to_nat j). set (k' := Z.to_nat k).
  assert (i' <= j' <= k')%nat as Hle by lia.
  assert (k' <= List.length bytes)%nat as Hk by lia.
  assert (forall a b : nat,
            (a <= b)%nat -> (Z.of_nat b - Z.of_nat a) mod 3 = 0 ->
            ((b - a) mod 3 = 0)%nat) as Hmod.
  { intros a b Hab H. apply Nat2Z.inj.
    rewrite Nat2Z.inj_mod, Nat2Z.inj_sub by exact Hab. exact H. }
  assert ((j' - i') mod 3 = 0)%nat as Hn1
    by (apply Hmod; [lia|subst i' j'; rewrite !Z2Nat.id by lia; exact Hm1]).
  assert ((k' - j') mod 3 = 0)%nat as Hn2
    by (apply Hmod; [lia|subst j' k'; rewrite !Z2Nat.id by lia; exact Hm2]).
  assert ((k' - i') mod 3 = 0)%nat as Hn3.
  { replace (k' - i')%nat with ((j' - i') + (k' - j'))%nat by lia.
    rewrite Nat.Div0.add_mod, Hn1, Hn2. reflexivity. }
  rewrite !(encodeChunk_spec table Ht) by (assumption || lia).
  split.
  - rewrite <- (sub_app bytes i' j' k') by lia.
    apply encodeFull_app. rewrite sub_length by lia. exact Hn1.
  - rewrite encodeFull_len by (rewrite sub_length by lia; exact Hn3).
    unfold len. rewrite sub_length, Nat2Z.inj_sub by lia. reflexivity.
Qed.

Lemma encodeChunk_compose_witness :
  encodeChunk [77; 97; 110; 1; 2; 3; 255] 0 6 B64_STD_ALPH
  = encodeChunk [77; 97; 110; 1; 2; 3; 255] 0 3 B64_STD_ALPH
    ++ encodeChunk [77; 97; 110; 1; 2; 3; 255] 3 6 B64_STD_ALPH
  /\ len (encodeChunk [77; 97; 110; 1; 2; 3; 255] 0 6 B64_STD_ALPH)
     = 4 * ((6 - 0) / 3).
Proof.
  apply (encodeChunk_compose [77; 97; 110; 1; 2; 3; 255] B64_STD_ALPH 0 3 6);
    try reflexivity; unfold len; simpl; lia.
Defined.

(* ================================================================== *)
(** ** More on the line-wrap helper                                    *)
(* ================================================================== *)

Lemma ceilDiv_one a w : 0 < a <= w -> ceilDiv a w = 1.
Proof.
  intros H. unfold ceilDiv. symmetry.
  apply (Z.div_unique (a + w - 1) w 1 (a - 1)); lia.
Qed.

Lemma ceilDiv_step a w : 0 < w -> ceilDiv (a - w) w + 1 = ceilDiv a w.
Proof.
  intros Hw. unfold ceilDiv.
  replace (a + w - 1) with (a - w + w - 1 + 1 * w) by lia.
  rewrite Z.div_add by lia. reflexivity.
Qed.

(** X15. Wrapping a text of [n > 0] characters at a positive width [w] adds
    [ceil(n / w) - 1] line breaks. *)
Theorem wrapAt_length w t :
  0 < w -> t <> [] ->
  len (wrapAt t (Some w)) = len t + (ceilDiv (len t) w - 1).
Proof.
  intros Hw. remember (List.length t) as n eqn:Hn.
  assert (List.length t <= n)%nat as Hle by lia. clear Hn. revert t Hle.
  induction n as [|n IH]; intros t Hn Ht.
  - destruct t; [contradiction|simpl in Hn; lia].
  - assert (0 < len t) as Hpos
      by (destruct t; [contradiction|rewrite len_cons;
                                    pose proof (len_nonneg t); lia]).
    destruct (Z_le_gt_dec (len t) w) as [Hshort|Hlong].
    + rewrite wrapAt_short, ceilDiv_one by lia. lia.
    + rewrite wrapAt_long by lia.
      assert (len (skipn (Z.to_nat w) t) = len t - w) as Hsk
        by (unfold len in *; rewrite length_skipn; lia).
      rewrite !len_app, IH.
      * rewrite Hsk, <- (ceilDiv_step (len t) w) by lia.
        change (len [LF]) with 1.
        assert (len (firstn (Z.to_nat w) t) = w)
          by (unfold len in *; rewrite length_firstn; lia).
        lia.
      * rewrite length_skipn. unfold len in *. lia.
      * intros E. rewrite E in Hsk. change (len []) with 0 in Hsk. lia.
Qed.

Lemma wrapAt_length_witness :
  len (wrapAt (str "abcdefgh") (Some 4)) = 8 + (ceilDiv 8 4 - 1)
  /\ len (wrapAt (str "abcdefghi") (Some 4)) = 9 + (ceilDiv 9 4 - 1).
Proof.
  split.
  - exact (wrapAt_length 4 (str "abcdefgh") ltac:(lia) ltac:(discriminate)).
  - exact (wrapAt_length 4 (str "abcdefghi") ltac:(lia) ltac:(discriminate)).
Defined.

Lemma at_app_l {A} (l m : list A) i :
  i < len l -> at_ (l ++ m) i = at_ l i.
Proof.
  intros Hi. unfold at_, len in *. destruct (Z.ltb_spec i 0); [reflexivity|].
  apply nth_error_app1. lia.
Qed.

Lemma at_firstn {A} (l : list A) (k : nat) i :
  i < Z.of_nat k -> at_ (firstn k l) i = at_ l i.
Proof.
  intros Hi. unfold at_. destruct (Z.ltb_spec i 0); [reflexivity|].
  rewrite nth_error_firstn.
  destruct (Nat.ltb_spec (Z.to_nat i) k); [reflexivity|lia].
Qed.

Lemma at_skipn {A} (l : list A) (k : nat) i :
  0 <= i -> at_ (skipn k l) i = at_ l (Z.of_nat k + i).
Proof.
  intros Hi. unfold at_.
  destruct (Z.ltb_spec i 0); [lia|].
  destruct (Z.ltb_spec (Z.of_nat k + i) 0); [lia|].
  rewrite nth_error_skipn. f_equal. lia.
Qed.

(** The characters of a wrapped text, line by line. *)
Lemma wrapAt_at w :
  0 < w ->
  forall (n : nat) t, (List.length t <= n)%nat ->
  forall q r, 0 <= q -> 0 <= r <= w ->
  at_ (wrapAt t (Some w)) (q * (w + 1) + r)
  = if r <? w then at_ t (q * w + r)
    else if (q + 1) * w <? len t then Some LF else None.
Proof.
  intros Hw. induction n as [|n IH]; intros t Hn q r Hq Hr.
  - destruct t; [|simpl in Hn; lia].
    rewrite wrapAt_short by (cbn; lia).
    rewrite !at_out_of_range by (cbn; nia).
    destruct (r <? w); [reflexivity|].
    destruct (Z.ltb_spec ((q + 1) * w) (len (@nil Z)));
      [cbn in *; nia|reflexivity].
  - destruct (Z_le_gt_dec (len t) w) as [Hshort|Hlong].
    + rewrite wrapAt_short by lia.
      destruct (Z.ltb_spec r w).
      * destruct (Z.eq_dec q 0) as [->|Hq0]; [reflexivity|].
        rewrite !at_out_of_range by nia. reflexivity.
      * rewrite at_out_of_range by nia.
        destruct (Z.ltb_spec ((q + 1) * w) (len t)); [nia|reflexivity].
    + rewrite wrapAt_long by lia.
      set (hd := firstn (Z.to_nat w) t). set (tl := skipn (Z.to_nat w) t).
      assert (len hd = w) as Hhd
        by (unfold hd, len in *; rewrite length_firstn; lia).
      assert (len tl = len t - w) as Htl
        by (unfold tl, len in *; rewrite length_skipn; lia).
      destruct (Z.eq_dec q 0) as [->|Hq0].
      * replace (0 * (w + 1) + r) with r by ring.
        replace (0 * w + r) with r by ring.
        replace ((0 + 1) * w) with w by ring.
        destruct (Z.ltb_spec r w).
        -- rewrite at_app_l by lia. unfold hd. apply at_firstn. lia.
        -- assert (r = w) as -> by lia.
           pose proof (at_app_0 hd ([LF] ++ wrapAt tl (Some w))) as E.
           rewrite Hhd in E. rewrite E.
           destruct (Z.ltb_spec w (len t)); [reflexivity|lia].
      * rewrite app_assoc.
        replace (q * (w + 1) + r)
          with (len (hd ++ [LF]) + ((q - 1) * (w + 1) + r))
          by (rewrite len_app, Hhd; change (len [LF]) with 1; ring).
        rewrite at_app_r by nia.
        rewrite (IH tl) by (unfold tl; rewrite ?length_skipn;
                            unfold len in *; lia).
        destruct (r <? w).
        -- unfold tl. rewrite at_skipn by nia. f_equal.
           rewrite Z2Nat.id by lia. ring.
        -- rewrite Htl. replace (q - 1 + 1) with q by lia.
           destruct (Z.ltb_spec (q * w) (len t - w));
             destruct (Z.ltb_spec ((q + 1) * w) (len t));
             try reflexivity; nia.
Qed.

(** X16. Where the line breaks are.  With a positive width [w] the wrapped
    text is made of lines of [w + 1] places: at the place [r < w] of the
    line [q] is the character [q * w + r] of the text, and at the place
    [w] a line break when the text goes on after the line, nothing when it
    does not. *)
Theorem wrapAt_layout w t q r :
  0 < w -> 0 <= q -> 0 <= r <= w ->
  at_ (wrapAt t (Some w)) (q * (w + 1) + r)
  = if r <? w then at_ t (q * w + r)
    else if (q + 1) * w <? len t then Some LF else None.
Proof.
  intros Hw Hq Hr. apply (wrapAt_at w Hw (List.length t)); auto.
Qed.

Lemma wrapAt_layout_witness :
  at_ (wrapAt (str "abcdefgh") (Some 4)) (0 * (4 + 1) + 4) = Some LF
  /\ at_ (wrapAt (str "abcdefgh") (Some 4)) (1 * (4 + 1) + 0) = Some 101
  /\ at_ (wrapAt (str "abcdefgh") (Some 4)) (1 * (4 + 1) + 4) = None.
Proof.
  split; [|split].
  - exact (wrapAt_layout 4 (str "abcdefgh") 0 4
             ltac:(lia) ltac:(lia) ltac:(lia)).
  - exact (wrapAt_layout 4 (str "abcdefgh") 1 0
             ltac:(lia) ltac:(lia) ltac:(lia)).
  - exact (wrapAt_layout 4 (str "abcdefgh") 1 4
             ltac:(lia) ltac:(lia) ltac:(lia)).
Defined.

(* ================================================================== *)
(** ** The string entry points                                         *)
(* ================================================================== *)

(** X17. Between [encodeBase64] and [decodeBase64] the Base64 text is
    transparent: when the environment encodes the (normalized) string to a
    buffer of bytes and decodes this buffer to a text, [encodeBase64]
    returns, whatever its options, a Base64 text that [decodeBase64] turns
    into this text, or into this buffer for the output ["bytes"]. *)
Theorem string_roundtrip env s normalize eopts dopts bytes text :
  utf8Encode env s normalize = Returned bytes ->
  is_bytes bytes ->
  utf8Decode env bytes = Returned text ->
  exists b64,
    encodeBase64 env s normalize eopts = Returned b64
    /\ decodeBase64 env b64 None None dopts = Returned (DecodedString text)
    /\ decodeBase64 env b64 (Some output_string) None dopts
       = Returned (DecodedString text)
    /\ decodeBase64 env b64 (Some output_bytes) None dopts
       = Returned (DecodedBytes bytes).
Proof.
  intros Henc Hbytes Hdec. unfold encodeBase64, decodeBase64.
  rewrite Henc. eexists. split; [reflexivity|].
  rewrite decode_encode_any by assumption. rewrite Hdec.
  repeat split.
Qed.

Lemma string_roundtrip_witness :
  let env :=
    mkEnvironment (Some (fun s => s)) (Some (fun b => b)) None
      (fun _ s => s) in
  is_bytes (str "hi")
  /\ exists b64,
       encodeBase64 env (str "hi") None noOptions = Returned b64
       /\ decodeBase64 env b64 None None strictMode
          = Returned (DecodedString (str "hi")).
Proof.
  intros env.
  assert (is_bytes (str "hi")) as Hb
    by (repeat constructor; unfold is_byte; cbn; lia).
  split; [exact Hb|].
  destruct (string_roundtrip env (str "hi") None noOptions strictMode
              (str "hi") (str "hi") eq_refl Hb eq_refl)
    as (b64 & He & Hd & _).
  exists b64. split; assumption.
Defined.

(** X18. What the string entry points throw.  [encodeBase64] throws only for
    want of an encoder in the environment, whatever the string and the
    options.  [decodeBase64] throws the errors of [decodeBase64ToBytes],
    and, once the bytes are decoded and the output is not ["bytes"], for
    want of a decoder. *)
Theorem string_entry_errors env :
  (forall s normalize options e,
     encodeBase64 env s normalize options = Threw e
     <-> e = NoUtf8Encoder /\ textEncoder env = None /\ buffer env = None)
  /\ (forall t output normalize options,
        (forall d,
           decodeBase64 env t output normalize options
           = Threw (DecodeFailure d)
           <-> decodeBase64ToBytes t options = Err d)
        /\ (decodeBase64 env t output normalize options = Threw NoUtf8Decoder
            <-> output <> Some output_bytes
                /\ textDecoder env = None /\ buffer env = None
                /\ exists B, decodeBase64ToBytes t options = Ok B)
        /\ decodeBase64 env t output normalize options
           <> Threw NoUtf8Encoder).
Proof.
  split.
  - intros s normalize options e. unfold encodeBase64, utf8Encode.
    destruct (textEncoder env);
      [split; [discriminate|intros (_ & H & _); discriminate]|].
    destruct (buffer env) as [[from toString]|];
      [split; [discriminate|intros (_ & _ & H); discriminate]|].
    split; [intros H; injection H as <-; auto|intros (-> & _); reflexivity].
  - intros t output normalize options. unfold decodeBase64, utf8Decode.
    destruct (decodeBase64ToBytes t options) as [B|d0].
    + assert (output = Some output_bytes \/ output <> Some output_bytes)
        as [->|Hout] by (destruct output as [[|]|]; auto; right; discriminate).
      { repeat split; try discriminate.
        intros (H & _). contradiction. }
      assert (forall r : Outcome Decoded,
                match output with
                | Some output_bytes => Returned (DecodedBytes B)
                | _ => r
                end = r) as Hr
        by (intros r; destruct output as [[|]|]; congruence).
      rewrite Hr.
      destruct (textDecoder env);
        [repeat split; try discriminate;
         intros (_ & H & _); discriminate|].
      destruct (buffer env) as [[from toString]|];
        [repeat split; try discriminate;
         intros (_ & _ & H & _); discriminate|].
      repeat split; try discriminate; eauto.
    + repeat split; try discriminate; try congruence.
      intros (_ & _ & _ & B & H). discriminate.
Qed.

Lemma string_entry_errors_witness :
  let env := mkEnvironment None None None (fun _ s => s) in
  encodeBase64 env (str "hi") None noOptions = Threw NoUtf8Encoder
  /\ decodeBase64 env (str "aGk=") None None strictMode = Threw NoUtf8Decoder
  /\ decodeBase64 env (str "aGk") None None strictMode
     <> Threw NoUtf8Encoder.
Proof.
  intros env. destruct (string_entry_errors env) as [Henc Hdec].
  split; [apply Henc; auto|].
  destruct (Hdec (str "aGk=") None None strictMode) as (_ & Hd & _).
  split.
  - apply Hd. repeat split; try discriminate.
    exists [104; 105]. vm_compute. reflexivity.
  - exact (proj2 (proj2 (Hdec (str "aGk") None None strictMode))).
Defined.

(* ================================================================== *)
(** ** The hooks                                                       *)
(* ================================================================== *)

(** X19. The dependency array of [useBase64] determines what its callback
    returns: a value memoized under equal dependencies is the value of the
    current arguments. *)
Theorem useBase64_deps_sound env input normalize options
    input' normalize' options' :
  useBase64_deps input normalize options
  = useBase64_deps input' normalize' options' ->
  useBase64_compute env input normalize options
  = useBase64_compute env input' normalize' options'.
Proof.
  unfold useBase64_deps, useBase64_compute. intros H.
  destruct options as [v p w], options' as [v' p' w'].
  cbn [variant padding wrap] in H. injection H as -> -> -> -> ->.
  reflexivity.
Qed.

Lemma useBase64_deps_sound_witness :
  let env :=
    mkEnvironment (Some (fun s => s)) None None (fun _ s => s) in
  useBase64_deps None None noOptions
  = useBase64_deps (Some []) None noOptions
  /\ useBase64_compute env None None noOptions
     = useBase64_compute env (Some []) None noOptions.
Proof.
  intros env. split; [reflexivity|].
  exact (useBase64_deps_sound env None None noOptions (Some []) None
           noOptions eq_refl).
Defined.

(** X20. The dependency array of [useBase64Decode] and of
    [useBase64DecodeSafe] leaves out [loose], on which the callbacks
    depend: for an input that the loose mode decodes to some bytes and the
    strict mode rejects, the two modes have equal dependencies and, with
    the output ["bytes"], different results. *)
Theorem useBase64Decode_deps_omit_loose env input normalize B e :
  decodeBase64ToBytes (safeInput input) looseMode = Ok B ->
  decodeBase64ToBytes (safeInput input) strictMode = Err e ->
  B <> [] ->
  useBase64Decode_deps input (Some output_bytes) normalize looseMode
  = useBase64Decode_deps input (Some output_bytes) normalize strictMode
  /\ useBase64Decode_compute env input (Some output_bytes) normalize
       looseMode
     <> useBase64Decode_compute env input (Some output_bytes) normalize
          strictMode
  /\ useBase64DecodeSafe_compute env input (Some output_bytes) normalize
       looseMode
     <> useBase64DecodeSafe_compute env input (Some output_bytes) normalize
          strictMode.
Proof.
  intros Hl Hs HB. split; [reflexivity|].
  unfold useBase64Decode_compute, useBase64DecodeSafe_compute, decodeBase64.
  rewrite Hl, Hs. cbn [emptyResult].
  assert (safeInput input <> []) as Hne.
  { intros E. rewrite E in Hs. discriminate. }
  split.
  - intros H. injection H as H. contradiction.
  - destruct (safeInput input); [contradiction|]. discriminate.
Qed.

Lemma useBase64Decode_deps_omit_loose_witness :
  let env := mkEnvironment None None None (fun _ s => s) in
  decodeBase64ToBytes (safeInput (Some (str "YR"))) looseMode = Ok [97]
  /\ decodeBase64ToBytes (safeInput (Some (str "YR"))) strictMode
     = Err NonCanonical
  /\ useBase64Decode_compute env (Some (str "YR")) (Some output_bytes) None
       looseMode
     <> useBase64Decode_compute env (Some (str "YR")) (Some output_bytes)
          None strictMode.
Proof.
  intros env.
  assert (decodeBase64ToBytes (safeInput (Some (str "YR"))) looseMode
          = Ok [97]) as Hl by (vm_compute; reflexivity).
  assert (decodeBase64ToBytes (safeInput (Some (str "YR"))) strictMode
          = Err NonCanonical) as Hs by (vm_compute; reflexivity).
  split; [exact Hl|]. split; [exact Hs|].
  exact (proj1 (proj2 (useBase64Decode_deps_omit_loose env
                         (Some (str "YR")) None [97] NonCanonical Hl Hs
                         ltac:(discriminate)))).
Defined.

(** X21. The object of [useBase64DecodeSafe]: it is valid exactly when it
    has no error; an invalid one has the error [decodeBase64] threw and the
    empty data.  For the output ["bytes"] it is what [decodeBase64ToBytes]
    gives, the empty input included, and so, for an encoding of the
    encoder, the valid object of the encoded bytes.  For the other output
    an absent or empty input is valid with the empty string, also where
    [decodeBase64] throws for want of a decoder. *)
Theorem useBase64DecodeSafe_result env input output normalize options :
  let r := useBase64DecodeSafe_compute env input output normalize options in
  (isValid r = true <-> error r = None)
  /\ (isValid r = false ->
      data r = emptyResult output
      /\ exists e,
           error r = Some e
           /\ decodeBase64 env (safeInput input) output normalize options
              = Threw e)
  /\ (output = Some output_bytes ->
      r = match decodeBase64ToBytes (safeInput input) options with
          | Ok B => mkSafeResult (DecodedBytes B) None true
          | Err e => mkSafeResult (DecodedBytes []) (Some (DecodeFailure e))
                       false
          end)
  /\ (forall bs eopts,
        is_bytes bs -> input = Some (encodeBase64FromBytes bs eopts) ->
        output = Some output_bytes ->
        r = mkSafeResult (DecodedBytes bs) None true)
  /\ (safeInput input = [] ->
      r = mkSafeResult (emptyResult output) None true
      /\ (output <> Some output_bytes ->
          textDecoder env = None -> buffer env = None ->
          decodeBase64 env (safeInput input) output normalize options
          = Threw NoUtf8Decoder)).
Proof.
  cbv zeta.
  assert (output = Some output_bytes ->
          useBase64DecodeSafe_compute env input output normalize options
          = match decodeBase64ToBytes (safeInput input) options with
            | Ok B => mkSafeResult (DecodedBytes B) None true
            | Err e =>
                mkSafeResult (DecodedBytes []) (Some (DecodeFailure e)) false
            end) as Hbytes.
  { intros ->. unfold useBase64DecodeSafe_compute, decodeBase64.
    destruct (safeInput input) as [|c s];
      [destruct options as [[|]]; reflexivity|].
    destruct (decodeBase64ToBytes (c :: s) options); reflexivity. }
  split; [|split; [|split; [exact Hbytes|split]]].
  - unfold useBase64DecodeSafe_compute.
    destruct (safeInput input) as [|c s]; [cbn; split; reflexivity|].
    destruct (decodeBase64 env (c :: s) output normalize options);
      cbn; split; (reflexivity || discriminate).
  - unfold useBase64DecodeSafe_compute.
    destruct (safeInput input) as [|c s] eqn:Hin; [discriminate|].
    destruct (decodeBase64 env (c :: s) output normalize options) as [d|e];
      [discriminate|].
    cbn. intros _. split; [reflexivity|]. exists e. split; reflexivity.
  - intros bs eopts Hbs -> Hout. rewrite (Hbytes Hout). cbn [safeInput].
    rewrite decode_encode_any by assumption. reflexivity.
  - intros Hin. unfold useBase64DecodeSafe_compute, decodeBase64, utf8Decode.
    rewrite Hin. split; [reflexivity|].
    intros Hout -> ->.
    assert (decodeBase64ToBytes [] options = Ok []) as ->
      by (destruct options as [[|]]; reflexivity).
    destruct output as [[|]|]; [reflexivity|contradiction|reflexivity].
Qed.

Lemma useBase64DecodeSafe_result_witness :
  let env := mkEnvironment None None None (fun _ s => s) in
  isValid (useBase64DecodeSafe_compute env (Some (str "Y")) None None
             strictMode) = false
  /\ error (useBase64DecodeSafe_compute env (Some (str "Y")) None None
              strictMode) = Some (DecodeFailure InvalidLength)
  /\ is_bytes [104; 105]
  /\ useBase64DecodeSafe_compute env
       (Some (encodeBase64FromBytes [104; 105] noOptions))
       (Some output_bytes) None strictMode
     = mkSafeResult (DecodedBytes [104; 105]) None true
  /\ useBase64DecodeSafe_compute env None None None strictMode
     = mkSafeResult (DecodedString []) None true
  /\ decodeBase64 env (safeInput None) None None strictMode
     = Threw NoUtf8Decoder.
Proof.
  intros env.
  assert (isValid (useBase64DecodeSafe_compute env (Some (str "Y")) None
                     None strictMode) = false) as Hv
    by (vm_compute; reflexivity).
  assert (is_bytes [104; 105]) as Hb
    by (repeat constructor; unfold is_byte; lia).
  split; [exact Hv|].
  destruct (useBase64DecodeSafe_result env (Some (str "Y")) None None
              strictMode) as (_ & Hinv & _).
  destruct (Hinv Hv) as (_ & e & He & Hd). split.
  { rewrite He. f_equal. vm_compute in Hd. congruence. }
  split; [exact Hb|]. split.
  { destruct (useBase64DecodeSafe_result env
                (Some (encodeBase64FromBytes [104; 105] noOptions))
                (Some output_bytes) None strictMode)
      as (_ & _ & _ & Henc & _).
    exact (Henc [104; 105] noOptions Hb eq_refl eq_refl). }
  destruct (useBase64DecodeSafe_result env None None None strictMode)
    as (_ & _ & _ & _ & Hempty).
  destruct (Hempty eq_refl) as [Hr Hthrow]. split; [exact Hr|].
  apply Hthrow; [discriminate|reflexivity|reflexivity].
Defined.

(** X22. [useBase64DecodeBytes] gives back the bytes of an encoding,
    whatever the options of the encoder, and the empty buffer for an absent
    input and for an input the strict mode rejects. *)
Theorem useBase64DecodeBytes_of_encoding :
  (forall bs opts,
     is_bytes bs ->
     useBase64DecodeBytes_compute (Some (encodeBase64FromBytes bs opts))
     = bs)
  /\ useBase64DecodeBytes_compute None = []
  /\ (forall input e,
        decodeBase64ToBytes input strictMode = Err e ->
        useBase64DecodeBytes_compute (Some input) = []).
Proof.
  unfold useBase64DecodeBytes_compute. cbn [safeInput]. repeat split.
  - intros bs opts Hbs. rewrite decode_encode_any by assumption. reflexivity.
  - intros input e ->. reflexivity.
Qed.

Lemma useBase64DecodeBytes_of_encoding_witness :
  is_bytes [0; 255; 16]
  /\ useBase64DecodeBytes_compute
       (Some (encodeBase64FromBytes [0; 255; 16]
                (mkOptions (Some url) (Some strip) (Some 3))))
     = [0; 255; 16]
  /\ useBase64DecodeBytes_compute (Some (str "YR")) = [].
Proof.
  assert (is_bytes [0; 255; 16]) as Hb
    by (repeat constructor; unfold is_byte; lia).
  destruct useBase64DecodeBytes_of_encoding as (Henc & _ & Herr).
  split; [exact Hb|]. split; [exact (Henc _ _ Hb)|].
  apply (Herr (str "YR") NonCanonical). vm_compute. reflexivity.
Defined.

(* ================================================================== *)
(** ** Data URLs                                                       *)
(* ================================================================== *)

Lemma indexOf_from_none c s i : ~ In c s -> indexOf_from i s c = -1.
Proof.
  revert i. induction s as [|x s IH]; intros i Hc; [reflexivity|].
  cbn [indexOf_from]. destruct (Z.eqb_spec x c) as [->|_].
  - exfalso. apply Hc. left. reflexivity.
  - apply IH. intros H. apply Hc. right. exact H.
Qed.

Lemma indexOf_from_found c p r i :
  ~ In c p -> indexOf_from i (p ++ c :: r) c = i + len p.
Proof.
  revert i. induction p as [|x p IH]; intros i Hc.
  - cbn. rewrite Z.eqb_refl. lia.
  - cbn [indexOf_from app]. destruct (Z.eqb_spec x c) as [->|_].
    + exfalso. apply Hc. left. reflexivity.
    + rewrite IH, len_cons by (intros H; apply Hc; right; exact H). lia.
Qed.

Lemma In_split_first (c : Z) s :
  In c s -> exists p r, s = p ++ c :: r /\ ~ In c p.
Proof.
  induction s as [|x s IH]; intros Hin; [destruct Hin|].
  destruct (Z.eq_dec x c) as [->|Hx].
  - exists [], s. split; [reflexivity|intros []].
  - destruct Hin as [E|Hin]; [contradiction|].
    destruct (IH Hin) as (p & r & -> & Hp).
    exists (x :: p), r. split; [reflexivity|].
    intros [E|H]; [contradiction|exact (Hp H)].
Qed.

Lemma substringFrom_whole s : substringFrom s 0 = s.
Proof.
  unfold substringFrom. pose proof (len_nonneg s).
  rewrite Z.max_l, Z.min_l by lia. reflexivity.
Qed.

Lemma substringFrom_app p c r :
  substringFrom (p ++ c :: r) (len p + 1) = r.
Proof.
  unfold substringFrom. rewrite len_app, len_cons.
  pose proof (len_nonneg p). pose proof (len_nonneg r).
  rewrite Z.max_l, Z.min_l by lia.
  replace (Z.to_nat (len p + 1)) with (List.length (p ++ [c]) + 0)%nat
    by (rewrite length_app; unfold len; simpl; lia).
  change (p ++ c :: r) with (p ++ [c] ++ r). rewrite app_assoc.
  rewrite skipn_app, skipn_all2 by lia.
  replace (List.length (p ++ [c]) + 0 - List.length (p ++ [c]))%nat
    with 0%nat by lia.
  reflexivity.
Qed.

(** What [canvasToBase64] returns for the format ["base64"], of a data
    URL. *)
Lemma extract_after_comma url :
  let r := substringFrom url (indexOf url COMMA + 1) in
  (~ In COMMA url -> r = url)
  /\ (In COMMA url -> exists p, url = p ++ COMMA :: r /\ ~ In COMMA p).
Proof.
  cbv zeta. unfold indexOf. split.
  - intros H. rewrite indexOf_from_none by assumption.
    apply substringFrom_whole.
  - intros H. destruct (In_split_first _ _ H) as (p & r & -> & Hp).
    rewrite indexOf_from_found, Z.add_0_l, substringFrom_app by assumption.
    eauto.
Qed.

(** X23. With the format ["base64"], [canvasToBase64] returns what follows
    the first comma of the data URL it returns with the other format, and
    the whole of it when it has no comma. *)
Theorem canvasToBase64_payload {Quality : Type}
    (toDataURL : jsstring -> option Quality -> jsstring) type quality :
  let url := canvasToBase64 toDataURL type quality None in
  let r := canvasToBase64 toDataURL type quality (Some format_base64) in
  canvasToBase64 toDataURL type quality (Some format_dataUrl) = url
  /\ (~ In COMMA url -> r = url)
  /\ (In COMMA url -> exists p, url = p ++ COMMA :: r /\ ~ In COMMA p).
Proof.
  cbv zeta. unfold canvasToBase64. split; [reflexivity|].
  apply extract_after_comma.
Qed.

Lemma canvasToBase64_payload_witness :
  let toDataURL (type : jsstring) (quality : option Z) :=
    str "data:" ++ type ++ str ";base64,QUJD" in
  canvasToBase64 toDataURL None None None
  = str "data:image/png;base64,QUJD"
  /\ canvasToBase64 toDataURL None None (Some format_base64) = str "QUJD".
Proof.
  intros toDataURL. split; [reflexivity|].
  destruct (canvasToBase64_payload toDataURL None None) as (_ & _ & H).
  destruct H as (p & E & Hp).
  { apply existsb_In. vm_compute. reflexivity. }
  vm_compute. reflexivity.
Defined.

(** X24. The data URL of [imageDataToBase64] has, after its first comma
    (where [canvasToBase64] cuts for the format ["base64"]), what
    [imageDataToBase64] returns for the format ["base64"], when the MIME
    type has no comma; and this decodes to the image data. *)
Theorem imageDataToBase64_payload {Quality : Type}
    imageData mimeType type (quality : option Quality) dopts :
  is_bytes imageData ->
  (forall m, mimeType = Some m -> ~ In COMMA m) ->
  canvasToBase64 (fun _ _ => imageDataToBase64 imageData mimeType None)
    type quality (Some format_base64)
  = imageDataToBase64 imageData mimeType (Some format_base64)
  /\ decodeBase64ToBytes
       (imageDataToBase64 imageData mimeType (Some format_base64)) dopts
     = Ok imageData.
Proof.
  intros Hbytes Hmime. split.
  - unfold canvasToBase64, imageDataToBase64. cbv beta zeta.
    match goal with
    | |- context [str "data:" ++ ?x ++ _] => set (m := x)
    end.
    assert (~ In COMMA m) as Hm.
    { subst m. destruct mimeType as [m|]; [apply Hmime; reflexivity|].
      intros H. apply (In_nth _ _ 0) in H. destruct H as (n & Hn & E).
      cbn in Hn. do 9 (destruct n as [|n]; [discriminate|]). lia. }
    set (b64 := encodeBase64FromBytes imageData noOptions).
    assert (str "data:" ++ m ++ str ";base64," ++ b64
            = (str "data:" ++ m ++ str ";base64") ++ COMMA :: b64) as ->
      by (rewrite <- !app_assoc; reflexivity).
    unfold indexOf. rewrite indexOf_from_found.
    + rewrite Z.add_0_l. apply substringFrom_app.
    + intros H. apply in_app_or in H. destruct H as [H|H].
      * cbn in H. intuition discriminate.
      * apply in_app_or in H. destruct H as [H|H]; [exact (Hm H)|].
        cbn in H. intuition discriminate.
  - unfold imageDataToBase64. apply decode_encode_any, Hbytes.
Qed.

Lemma imageDataToBase64_payload_witness :
  is_bytes [137; 80; 78; 71]
  /\ canvasToBase64
       (fun _ (_ : option Z) =>
          imageDataToBase64 [137; 80; 78; 71] (Some (str "image/gif")) None)
       None None (Some format_base64)
     = imageDataToBase64 [137; 80; 78; 71] (Some (str "image/gif"))
         (Some format_base64)
  /\ decodeBase64ToBytes
       (imageDataToBase64 [137; 80; 78; 71] (Some (str "image/gif"))
          (Some format_base64)) strictMode
     = Ok [137; 80; 78; 71].
Proof.
  assert (is_bytes [137; 80; 78; 71]) as Hb
    by (repeat constructor; unfold is_byte; lia).
  split; [exact Hb|].
  apply (imageDataToBase64_payload [137; 80; 78; 71]
           (Some (str "image/gif")) None None strictMode Hb).
  intros m E. injection E as <-. intros H. apply (In_nth _ _ 0) in H.
  destruct H as (n & Hn & E). cbn in Hn.
  do 9 (destruct n as [|n]; [discriminate|]). lia.
Defined.
